(** * gh-sync.mjs: GitHub issue synchronisation with local .json + .md files

    A shallow embedding of [gh-sync.mjs] and the properties of its
    specification.  The development follows the layout of the script:
    utility functions on strings, the JSON values of the metadata files, the
    file store, the remote client, and the commands. *)

From Stdlib Require Import Ascii String NArith ZArith List Lia Bool.
From Stdlib Require Import DecimalString DecimalPos DecimalN Sorted.
From stdpp Require Import base list strings gmap.
Import ListNotations.

#[local] Set Warnings "-register-all".

(** ** JavaScript strings

    A JavaScript string is a sequence of UTF-16 code units.  The model keeps
    the code units 0..255 (the ISO-8859-1 range), one [ascii] per unit; on
    this range the built-ins below are given exactly as ECMAScript defines
    them. *)
Module JsString.

Definition jstring := list ascii.

(** A literal of the script. *)
Definition str (s : string) : jstring := list_ascii_of_string s.

Definition code (c : ascii) : N := N_of_ascii c.

Definition between (lo hi : N) (c : ascii) : bool :=
  (lo <=? code c)%N && (code c <=? hi)%N.

Definition char_eqb (a b : ascii) : bool := (code a =? code b)%N.

(** [String.prototype.toLowerCase]: A-Z, and the Latin-1 capitals
    U+00C0..U+00DE without the multiplication sign U+00D7, move up by 32. *)
Definition lower_char (c : ascii) : ascii :=
  if between 65 90 c || (between 192 222 c && negb (code c =? 215)%N)
  then ascii_of_N (code c + 32)
  else c.

Definition toLowerCase (s : jstring) : jstring := map lower_char s.

(** LineTerminator: LF and CR (U+2028 and U+2029 lie outside the range). *)
Definition is_line_terminator (c : ascii) : bool :=
  (code c =? 10)%N || (code c =? 13)%N.

(** WhiteSpace: TAB, VT, FF, SP, NBSP. *)
Definition is_white_space (c : ascii) : bool :=
  (code c =? 9)%N || (code c =? 11)%N || (code c =? 12)%N ||
  (code c =? 32)%N || (code c =? 160)%N.

(** What [trim] removes: WhiteSpace and LineTerminator. *)
Definition is_trim_char (c : ascii) : bool :=
  is_white_space c || is_line_terminator c.

Fixpoint drop_while (p : ascii -> bool) (s : jstring) : jstring :=
  match s with
  | [] => []
  | c :: r => if p c then drop_while p r else s
  end.

Fixpoint take_while (p : ascii -> bool) (s : jstring) : jstring :=
  match s with
  | [] => []
  | c :: r => if p c then c :: take_while p r else []
  end.

Definition trimStart (s : jstring) : jstring := drop_while is_trim_char s.
Definition trimEnd (s : jstring) : jstring := rev (drop_while is_trim_char (rev s)).

(** [String.prototype.trim] *)
Definition trim (s : jstring) : jstring := trimEnd (trimStart s).

Fixpoint startsWith (p s : jstring) : bool :=
  match p, s with
  | [], _ => true
  | _ :: _, [] => false
  | a :: p', b :: s' => char_eqb a b && startsWith p' s'
  end.

(** [s.endsWith(p)] *)
Definition endsWith (s p : jstring) : bool := startsWith (rev p) (rev s).

Fixpoint jstring_eqb (a b : jstring) : bool :=
  match a, b with
  | [], [] => true
  | x :: a', y :: b' => char_eqb x y && jstring_eqb a' b'
  | _, _ => false
  end.

(** [s.replace(pat, rep)] with a string pattern: the first occurrence only
    (the replacements of the script hold no [$]). *)
Fixpoint replace_first (pat rep s : jstring) : jstring :=
  if startsWith pat s then rep ++ drop (length pat) s
  else match s with
       | [] => []
       | c :: r => c :: replace_first pat rep r
       end.

(** [s.split(sep)[0]] for a one-character separator. *)
Definition split_head (sep : ascii) (s : jstring) : jstring :=
  take_while (fun c => negb (char_eqb c sep)) s.

(** [arr.includes(x)] on an array of strings. *)
Definition includes (arr : list jstring) (x : jstring) : bool :=
  existsb (jstring_eqb x) arr.

(** Template interpolation of a non-negative integer: its decimal digits.
    The numbers of the script are doubles; a template prints all the digits
    of an integer below 10^21. *)
Definition decimal (n : N) : jstring := str (NilEmpty.string_of_uint (N.to_uint n)).

(** [Number.MAX_SAFE_INTEGER], 2^53 - 1: up to it every integer is a double
    of its own, [parseInt] reads its digits exactly and adding 1 is exact.
    The issue numbers of the model are the numbers of the script on this
    range. *)
Definition MAX_SAFE_INTEGER : N := 9007199254740991.

Definition safe_integer (n : N) : bool := (n <=? MAX_SAFE_INTEGER)%N.

(** The order of [Array.prototype.sort] without comparator: strings compare
    by code units, a proper prefix first. *)
Fixpoint jstring_leb (a b : jstring) : bool :=
  match a, b with
  | [], _ => true
  | _ :: _, [] => false
  | x :: a', y :: b' =>
      if (code x <? code y)%N then true
      else if (code y <? code x)%N then false
      else jstring_leb a' b'
  end.

End JsString.
Import JsString.

(** ** Slug derivation: [slugify] *)
Module Slug.

Definition LBRACKET : ascii := "["%char.
Definition RBRACKET : ascii := "]"%char.
Definition HYPHEN : ascii := "-"%char.

(** The atom [.] of a regular expression without the [s] flag. *)
Definition dot (c : ascii) : bool := negb (is_line_terminator c).

(** [.*?\]] tried at the head of [s]: the lazy star gives [\]] the first try
    at each position and otherwise consumes one [.]; the result is the number
    of code units matched. *)
Fixpoint lazy_dots_then_close (s : jstring) : option nat :=
  match s with
  | [] => None
  | c :: r =>
      if char_eqb c RBRACKET then Some 1%nat
      else if dot c then
        match lazy_dots_then_close r with
        | Some k => Some (S k)
        | None => None
        end
      else None
  end.

(** [.replace(/\[.*?\]/g, '')]: the scan tries the pattern at every index
    from left to right; [skip] counts the code units of the current match
    that are still to be passed over. *)
Fixpoint remove_tags_from (skip : nat) (s : jstring) : jstring :=
  match s with
  | [] => []
  | c :: r =>
      match skip with
      | S k => remove_tags_from k r
      | O =>
          if char_eqb c LBRACKET then
            match lazy_dots_then_close r with
            | Some k => remove_tags_from k r
            | None => c :: remove_tags_from 0 r
            end
          else c :: remove_tags_from 0 r
      end
  end.

Definition remove_tags (s : jstring) : jstring := remove_tags_from 0 s.

(** The class [[a-z0-9]]. *)
Definition is_az09 (c : ascii) : bool := between 97 122 c || between 48 57 c.

(** [.replace(/[^a-z0-9]+/g, '-')]: [in_run] tells that the greedy match of
    the current run has started, so its hyphen is already written. *)
Fixpoint hyphenate_from (in_run : bool) (s : jstring) : jstring :=
  match s with
  | [] => []
  | c :: r =>
      if is_az09 c then c :: hyphenate_from false r
      else if in_run then hyphenate_from true r
      else HYPHEN :: hyphenate_from true r
  end.

Definition hyphenate (s : jstring) : jstring := hyphenate_from false s.

(** The alternative [^-]: a hyphen at index 0. *)
Definition drop_first_hyphen (s : jstring) : jstring :=
  match s with
  | c :: r => if char_eqb c HYPHEN then r else s
  | [] => []
  end.

(** The alternative [-$]: a hyphen at the last index. *)
Definition drop_last_hyphen (s : jstring) : jstring :=
  rev (drop_first_hyphen (rev s)).

(** [.replace(/^-|-$/g, '')] *)
Definition trim_hyphen (s : jstring) : jstring :=
  drop_last_hyphen (drop_first_hyphen s).

Definition slugify (title : jstring) : jstring :=
  trim_hyphen (hyphenate (trim (remove_tags (toLowerCase title)))).

End Slug.
Import Slug.

(** ** The derivation rule in the words of the specification

    "Strip any bracketed tag groups (text between [[] and []]), trim,
    lower-case, collapse every run of non-alphanumeric characters to a single
    hyphen, and strip leading/trailing hyphens."  These definitions follow
    that sentence and not the script; the slug theorems compare the two. *)
Module SlugSpec.

(** A group opens at [[] and is closed by the next []]; a closed group is
    dropped with its brackets, a group that is never closed stays as it is.
    [inside] tells which characters may stand between the two brackets;
    [held] is the text of the open group, last character first. *)
Fixpoint strip_groups_scan (inside : ascii -> bool) (held : jstring) (s : jstring)
  : jstring :=
  match s with
  | [] => rev held
  | c :: r =>
      match held with
      | [] =>
          if char_eqb c LBRACKET then strip_groups_scan inside [c] r
          else c :: strip_groups_scan inside [] r
      | _ :: _ =>
          if char_eqb c RBRACKET then strip_groups_scan inside [] r
          else if inside c then strip_groups_scan inside (c :: held) r
          else rev held ++ c :: strip_groups_scan inside [] r
      end
  end.

Definition strip_groups (inside : ascii -> bool) (s : jstring) : jstring :=
  strip_groups_scan inside [] s.

(** Alphanumeric, in the word of the specification: a letter or a digit.
    On the code units of the model the letters are A-Z, a-z, the ordinal
    indicators U+00AA and U+00BA, the micro sign U+00B5 and U+00C0..U+00FF
    without the multiplication and the division sign. *)
Definition is_alphanumeric (c : ascii) : bool :=
  between 48 57 c || between 65 90 c || between 97 122 c
  || (code c =? 170)%N || (code c =? 181)%N || (code c =? 186)%N
  || between 192 214 c || between 216 246 c || between 248 255 c.

(** The letters and digits of ASCII only. *)
Definition is_ascii_alphanumeric (c : ascii) : bool :=
  between 48 57 c || between 65 90 c || between 97 122 c.

Definition hyphen_unless (alphanumeric : ascii -> bool) (c : ascii) : ascii :=
  if alphanumeric c then c else HYPHEN.

(** Of neighbouring hyphens only the last one stays. *)
Fixpoint squeeze_hyphens (s : jstring) : jstring :=
  match s with
  | [] => []
  | a :: r =>
      match r with
      | b :: _ =>
          if char_eqb a HYPHEN && char_eqb b HYPHEN then squeeze_hyphens r
          else a :: squeeze_hyphens r
      | [] => [a]
      end
  end.

(** Every run of non-alphanumeric characters becomes one hyphen. *)
Definition collapse_runs (alphanumeric : ascii -> bool) (s : jstring) : jstring :=
  squeeze_hyphens (map (hyphen_unless alphanumeric) s).

Definition is_hyphen (c : ascii) : bool := char_eqb c HYPHEN.

(** All the hyphens at both ends go. *)
Definition strip_hyphens (s : jstring) : jstring :=
  rev (drop_while is_hyphen (rev (drop_while is_hyphen s))).

(** The rule, step by step in the order of the sentence; [inside] tells
    what may stand in a bracketed group and [alphanumeric] what a run of
    non-alphanumeric characters is made of. *)
Definition derive_slug (inside : ascii -> bool) (alphanumeric : ascii -> bool)
  (title : jstring) : jstring :=
  strip_hyphens
    (collapse_runs alphanumeric (toLowerCase (trim (strip_groups inside title)))).

(** Any text may stand between the brackets. *)
Definition any_char (c : ascii) : bool := true.

(** No two hyphens are neighbours. *)
Definition hyphens_apart (s : jstring) : Prop :=
  forall a r, s <> a ++ HYPHEN :: HYPHEN :: r.

End SlugSpec.
Import SlugSpec.

(** ** JSON values, as [JSON.parse] gives them to the script *)
Module Json.

(** Numbers are the integers: the script computes with issue numbers only.
    An object lists its properties in insertion order, which is the order of
    [JSON.stringify] for the property names of the metadata files. *)
Inductive json : Type :=
  | JNull
  | JBool (b : bool)
  | JNum (n : Z)
  | JStr (s : jstring)
  | JArr (items : list json)
  | JObj (props : list (jstring * json)).

(** ToBoolean; [undefined] is the [None] of a property read. *)
Definition truthy (v : json) : bool :=
  match v with
  | JNull => false
  | JBool b => b
  | JNum n => negb (n =? 0)%Z
  | JStr s => match s with [] => false | _ :: _ => true end
  | JArr _ => true
  | JObj _ => true
  end.

(** [a || b] where [a] is a property read *)
Definition or_else (a : option json) (b : json) : json :=
  match a with
  | Some v => if truthy v then v else b
  | None => b
  end.

Fixpoint obj_get (props : list (jstring * json)) (k : jstring) : option json :=
  match props with
  | [] => None
  | (k', v) :: rest => if jstring_eqb k k' then Some v else obj_get rest k
  end.

(** Defining a property: an existing name keeps its place and takes the new
    value, a new name goes to the end. *)
Fixpoint obj_set (props : list (jstring * json)) (k : jstring) (v : json)
  : list (jstring * json) :=
  match props with
  | [] => [(k, v)]
  | (k', v') :: rest =>
      if jstring_eqb k k' then (k', v) :: rest else (k', v') :: obj_set rest k v
  end.

(** An object literal [{ k1: v1, ...spread, k2: v2 }]: the properties are
    defined from left to right. *)
Definition object_literal (entries : list (jstring * json)) : list (jstring * json) :=
  fold_left (fun o kv => obj_set o (fst kv) (snd kv)) entries [].

(** The digits of an integer, as ToString and [JSON.stringify] print them
    below 10^21. *)
Definition number_text (n : Z) : jstring :=
  if (n <? 0)%Z then HYPHEN :: decimal (Z.to_N (Z.abs n)) else decimal (Z.to_N n).

Definition DQUOTE : ascii := ascii_of_N 34.
Definition BACKSLASH : ascii := ascii_of_N 92.
Definition NEWLINE : ascii := ascii_of_N 10.
Definition SPACE : ascii := " "%char.
Definition COMMA : ascii := ","%char.

Definition hex_digit (n : N) : ascii :=
  if (n <? 10)%N then ascii_of_N (48 + n) else ascii_of_N (87 + n).

(** QuoteJSONString, one code unit *)
Definition quote_char (c : ascii) : jstring :=
  if (code c =? 34)%N then [BACKSLASH; DQUOTE]
  else if (code c =? 92)%N then [BACKSLASH; BACKSLASH]
  else if (code c =? 8)%N then [BACKSLASH; "b"%char]
  else if (code c =? 12)%N then [BACKSLASH; "f"%char]
  else if (code c =? 10)%N then [BACKSLASH; "n"%char]
  else if (code c =? 13)%N then [BACKSLASH; "r"%char]
  else if (code c =? 9)%N then [BACKSLASH; "t"%char]
  else if (code c <? 32)%N then
    [BACKSLASH; "u"%char; "0"%char; "0"%char;
     hex_digit (code c / 16); hex_digit (code c mod 16)]
  else [c].

Definition quote (s : jstring) : jstring :=
  DQUOTE :: concat (map quote_char s) ++ [DQUOTE].

Fixpoint concat_with (sep : jstring) (parts : list jstring) : jstring :=
  match parts with
  | [] => []
  | p :: rest =>
      match rest with
      | [] => p
      | _ :: _ => p ++ sep ++ concat_with sep rest
      end
  end.

(** The brackets of SerializeJSONArray and SerializeJSONObject: without a
    gap the parts are joined by commas, with a gap each part stands on a line
    of its own, indented one step further than the closing bracket. *)
Definition enclose (opening closing : ascii) (gap indent : jstring)
  (parts : list jstring) : jstring :=
  match parts with
  | [] => [opening; closing]
  | _ :: _ =>
      match gap with
      | [] => opening :: concat_with [COMMA] parts ++ [closing]
      | _ :: _ =>
          opening :: NEWLINE :: (indent ++ gap)
            ++ concat_with (COMMA :: NEWLINE :: indent ++ gap) parts
            ++ NEWLINE :: indent ++ [closing]
      end
  end.

Definition colon (gap : jstring) : jstring :=
  match gap with
  | [] => [":"%char]
  | _ :: _ => [":"%char; SPACE]
  end.

(** SerializeJSONProperty at the indentation [indent] *)
Fixpoint serialize (gap indent : jstring) (v : json) : jstring :=
  match v with
  | JNull => str "null"
  | JBool b => if b then str "true" else str "false"
  | JNum n => number_text n
  | JStr s => quote s
  | JArr items =>
      enclose "["%char "]"%char gap indent
        (map (serialize gap (indent ++ gap)) items)
  | JObj props =>
      enclose "{"%char "}"%char gap indent
        (map (fun kv => match kv with
                        | (k, x) => quote k ++ colon gap ++ serialize gap (indent ++ gap) x
                        end) props)
  end.

(** [JSON.stringify(v)] *)
Definition JSON_stringify (v : json) : jstring := serialize [] [] v.

(** [JSON.stringify(v, null, 2)] *)
Definition JSON_stringify_2 (v : json) : jstring := serialize [SPACE; SPACE] [] v.

(** [v[k]] and [v.k] for the property names the script reads ([title],
    [state], [labels] and the local-only names): [null] has no properties and
    the read throws; an array, a string, a number or a boolean has none of
    these names. *)
Definition prop (v : json) (k : jstring) : option (option json) :=
  match v with
  | JNull => None
  | JObj props => Some (obj_get props k)
  | _ => Some None
  end.

(** ToString throws a [TypeError] on an object with a property [toString]
    of its own, which in a parsed value is never a function (the inherited
    [valueOf] returns the object itself), and on an array in which [join]
    meets such a value. *)
Fixpoint to_string_throws (v : json) : bool :=
  match v with
  | JObj props =>
      match obj_get props (str "toString") with
      | Some _ => true
      | None => false
      end
  | JArr items => existsb to_string_throws items
  | _ => false
  end.

(** ToString, of a value on which it does not throw *)
Fixpoint js_to_string (v : json) : jstring :=
  match v with
  | JNull => str "null"
  | JBool b => if b then str "true" else str "false"
  | JNum n => number_text n
  | JStr s => s
  | JArr items =>
      concat_with [COMMA]
        (map (fun x => match x with JNull => [] | _ => js_to_string x end) items)
  | JObj _ => str "[object Object]"
  end.

(** [arr.join(sep)]: [null] gives the empty string. *)
Definition array_join (sep : jstring) (items : list json) : jstring :=
  concat_with sep (map (fun x => match x with JNull => [] | _ => js_to_string x end) items).

Fixpoint insert_sorted {A : Type} (leb : A -> A -> bool) (x : A) (l : list A) : list A :=
  match l with
  | [] => [x]
  | y :: r => if leb x y then x :: l else y :: insert_sorted leb x r
  end.

(** A stable sort, as [Array.prototype.sort] is. *)
Definition sort_by {A : Type} (leb : A -> A -> bool) (l : list A) : list A :=
  fold_right (insert_sorted leb) [] l.

(** [arr.sort()] on strings *)
Definition sort_strings (l : list jstring) : list jstring := sort_by jstring_leb l.

(** [arr.sort()] on parsed JSON: the elements compare by their ToString. *)
Definition sort_values (l : list json) : list json :=
  sort_by (fun x y => jstring_leb (js_to_string x) (js_to_string y)) l.

(** [a === s] where [s] is a string *)
Definition strict_eq_string (a : option json) (s : jstring) : bool :=
  match a with
  | Some (JStr t) => jstring_eqb t s
  | _ => false
  end.

(** [arr.includes(s)] on parsed JSON, for a string [s] *)
Definition includes_string (arr : list json) (s : jstring) : bool :=
  existsb (fun x => strict_eq_string (Some x) s) arr.

(** [names.includes(x)] for a parsed JSON value [x] *)
Definition included_in (names : list jstring) (x : json) : bool :=
  match x with
  | JStr t => includes names t
  | _ => false
  end.

End Json.
Import Json.

(** ** Reading a string literal back

    The inverse of [quote_char], as [JSON.parse] reads one character of a
    string literal; it shows that a serialisation has one reading only. *)
Module JsonReader.

Definition hex_value (c : ascii) : N :=
  if between 48 57 c then (code c - 48)%N else (code c - 87)%N.

Definition unquote_char (s : jstring) : option (ascii * jstring) :=
  match s with
  | [] => None
  | c :: r =>
      if char_eqb c DQUOTE then None
      else if char_eqb c BACKSLASH then
        match r with
        | [] => None
        | e :: r' =>
            if char_eqb e "u"%char then
              match r' with
              | _ :: _ :: h :: l :: r'' =>
                  Some (ascii_of_N (16 * hex_value h + hex_value l), r'')
              | _ => None
              end
            else if char_eqb e "b"%char then Some (ascii_of_N 8, r')
            else if char_eqb e "f"%char then Some (ascii_of_N 12, r')
            else if char_eqb e "n"%char then Some (ascii_of_N 10, r')
            else if char_eqb e "r"%char then Some (ascii_of_N 13, r')
            else if char_eqb e "t"%char then Some (ascii_of_N 9, r')
            else Some (e, r')
        end
      else Some (c, r)
  end.

End JsonReader.
Import JsonReader.

(** ** Configuration: [CONFIG] *)
Module Config.

Definition repo : jstring := str "michaelstingl/cnrz-ctt".

(** Fields that exist only locally and should never be overwritten by pull *)
Definition localOnlyFields : list jstring :=
  [str "hub_projekt"; str "typ"; str "technologie_steckbrief";
   str "related_issues"; str "body_file"].

(** GitHub fields to sync *)
Definition githubFields : list jstring :=
  [str "issue_number"; str "repo"; str "title"; str "state"; str "labels";
   str "assignees"; str "milestone"; str "created"; str "updated"].

End Config.

(** ** The issues directory

    All files of the script live in [CONFIG.issuesDir]; a file is named by
    its base name, and the directory lists the names in the order
    [readdirSync] returns them. *)
Module Store.

(** The text of a file, as the script reads it: [Meta v] is a file that
    [JSON.parse] reads as [v] (after [writeJson] its bytes are those of
    [file_text]); [Text s] is any other file, with the text [s]. *)
Inductive content : Type :=
  | Meta (v : json)
  | Text (s : jstring).

Definition file_text (c : content) : jstring :=
  match c with
  | Meta v => JSON_stringify_2 v ++ [NEWLINE]
  | Text s => s
  end.

Definition directory := list (jstring * content).

Fixpoint lookup_file (d : directory) (name : jstring) : option content :=
  match d with
  | [] => None
  | (f, c) :: rest => if jstring_eqb name f then Some c else lookup_file rest name
  end.

(** [writeFileSync]: the whole file is overwritten; a new file enters the
    directory after the files that are there. *)
Fixpoint write_file (d : directory) (name : jstring) (c : content) : directory :=
  match d with
  | [] => [(name, c)]
  | (f, c') :: rest =>
      if jstring_eqb name f then (f, c) :: rest else (f, c') :: write_file rest name c
  end.

Definition readdirSync (d : directory) : list jstring := map fst d.

Definition existsSync (d : directory) (name : jstring) : bool :=
  match lookup_file d name with
  | Some _ => true
  | None => false
  end.

Record issue_files : Type := {
  json_path : jstring;
  md_path : jstring;
  slug : jstring
}.

Definition is_digit (c : ascii) : bool := between 48 57 c.

(** [new RegExp(`^${issueNumber}-.*\\.json$`).test(f)]: after the number and
    the hyphen the rest of the name is free of line terminators and ends in
    [.json]. *)
Definition issue_pattern (issueNumber : N) (f : jstring) : bool :=
  let prefix := decimal issueNumber ++ [HYPHEN] in
  let rest := drop (length prefix) f in
  startsWith prefix f && endsWith rest (str ".json") && forallb dot rest.

(** [.replace(/^\d+-/, '')]: the leading digits with the hyphen after them. *)
Definition strip_number (f : jstring) : jstring :=
  match take_while is_digit f, drop_while is_digit f with
  | _ :: _, c :: rest => if char_eqb c HYPHEN then rest else f
  | _, _ => f
  end.

Definition findIssueFiles (d : directory) (issueNumber : N) : option issue_files :=
  match find (issue_pattern issueNumber) (readdirSync d) with
  | None => None
  | Some jsonFile =>
      Some {| json_path := jsonFile;
              md_path := replace_first (str ".json") (str ".md") jsonFile;
              slug := replace_first (str ".json") [] (strip_number jsonFile) |}
  end.

(** [parseInt(digits, 10)] on a run of decimal digits: the value of the
    digits, which is what [parseInt] returns up to [MAX_SAFE_INTEGER] (beyond
    it [parseInt] rounds to a double). *)
Definition parse_digits (ds : jstring) : N :=
  fold_left (fun acc c => (10 * acc + (code c - 48))%N) ds 0%N.

(** [file.match(/^(\d+)-.*\.json$/)] and [parseInt] of its group *)
Definition issue_number_of (f : jstring) : option N :=
  match take_while is_digit f, drop_while is_digit f with
  | (_ :: _) as ds, c :: rest =>
      if char_eqb c HYPHEN && endsWith rest (str ".json") && forallb dot rest
      then Some (parse_digits ds)
      else None
  | _, _ => None
  end.

(** [numbers.add]: a [Set] keeps the first insertion of a value. *)
Fixpoint set_add_all (seen : list N) (files : list jstring) : list N :=
  match files with
  | [] => seen
  | f :: rest =>
      match issue_number_of f with
      | Some n =>
          if existsb (N.eqb n) seen then set_add_all seen rest
          else set_add_all (seen ++ [n]) rest
      | None => set_add_all seen rest
      end
  end.

Definition findAllIssueNumbers (d : directory) : list N :=
  sort_by N.leb (set_add_all [] (readdirSync d)).

(** [writeMd]: ensure content ends with newline *)
Definition normalized (content : jstring) : jstring :=
  if endsWith content [NEWLINE] then content else content ++ [NEWLINE].

End Store.
Import Store.

(** ** The remote tracker behind the [gh] command line *)
Module Remote.

Record gh_label : Type := { name : jstring }.
Record gh_user : Type := { login : jstring }.
Record gh_milestone : Type := { milestone_title : jstring }.

(** The snapshot [gh issue view --json ...] prints; [body] and [milestone]
    may be [null]. *)
Record gh_issue : Type := {
  number : Z;
  title : jstring;
  state : jstring;
  labels : list gh_label;
  assignees : list gh_user;
  milestone : option gh_milestone;
  body : option jstring;
  createdAt : jstring;
  updatedAt : jstring
}.

(** The commands the script hands to the shell.  [IssueView] stands for the
    three [gh issue view] lines, which differ in the fields they select;
    [IssueEdit] carries the title and the body file when their flag is on the
    line.  A command stands for its line as the shell reads it when the
    title, the labels and the file name on it are plain text for the shell
    (the script escapes the double quote of a title and nothing else). *)
Inductive gh_command : Type :=
  | IssueView (issueNumber : N)
  | IssueEdit (issueNumber : N) (title : option jstring) (bodyFile : option jstring)
  | IssueAddLabel (issueNumber : N) (joined : jstring)
  | IssueRemoveLabel (issueNumber : N) (label : jstring).

Inductive gh_output : Type :=
  | Snapshot (i : gh_issue)
  | NoOutput.

(** The external program: what a command prints, or [None] when it fails. *)
Definition tracker := gh_command -> option gh_output.

End Remote.
Import Remote.

(** ** The process: files, standard streams, spawned commands, exit code *)
Module Process.

Inductive js_error : Type :=
  | TypeError
  | SyntaxError
  | ENOENT (path : jstring).

(** One entry of [metaDiffs] *)
Inductive meta_diff : Type :=
  | TitleDiff (local : option json) (github : jstring)
  | StateDiff (local : option json) (github : jstring)
  | LabelsDiff (added : list json) (removed : list jstring).

Record status_report : Type := {
  titleMatch : bool;
  labelsMatch : bool;
  stateMatch : bool
}.

Definition inSync (r : status_report) : bool :=
  titleMatch r && labelsMatch r && stateMatch r.

(** The lines of [console.log], by what they tell; their layout and the
    blank lines between them are left out. *)
Inductive out_line : Type :=
  | OutPulling (issueNumber : N)
  | OutCreatingNewFiles (issueNumber : N) (slug : jstring)
  | OutUpdated (file : jstring)
  | OutLabels (labels : list json)
  | OutPushing (issueNumber : N)
  | OutUpdatedTitle (title : option json)
  | OutUpdatedBody (file : jstring)
  | OutSyncedLabels (labels : list json)
  | OutDiffFor (issueNumber : N)
  | OutInSync
  | OutMetadata (d : meta_diff)
  | OutBody (localBody ghBody : jstring)
  | OutStatusFor
  | OutNoLocalIssues
  | OutNotFound (issueNumber : N) (title : option json)
  | OutStatus (issueNumber : N) (title : option json) (r : status_report)
      (localLabels : list json)
  | OutUsage.

(** The lines of [console.error], and the report of an uncaught exception;
    [ErrCommandFailed] stands for the two lines of [exec], the command and
    the message of its error. *)
Inductive err_line : Type :=
  | ErrCommandFailed (c : gh_command)
  | ErrNoLocalFiles (issueNumber : N)
  | ErrUsage
  | ErrUnknownCommand
  | ErrUncaught (e : js_error).

Inductive event : Type :=
  | Out (l : out_line)
  | Err (l : err_line)
  | Spawn (c : gh_command).

Record world : Type := {
  dir : directory;
  trace : list event
}.

(** How a piece of the script ends: it returns, it calls [process.exit], or
    it throws. *)
Inductive outcome (A : Type) : Type :=
  | Done (a : A)
  | Exit (code : Z)
  | Throw (e : js_error).
Arguments Done {A} a.
Arguments Exit {A} code.
Arguments Throw {A} e.

Definition M (A : Type) : Type := world -> outcome A * world.

Definition ret {A : Type} (a : A) : M A := fun w => (Done a, w).

Definition bind {A B : Type} (m : M A) (k : A -> M B) : M B :=
  fun w =>
    match m w with
    | (Done a, w') => k a w'
    | (Exit code, w') => (Exit code, w')
    | (Throw e, w') => (Throw e, w')
    end.

Definition emit (e : event) : M unit :=
  fun w => (Done tt, {| dir := dir w; trace := trace w ++ [e] |}).

Definition console_log (l : out_line) : M unit := emit (Out l).
Definition console_error (l : err_line) : M unit := emit (Err l).

Definition process_exit {A : Type} (code : Z) : M A := fun w => (Exit code, w).
Definition throw {A : Type} (e : js_error) : M A := fun w => (Throw e, w).

(** A read that throws [TypeError] on [null] *)
Definition or_type_error {A : Type} (o : option A) : M A :=
  match o with
  | Some a => ret a
  | None => throw TypeError
  end.

Definition get_dir : M directory := fun w => (Done (dir w), w).

Definition set_dir (d : directory) : M unit :=
  fun w => (Done tt, {| dir := d; trace := trace w |}).

(** The exit code of the process once [m], the whole run, is over: an
    uncaught exception is reported on standard error and gives 1. *)
Definition run (m : M unit) (w : world) : Z * world :=
  match m w with
  | (Done _, w') => (0%Z, w')
  | (Exit code, w') => (code, w')
  | (Throw e, w') =>
      (1%Z, {| dir := dir w'; trace := trace w' ++ [Err (ErrUncaught e)] |})
  end.

(** A piece of the script only ever adds to the trace. *)
Definition appends {A : Type} (m : M A) : Prop :=
  forall w, exists tr, trace (snd (m w)) = trace w ++ tr.

End Process.
Import Process.

Declare Scope js_scope.
Delimit Scope js_scope with js.
Notation "x <- m ;; k" := (bind m (fun x => k))
  (at level 20, m at level 99, k at level 200, only parsing) : js_scope.
Notation "m ;; k" := (bind m (fun _ => k))
  (at level 100, k at level 200, only parsing, right associativity) : js_scope.
Local Open Scope js_scope.

(** ** Utility functions, file discovery and the remote client *)
Module Script.

(** [exec]: a failing command is fatal. *)
Definition exec (gh : tracker) (cmd : gh_command) : M gh_output :=
  emit (Spawn cmd) ;;
  match gh cmd with
  | Some output => ret output
  | None => console_error (ErrCommandFailed cmd) ;; process_exit 1
  end.

(** [execSafe]: a failing command is reported to the caller. *)
Definition execSafe (gh : tracker) (cmd : gh_command) : M (option gh_output) :=
  emit (Spawn cmd) ;; ret (gh cmd).

(** [JSON.parse] of what [gh issue view] printed *)
Definition parse_snapshot (output : gh_output) : M gh_issue :=
  match output with
  | Snapshot i => ret i
  | NoOutput => throw SyntaxError
  end.

Definition readJson (filePath : jstring) : M json :=
  d <- get_dir ;;
  match lookup_file d filePath with
  | Some (Meta v) => ret v
  | Some (Text _) => throw SyntaxError
  | None => throw (ENOENT filePath)
  end.

Definition writeJson (filePath : jstring) (data : json) : M unit :=
  d <- get_dir ;; set_dir (write_file d filePath (Meta data)).

Definition readMd (filePath : jstring) : M jstring :=
  d <- get_dir ;;
  match lookup_file d filePath with
  | Some c => ret (file_text c)
  | None => throw (ENOENT filePath)
  end.

Definition writeMd (filePath : jstring) (content : jstring) : M unit :=
  d <- get_dir ;; set_dir (write_file d filePath (Text (normalized content))).

Definition fetchIssue (gh : tracker) (issueNumber : N) : M gh_issue :=
  result <- exec gh (IssueView issueNumber) ;;
  parse_snapshot result.

(** [targetLabels.filter(l => !currentLabels.includes(l))] *)
Definition toAdd (targetLabels : list json) (currentLabels : list jstring) : list json :=
  List.filter (fun l => negb (included_in currentLabels l)) targetLabels.

(** [currentLabels.filter(l => !targetLabels.includes(l))] *)
Definition toRemove (targetLabels : list json) (currentLabels : list jstring)
  : list jstring :=
  List.filter (fun l => negb (includes_string targetLabels l)) currentLabels.

(** The [for] loop over [toRemove] *)
Fixpoint remove_each (gh : tracker) (issueNumber : N) (labels : list jstring) : M unit :=
  match labels with
  | [] => ret tt
  | label :: rest =>
      execSafe gh (IssueRemoveLabel issueNumber label) ;;
      remove_each gh issueNumber rest
  end.

(** A value with the array methods [filter], [sort] and [join]; on anything
    else the method call throws. *)
Definition as_array (v : json) : M (list json) :=
  match v with
  | JArr items => ret items
  | _ => throw TypeError
  end.

Definition syncLabels (gh : tracker) (issueNumber : N) (targetLabels : json) : M unit :=
  result <- exec gh (IssueView issueNumber) ;;
  current <- parse_snapshot result ;;
  let currentLabels := map name (labels current) in
  target <- as_array targetLabels ;;
  let toAdd := toAdd target currentLabels in
  let toRemove := toRemove target currentLabels in
  (match toAdd with
   | [] => ret tt
   | _ :: _ =>
       execSafe gh (IssueAddLabel issueNumber (array_join [COMMA] toAdd)) ;; ret tt
   end) ;;
  remove_each gh issueNumber toRemove.

(** [title.replace(...)] under [if (title)]: a value that is not a string
    has no [replace]. *)
Definition title_flag (title : option json) : M (option jstring) :=
  match title with
  | None => ret None
  | Some v =>
      if truthy v then
        match v with
        | JStr s => ret (Some s)
        | _ => throw TypeError
        end
      else ret None
  end.

Definition updateIssue (gh : tracker) (issueNumber : N)
  (title : option json) (bodyFile : jstring) (labels : json) : M unit :=
  titleFlag <- title_flag title ;;
  d <- get_dir ;;
  let bodyFlag := if existsSync d bodyFile then Some bodyFile else None in
  exec gh (IssueEdit issueNumber titleFlag bodyFlag) ;;
  (if truthy labels then syncLabels gh issueNumber labels else ret tt).

End Script.
Import Script.

(** ** Commands *)
Module Commands.

(** [CONFIG.localOnlyFields.filter(f => localJson[f] !== undefined)
      .map(f => [f, localJson[f]])] *)
Fixpoint preserved (localJson : json) (fields : list jstring)
  : option (list (jstring * json)) :=
  match fields with
  | [] => Some []
  | f :: rest =>
      match prop localJson f with
      | None => None
      | Some here =>
          match preserved localJson rest with
          | None => None
          | Some kept =>
              match here with
              | Some v => Some ((f, v) :: kept)
              | None => Some kept
              end
          end
      end
  end.

(** What [preserved] keeps of an object apart from [body_file]: the other
    local-only fields that are present, in the order of the configuration *)
Definition carried (props : list (jstring * json)) : list (jstring * json) :=
  flat_map (fun f => match obj_get props f with
                     | Some v => [(f, v)]
                     | None => []
                     end)
    [str "hub_projekt"; str "typ"; str "technologie_steckbrief"; str "related_issues"].

(** [ghIssue.milestone?.title || null] *)
Definition milestone_or_null (m : option gh_milestone) : json :=
  match m with
  | Some ms => or_else (Some (JStr (milestone_title ms))) JNull
  | None => JNull
  end.

(** [`${issueNumber}-${slug}.md`] and its [.json] companion *)
Definition file_name (issueNumber : N) (slug ext : jstring) : jstring :=
  decimal issueNumber ++ [HYPHEN] ++ slug ++ ext.

(** The properties of [merged] that come before the spread *)
Definition remote_fields (ghIssue : gh_issue) : list (jstring * json) :=
  [ (str "issue_number", JNum (number ghIssue));
    (str "repo", JStr Config.repo);
    (str "title", JStr (title ghIssue));
    (str "state", JStr (toLowerCase (state ghIssue)));
    (str "labels", JArr (map (fun l => JStr (name l)) (labels ghIssue)));
    (str "assignees", JArr (map (fun a => JStr (login a)) (assignees ghIssue)));
    (str "milestone", milestone_or_null (milestone ghIssue)) ].

(** The properties of [merged] that come after the spread *)
Definition closing_fields (issueNumber : N) (files : issue_files) (ghIssue : gh_issue)
  (body_file : option json) : list (jstring * json) :=
  [ (str "body_file",
      or_else body_file (JStr (file_name issueNumber (slug files) (str ".md"))));
    (str "created", JStr (split_head "T"%char (createdAt ghIssue)));
    (str "updated", JStr (split_head "T"%char (updatedAt ghIssue))) ].

(** The object [merged] of [pull]; [None] when a property read throws. *)
Definition merged (issueNumber : N) (files : issue_files) (ghIssue : gh_issue)
  (localJson : json) : option json :=
  match preserved localJson Config.localOnlyFields, prop localJson (str "body_file") with
  | Some kept, Some body_file =>
      Some (JObj (object_literal (
        remote_fields ghIssue ++ kept
        ++ closing_fields issueNumber files ghIssue body_file)))
  | _, _ => None
  end.

(** [ghIssue.body || ''] *)
Definition body_or_empty (b : option jstring) : jstring :=
  match b with
  | Some s => s
  | None => []
  end.

Definition labels_of (v : json) : list json :=
  match v with
  | JObj props => match obj_get props (str "labels") with
                  | Some (JArr items) => items
                  | _ => []
                  end
  | _ => []
  end.

(** The [files] of a record that [pull] creates *)
Definition new_files (issueNumber : N) (slug : jstring) : issue_files :=
  {| json_path := file_name issueNumber slug (str ".json");
     md_path := file_name issueNumber slug (str ".md");
     slug := slug |}.

Definition pull (gh : tracker) (issueNumber : N) : M unit :=
  console_log (OutPulling issueNumber) ;;
  ghIssue <- fetchIssue gh issueNumber ;;
  d <- get_dir ;;
  files <- match findIssueFiles d issueNumber with
           | Some files => ret files
           | None =>
               let slug := slugify (title ghIssue) in
               console_log (OutCreatingNewFiles issueNumber slug) ;;
               ret (new_files issueNumber slug)
           end ;;
  localJson <- (if existsSync d (json_path files)
                then readJson (json_path files)
                else ret (JObj [])) ;;
  merged <- or_type_error (merged issueNumber files ghIssue localJson) ;;
  writeJson (json_path files) merged ;;
  writeMd (md_path files) (body_or_empty (body ghIssue)) ;;
  console_log (OutUpdated (json_path files)) ;;
  console_log (OutUpdated (md_path files)) ;;
  console_log (OutLabels (labels_of merged)).

Definition push (gh : tracker) (issueNumber : N) : M unit :=
  console_log (OutPushing issueNumber) ;;
  d <- get_dir ;;
  files <- match findIssueFiles d issueNumber with
           | Some files => ret files
           | None => console_error (ErrNoLocalFiles issueNumber) ;; process_exit 1
           end ;;
  localJson <- readJson (json_path files) ;;
  title <- or_type_error (prop localJson (str "title")) ;;
  labels <- or_type_error (prop localJson (str "labels")) ;;
  updateIssue gh issueNumber title (md_path files) (or_else labels (JArr [])) ;;
  console_log (OutUpdatedTitle title) ;;
  console_log (OutUpdatedBody (md_path files)) ;;
  shown <- as_array (or_else labels (JArr [])) ;;
  console_log (OutSyncedLabels shown).

(** The entries of [metaDiffs], in the order they are pushed *)
Definition metaDiffs (title state : option json) (localLabels : list json)
  (ghIssue : gh_issue) : list meta_diff :=
  let ghState := toLowerCase (Remote.state ghIssue) in
  let ghLabels := sort_strings (map name (labels ghIssue)) in
  let labelsAdded := List.filter (fun l => negb (included_in ghLabels l)) localLabels in
  let labelsRemoved :=
    List.filter (fun l => negb (includes_string localLabels l)) ghLabels in
  (if strict_eq_string title (Remote.title ghIssue) then []
   else [TitleDiff title (Remote.title ghIssue)])
  ++ (if strict_eq_string state ghState then [] else [StateDiff state ghState])
  ++ (match labelsAdded, labelsRemoved with
      | [], [] => []
      | _, _ => [LabelsDiff labelsAdded labelsRemoved]
      end).

Fixpoint log_each (lines : list out_line) : M unit :=
  match lines with
  | [] => ret tt
  | l :: rest => console_log l ;; log_each rest
  end.

Definition diff (gh : tracker) (issueNumber : N) : M unit :=
  console_log (OutDiffFor issueNumber) ;;
  d <- get_dir ;;
  files <- match findIssueFiles d issueNumber with
           | Some files => ret files
           | None => console_error (ErrNoLocalFiles issueNumber) ;; process_exit 1
           end ;;
  localJson <- readJson (json_path files) ;;
  localMd <- readMd (md_path files) ;;
  ghIssue <- fetchIssue gh issueNumber ;;
  title <- or_type_error (prop localJson (str "title")) ;;
  state <- or_type_error (prop localJson (str "state")) ;;
  labels <- or_type_error (prop localJson (str "labels")) ;;
  unsorted <- as_array (or_else labels (JArr [])) ;;
  let localLabels := sort_values unsorted in
  let metaDiffs := metaDiffs title state localLabels ghIssue in
  let localBody := trim localMd in
  let ghBody := trim (body_or_empty (body ghIssue)) in
  let bodyDiffers := negb (jstring_eqb localBody ghBody) in
  match metaDiffs, bodyDiffers with
  | [], false => console_log OutInSync
  | _, _ =>
      log_each (map OutMetadata metaDiffs) ;;
      (if bodyDiffers then console_log (OutBody localBody ghBody) else ret tt)
  end.

(** Lines 402-410 of [status]: the three comparisons *)
Definition status_check (title state : option json) (localLabels : list json)
  (ghIssue : gh_issue) : status_report :=
  let ghLabels := sort_strings (map name (labels ghIssue)) in
  {| titleMatch := strict_eq_string title (Remote.title ghIssue);
     labelsMatch := jstring_eqb (JSON_stringify (JArr localLabels))
                                (JSON_stringify (JArr (map JStr ghLabels)));
     stateMatch := strict_eq_string state (toLowerCase (Remote.state ghIssue)) |}.

(** One turn of the loop of [status] *)
Definition status_issue (gh : tracker) (num : N) : M unit :=
  d <- get_dir ;;
  files <- or_type_error (findIssueFiles d num) ;;
  localJson <- readJson (json_path files) ;;
  result <- execSafe gh (IssueView num) ;;
  match result with
  | None =>
      title <- or_type_error (prop localJson (str "title")) ;;
      console_log (OutNotFound num title)
  | Some output =>
      ghIssue <- parse_snapshot output ;;
      labels <- or_type_error (prop localJson (str "labels")) ;;
      unsorted <- as_array (or_else labels (JArr [])) ;;
      let localLabels := sort_values unsorted in
      title <- or_type_error (prop localJson (str "title")) ;;
      state <- or_type_error (prop localJson (str "state")) ;;
      console_log (OutStatus num title (status_check title state localLabels ghIssue)
                     localLabels)
  end.

Fixpoint for_each (f : N -> M unit) (nums : list N) : M unit :=
  match nums with
  | [] => ret tt
  | num :: rest => f num ;; for_each f rest
  end.

Definition status (gh : tracker) : M unit :=
  console_log OutStatusFor ;;
  d <- get_dir ;;
  match findAllIssueNumbers d with
  | [] => console_log OutNoLocalIssues
  | issueNumbers => for_each (status_issue gh) issueNumbers
  end.

(** The command line after [parseInt]: [pull] and [push] take [--all], an
    issue number, or nothing. *)
Inductive argument : Type :=
  | NoArgument
  | All
  | Number (issueNumber : N).

(** [create] is left out: it reads the clock and no remote issue. *)
Inductive invocation : Type :=
  | NoCommand
  | Help
  | Pull (arg : argument)
  | Push (arg : argument)
  | Diff (arg : option N)
  | Status
  | Unknown.

(** The [switch] at the end of the script *)
Definition main (gh : tracker) (i : invocation) : M unit :=
  match i with
  | NoCommand => console_log OutUsage ;; process_exit 0
  | Help => console_log OutUsage
  | Pull All => d <- get_dir ;; for_each (pull gh) (findAllIssueNumbers d)
  | Pull (Number n) => pull gh n
  | Pull NoArgument => console_error ErrUsage ;; process_exit 1
  | Push All => d <- get_dir ;; for_each (push gh) (findAllIssueNumbers d)
  | Push (Number n) => push gh n
  | Push NoArgument => console_error ErrUsage ;; process_exit 1
  | Diff (Some n) => diff gh n
  | Diff None => console_error ErrUsage ;; process_exit 1
  | Status => status gh
  | Unknown => console_error ErrUnknownCommand ;; console_log OutUsage ;; process_exit 1
  end.

End Commands.
Import Commands.

(** ** The line diff of [diff]: [showLineDiff] *)
Module LineDiff.

(** [s.split('\n')]: the empty string gives one empty line. *)
Fixpoint split_lines (s : jstring) : list jstring :=
  match s with
  | [] => [[]]
  | c :: r =>
      if char_eqb c NEWLINE then [] :: split_lines r
      else match split_lines r with
           | l :: ls => (c :: l) :: ls
           | [] => [[c]]
           end
  end.

(** The lines [showLineDiff] prints, by what they tell: a line of context,
    a line of the remote body, a line of the local body, a blank line.  The
    line numbers are the numbers printed; padding and colours are left
    out. *)
Inductive diff_line : Type :=
  | Context (lineNumber : nat) (text : jstring)
  | Removed (lineNumber : nat) (text : jstring)
  | Added (lineNumber : nat) (text : jstring)
  | Blank.

(** [s.substring(0, 70)] *)
Definition substring_0_70 (s : jstring) : jstring := take 70 s.

(** [lines[i] || '']: the empty string is the only falsy string. *)
Definition line_or_empty (lines : list jstring) (i : nat) : jstring :=
  match lines !! i with
  | Some l => l
  | None => []
  end.

(** ToBoolean of a string *)
Definition nonempty (s : jstring) : bool :=
  match s with
  | [] => false
  | _ :: _ => true
  end.

(** [!lines[i]] *)
Definition no_line (lines : list jstring) (i : nat) : bool :=
  match lines !! i with
  | Some l => negb (nonempty l)
  | None => true
  end.

(** [lines[i-1]?.substring(0, 70) || ''] for [i > 0], where [j] is [i-1] *)
Definition context_before (lines : list jstring) (j : nat) : jstring :=
  match lines !! j with
  | Some l => substring_0_70 l
  | None => []
  end.

(** The [for] loop from the index [i] on, with [steps] turns to go. *)
Fixpoint line_diff_loop (localLines remoteLines : list jstring)
  (steps i : nat) (inDiff : bool) : list diff_line :=
  match steps with
  | O => []
  | S steps' =>
      let localLine := line_or_empty localLines i in
      let remoteLine := line_or_empty remoteLines i in
      if negb (jstring_eqb localLine remoteLine) then
        (if inDiff then []
         else match i with
              | O => []
              | S j => [Context i (context_before localLines j)]
              end)
        ++ (if nonempty remoteLine
               && (no_line localLines i || negb (jstring_eqb localLine remoteLine))
            then [Removed (S i) (substring_0_70 remoteLine)] else [])
        ++ (if nonempty localLine
               && (no_line remoteLines i || negb (jstring_eqb localLine remoteLine))
            then [Added (S i) (substring_0_70 localLine)] else [])
        ++ line_diff_loop localLines remoteLines steps' (S i) true
      else if inDiff then
        Context (S i) (substring_0_70 localLine) :: Blank
          :: line_diff_loop localLines remoteLines steps' (S i) false
      else line_diff_loop localLines remoteLines steps' (S i) false
  end.

Definition showLineDiff (local remote : jstring) : list diff_line :=
  let localLines := split_lines local in
  let remoteLines := split_lines remote in
  let maxLines := Nat.max (length localLines) (length remoteLines) in
  line_diff_loop localLines remoteLines maxLines 0 false.

Definition text_of (l : diff_line) : jstring :=
  match l with
  | Context _ t => t
  | Removed _ t => t
  | Added _ t => t
  | Blank => []
  end.

End LineDiff.
Import LineDiff.

(** ** The head of [create]: the number of the new record

    The template that [create] writes afterwards is left out: its title
    takes [toUpperCase], which leaves the code units of the model, and its
    dates read the clock. *)
Module Create.

(** [existing.length > 0 ? Math.max(...existing) + 1 : 1]; the sum is exact
    while the numbers are at most [MAX_SAFE_INTEGER]. *)
Definition nextNumber (existing : list N) : N :=
  match existing with
  | [] => 1%N
  | _ :: _ => (fold_right N.max 0 existing + 1)%N
  end.

(** A character that [join] reads as a path separator *)
Definition is_separator (c : ascii) : bool :=
  char_eqb c "/"%char || char_eqb c BACKSLASH.

(** A slug that names a file of the issues directory itself: one line, no
    path separator *)
Definition plain_slug (slug : jstring) : bool :=
  forallb (fun c => dot c && negb (is_separator c)) slug.

(** [jsonFile]: the metadata file of the new record, by its base name; for
    a slug without a path separator it lies in the issues directory. *)
Definition jsonFile (d : directory) (slug : jstring) : jstring :=
  file_name (nextNumber (findAllIssueNumbers d)) slug (str ".json").

(** The test [existsSync(jsonFile)], which ends [create] with exit code 1 *)
Definition already_exists (d : directory) (slug : jstring) : bool :=
  existsSync d (jsonFile d slug).

End Create.
Import Create.

(** ** What a piece of the script leaves alone *)
Module Effects.

(** A command line that changes the remote issue *)
Definition is_update (c : gh_command) : bool :=
  match c with
  | IssueView _ => false
  | _ => true
  end.

Definition changes_remote (e : event) : bool :=
  match e with
  | Spawn c => is_update c
  | _ => false
  end.

(** Whatever world a piece of the script starts in, the world it ends in
    stands in the relation [R] to it, however the piece ends. *)
Definition respects {A : Type} (R : world -> world -> Prop) (m : M A) : Prop :=
  forall w, R w (snd (m w)).


(** The trace grows, and by no command that changes the remote issue. *)
Definition no_update (w w' : world) : Prop :=
  exists tr,
    trace w' = trace w ++ tr /\ Forall (fun e => changes_remote e = false) tr.

(** What makes [R] hold across a piece of the script that emits events
    [ok] only: [R] is a preorder that every such event respects, and the
    lines of the standard streams and the fetch are such events. *)
Record frame_rules (R : world -> world -> Prop) (ok : event -> Prop) : Prop := {
  rule_refl : forall w, R w w;
  rule_trans : forall a b c, R a b -> R b c -> R a c;
  rule_emit : forall e w, ok e -> R w {| dir := dir w; trace := trace w ++ [e] |};
  rule_out : forall l, ok (Out l);
  rule_err : forall l, ok (Err l);
  rule_view : forall n, ok (Spawn (IssueView n))
}.

(** Strictly ascending *)
Definition ascending (l : list N) : Prop := StronglySorted N.lt l.

End Effects.
Import Effects.

(** ** Sample data for the worked examples *)
Module Sample.

Definition kafka_title : jstring := str "[CTT] [Migration] Kafka".

(** A title whose bracketed group runs over a line break *)
Definition two_line_title : jstring :=
  LBRACKET :: "a"%char :: NEWLINE :: str "b]c".

(** The title "Über", with its capital U with diaeresis U+00DC *)
Definition umlaut_title : jstring := ascii_of_N 220 :: str "ber".

Definition bug : jstring := str "bug".

(** An open issue with the label [bug] *)
Definition issue (title : jstring) (state : jstring) : gh_issue :=
  {| number := 5;
     title := title;
     state := state;
     labels := [ {| name := bug |} ];
     assignees := [];
     milestone := None;
     body := Some (str "Text");
     createdAt := str "2024-01-02T03:04:05Z";
     updatedAt := str "2024-02-03T04:05:06Z" |}.

(** A tracker that knows one issue and accepts every edit *)
Definition tracker_of (i : gh_issue) : tracker :=
  fun c =>
    match c with
    | IssueView _ => Some (Snapshot i)
    | _ => Some NoOutput
    end.

Definition empty_world : world := {| dir := []; trace := [] |}.

(** The issues directory with one file *)
Definition world_with (name : jstring) (c : content) : world :=
  {| dir := [(name, c)]; trace := [] |}.

(** A local record of the documented layout *)
Definition record (title state : jstring) (labels : list jstring)
  (extra : list (jstring * json)) : json :=
  JObj ([ (str "title", JStr title);
          (str "state", JStr state);
          (str "labels", JArr (map JStr labels)) ] ++ extra).

End Sample.
Import Sample.

(** * Properties *)

(** ** Characters *)
Section Characters.

Lemma code_inj (a b : ascii) : code a = code b -> a = b.
Proof.
  unfold code. intros H.
  rewrite <- (ascii_N_embedding a), <- (ascii_N_embedding b). now rewrite H.
Qed.

Lemma char_eqb_eq (a b : ascii) : char_eqb a b = true <-> a = b.
Proof.
  unfold char_eqb. rewrite N.eqb_eq. split; [apply code_inj | now intros ->].
Qed.

Lemma char_eqb_refl (a : ascii) : char_eqb a a = true.
Proof. now apply char_eqb_eq. Qed.

Lemma char_eqb_neq (a b : ascii) : char_eqb a b = false <-> a <> b.
Proof.
  rewrite <- char_eqb_eq. destruct (char_eqb a b); split; congruence.
Qed.

Lemma jstring_eqb_eq (a b : jstring) : jstring_eqb a b = true <-> a = b.
Proof.
  revert b. induction a as [|x a IH]; intros [|y b]; simpl; split; try congruence.
  - rewrite andb_true_iff, char_eqb_eq, IH. now intros [-> ->].
  - intros [= -> ->]. rewrite char_eqb_refl. now apply IH.
Qed.

Lemma jstring_eqb_refl (a : jstring) : jstring_eqb a a = true.
Proof. now apply jstring_eqb_eq. Qed.

Lemma jstring_eqb_neq (a b : jstring) : jstring_eqb a b = false <-> a <> b.
Proof.
  rewrite <- jstring_eqb_eq. destruct (jstring_eqb a b); split; congruence.
Qed.

End Characters.

(** Settles a closed fact about one character by trying all 256. *)
Ltac all_chars c :=
  destruct c as [[] [] [] [] [] [] [] []]; vm_compute; try reflexivity; try congruence.

Section LowerCase.

Lemma lower_char_lbracket (c : ascii) :
  char_eqb (lower_char c) LBRACKET = char_eqb c LBRACKET.
Proof. all_chars c. Qed.

Lemma lower_char_rbracket (c : ascii) :
  char_eqb (lower_char c) RBRACKET = char_eqb c RBRACKET.
Proof. all_chars c. Qed.

Lemma lower_char_dot (c : ascii) : dot (lower_char c) = dot c.
Proof. all_chars c. Qed.

Lemma lower_char_trim (c : ascii) : is_trim_char (lower_char c) = is_trim_char c.
Proof. all_chars c. Qed.

Lemma lower_char_alphanumeric (c : ascii) :
  is_az09 (lower_char c) = is_ascii_alphanumeric (lower_char c).
Proof. all_chars c. Qed.

End LowerCase.

(** ** The shape of a slug *)
Section SlugShape.

Lemma az09_not_hyphen (c : ascii) : is_az09 c = true -> c <> HYPHEN.
Proof. all_chars c. Qed.

Lemma hyphenate_from_chars (s : jstring) : forall b,
  Forall (fun c => is_az09 c = true \/ c = HYPHEN) (hyphenate_from b s).
Proof.
  induction s as [|c s IH]; intros b; simpl; [constructor|].
  destruct (is_az09 c) eqn:Hc.
  - constructor; [now left | apply IH].
  - destruct b; [apply IH | constructor; [now right | apply IH]].
Qed.

(** After [hyphenate] no two hyphens are neighbours; inside a run the next
    character written is no hyphen. *)
Lemma hyphenate_from_apart (s : jstring) : forall b,
  (forall a r, hyphenate_from b s <> a ++ HYPHEN :: HYPHEN :: r) /\
  (b = true -> forall r, hyphenate_from b s <> HYPHEN :: r).
Proof.
  induction s as [|c s IH]; intros b; simpl.
  - split; [intros [|x a] r; discriminate | intros _ r; discriminate].
  - destruct (is_az09 c) eqn:Hc.
    + split.
      * intros [|x a] r; simpl; intros [= E1 E2].
        -- now apply (az09_not_hyphen c).
        -- now apply (proj1 (IH false) a r).
      * intros _ r [= E1 E2]. now apply (az09_not_hyphen c).
    + destruct b.
      * apply IH.
      * split; [|discriminate].
        intros [|x a] r; simpl; intros [= E].
        -- now apply (proj2 (IH true) eq_refl r).
        -- subst x. now apply (proj1 (IH true) a r).
Qed.

Lemma drop_first_hyphen_cases (s : jstring) :
  (drop_first_hyphen s = s /\ forall r, s <> HYPHEN :: r) \/
  s = HYPHEN :: drop_first_hyphen s.
Proof.
  destruct s as [|c s]; simpl.
  - left. split; [reflexivity | discriminate].
  - destruct (char_eqb c HYPHEN) eqn:E.
    + right. apply char_eqb_eq in E. now subst.
    + left. split; [reflexivity|]. intros r [= -> _].
      now rewrite char_eqb_refl in E.
Qed.

Lemma drop_last_hyphen_cases (s : jstring) :
  (drop_last_hyphen s = s /\ forall r, s <> r ++ [HYPHEN]) \/
  s = drop_last_hyphen s ++ [HYPHEN].
Proof.
  unfold drop_last_hyphen.
  destruct (drop_first_hyphen_cases (rev s)) as [[E H]|E].
  - left. rewrite E, rev_involutive. split; [reflexivity|].
    intros r ->. apply (H (rev r)). now rewrite rev_app_distr.
  - right. rewrite <- (rev_involutive s) at 1. rewrite E. reflexivity.
Qed.

Lemma hyphens_apart_tail (c : ascii) (s : jstring) :
  hyphens_apart (c :: s) -> hyphens_apart s.
Proof. intros H a r ->. now apply (H (c :: a) r). Qed.

Lemma hyphens_apart_front (s : jstring) (c : ascii) :
  hyphens_apart (s ++ [c]) -> hyphens_apart s.
Proof.
  intros H a r ->. apply (H a (r ++ [c])).
  now rewrite <- app_assoc.
Qed.

Lemma hyphens_apart_rev (s : jstring) : hyphens_apart s -> hyphens_apart (rev s).
Proof.
  intros H a r E. apply (H (rev r) (rev a)).
  rewrite <- (rev_involutive s), E, rev_app_distr. simpl.
  now rewrite <- !app_assoc.
Qed.

Lemma hyphens_apart_drop_first (s : jstring) :
  hyphens_apart s ->
  hyphens_apart (drop_first_hyphen s) /\ forall r, drop_first_hyphen s <> HYPHEN :: r.
Proof.
  intros H. destruct (drop_first_hyphen_cases s) as [[E Hs]|E].
  - now rewrite E.
  - split.
    + rewrite E in H. now apply hyphens_apart_tail in H.
    + intros r Er. apply (H [] r). simpl. now rewrite E at 1; rewrite Er.
Qed.

Lemma hyphens_apart_drop_last (s : jstring) :
  hyphens_apart s ->
  hyphens_apart (drop_last_hyphen s) /\ forall r, drop_last_hyphen s <> r ++ [HYPHEN].
Proof.
  intros H. destruct (drop_last_hyphen_cases s) as [[E Hs]|E].
  - now rewrite E.
  - split.
    + rewrite E in H. now apply hyphens_apart_front in H.
    + intros r Er. apply (H r []).
      rewrite E at 1. rewrite Er. now rewrite <- app_assoc.
Qed.

Lemma drop_last_hyphen_keeps_head (s : jstring) :
  (forall r, s <> HYPHEN :: r) -> forall r, drop_last_hyphen s <> HYPHEN :: r.
Proof.
  intros H r Er. destruct (drop_last_hyphen_cases s) as [[E _]|E].
  - apply (H r). now rewrite <- E.
  - apply (H (r ++ [HYPHEN])). rewrite E at 1. now rewrite Er.
Qed.

Lemma Forall_drop_first_hyphen (P : ascii -> Prop) (s : jstring) :
  Forall P s -> Forall P (drop_first_hyphen s).
Proof.
  intros H. destruct s as [|c s]; simpl; [constructor|].
  destruct (char_eqb c HYPHEN); [now inversion H | exact H].
Qed.

Lemma Forall_drop_last_hyphen (P : ascii -> Prop) (s : jstring) :
  Forall P s -> Forall P (drop_last_hyphen s).
Proof.
  intros H. unfold drop_last_hyphen.
  apply Forall_rev, Forall_drop_first_hyphen, Forall_rev, H.
Qed.

End SlugShape.

(** ** The script's derivation against the sentence of the specification *)
Section SlugRefinement.

Lemma lazy_dots_then_close_lower (s : jstring) :
  lazy_dots_then_close (toLowerCase s) = lazy_dots_then_close s.
Proof.
  induction s as [|c s IH]; simpl; [reflexivity|].
  fold (toLowerCase s). now rewrite lower_char_rbracket, lower_char_dot, IH.
Qed.

Lemma remove_tags_from_lower (s : jstring) : forall skip,
  remove_tags_from skip (toLowerCase s) = toLowerCase (remove_tags_from skip s).
Proof.
  induction s as [|c s IH]; intros skip; simpl; [reflexivity|].
  fold (toLowerCase s). destruct skip as [|k]; [|apply IH].
  rewrite lower_char_lbracket, lazy_dots_then_close_lower.
  destruct (char_eqb c LBRACKET).
  - destruct (lazy_dots_then_close s); simpl; now rewrite IH.
  - simpl. now rewrite IH.
Qed.

Lemma drop_while_lower (s : jstring) :
  drop_while is_trim_char (map lower_char s) = map lower_char (drop_while is_trim_char s).
Proof.
  induction s as [|c s IH]; simpl; [reflexivity|].
  rewrite lower_char_trim. now destruct (is_trim_char c).
Qed.

Lemma trim_lower (s : jstring) : trim (toLowerCase s) = toLowerCase (trim s).
Proof.
  unfold trim, trimEnd, trimStart, toLowerCase.
  now rewrite drop_while_lower, <- map_rev, drop_while_lower, map_rev.
Qed.

(** The scan of the sentence and the scan of the regular expression agree:
    with a group open, the scan drops it exactly when the lazy match finds
    its bracket. *)
Lemma strip_groups_scan_dot (s : jstring) :
  strip_groups_scan dot [] s = remove_tags_from 0 s /\
  forall p,
    strip_groups_scan dot (rev (LBRACKET :: p)) s =
    match lazy_dots_then_close s with
    | Some k => remove_tags_from k s
    | None => LBRACKET :: p ++ remove_tags_from 0 s
    end.
Proof.
  induction s as [|c s [IH0 IH]].
  - split; [reflexivity|]. intros p.
    cbn [strip_groups_scan lazy_dots_then_close remove_tags_from].
    now rewrite rev_involutive, app_nil_r.
  - split.
    + cbn [strip_groups_scan remove_tags_from].
      destruct (char_eqb c LBRACKET) eqn:E.
      * apply char_eqb_eq in E. subst c. change [LBRACKET] with (rev (LBRACKET :: [])).
        rewrite (IH []).
        now destruct (lazy_dots_then_close s).
      * now rewrite IH0.
    + intros p.
      assert (Hheld : exists x held, rev (LBRACKET :: p) = x :: held).
      { destruct (rev (LBRACKET :: p)) as [|x held] eqn:E; [|now eauto].
        apply (f_equal (@length ascii)) in E. rewrite length_rev in E. discriminate. }
      destruct Hheld as (x & held & Eh).
      cbn [strip_groups_scan lazy_dots_then_close]. rewrite Eh. rewrite <- Eh.
      destruct (char_eqb c RBRACKET) eqn:Ec; [exact IH0|].
      destruct (dot c) eqn:Ed.
      * replace (c :: rev (LBRACKET :: p)) with (rev (LBRACKET :: (p ++ [c])))
          by (simpl; now rewrite rev_app_distr).
        rewrite (IH (p ++ [c])).
        destruct (lazy_dots_then_close s) eqn:El; [reflexivity|].
        rewrite <- app_assoc. simpl. do 2 f_equal.
        destruct (char_eqb c LBRACKET); [now rewrite El | reflexivity].
      * rewrite IH0. simpl rev. rewrite rev_app_distr, rev_involutive. simpl.
        do 2 f_equal.
        destruct (char_eqb c LBRACKET) eqn:E; [|reflexivity].
        apply char_eqb_eq in E. subst c. discriminate.
Qed.

Lemma remove_tags_strip_groups (s : jstring) : remove_tags s = strip_groups dot s.
Proof. symmetry. apply strip_groups_scan_dot. Qed.

Lemma alphanumeric_not_hyphen (c : ascii) :
  is_ascii_alphanumeric c = true -> char_eqb c HYPHEN = false.
Proof. all_chars c. Qed.

Lemma squeeze_hyphens_keep (a : ascii) (r : jstring) :
  char_eqb a HYPHEN = false -> squeeze_hyphens (a :: r) = a :: squeeze_hyphens r.
Proof. intros E. simpl. rewrite E. now destruct r. Qed.

Lemma squeeze_hyphens_pair (r : jstring) :
  squeeze_hyphens (HYPHEN :: HYPHEN :: r) = squeeze_hyphens (HYPHEN :: r).
Proof. reflexivity. Qed.

Lemma squeeze_hyphens_last (b : ascii) (r : jstring) :
  char_eqb b HYPHEN = false ->
  squeeze_hyphens (HYPHEN :: b :: r) = HYPHEN :: squeeze_hyphens (b :: r).
Proof.
  intros E. cbn [squeeze_hyphens]. rewrite E, char_eqb_refl. reflexivity.
Qed.

(** On lower-cased text the two ways to collapse the runs agree. *)
Lemma hyphenate_collapse_runs (s : jstring) :
  Forall (fun c => is_az09 c = is_ascii_alphanumeric c) s ->
  hyphenate s = collapse_runs is_ascii_alphanumeric s.
Proof.
  unfold hyphenate, collapse_runs.
  induction 1 as [|c s Hc Hs IH]; [reflexivity|].
  cbn [map hyphenate_from]. unfold hyphen_unless at 1.
  rewrite Hc. destruct (is_ascii_alphanumeric c) eqn:Ec.
  - rewrite squeeze_hyphens_keep by now apply alphanumeric_not_hyphen.
    now rewrite IH.
  - destruct Hs as [|c2 s2 Hc2 Hs2]; [reflexivity|].
    cbn [map hyphenate_from] in *. unfold hyphen_unless at 1.
    unfold hyphen_unless at 1 in IH.
    rewrite Hc2 in *. destruct (is_ascii_alphanumeric c2) eqn:Ec2.
    + rewrite squeeze_hyphens_last by now apply alphanumeric_not_hyphen.
      now rewrite <- IH.
    + rewrite squeeze_hyphens_pair. now rewrite <- IH.
Qed.

Lemma drop_while_hyphen_apart (s : jstring) :
  hyphens_apart s -> drop_while is_hyphen s = drop_first_hyphen s.
Proof.
  intros H. destruct s as [|c s]; simpl; [reflexivity|].
  unfold is_hyphen at 1. destruct (char_eqb c HYPHEN) eqn:E; [|reflexivity].
  apply char_eqb_eq in E. subst c.
  destruct s as [|c2 s]; simpl; [reflexivity|].
  unfold is_hyphen. destruct (char_eqb c2 HYPHEN) eqn:E2; [|reflexivity].
  apply char_eqb_eq in E2. subst c2. now destruct (H [] s).
Qed.

Lemma trim_hyphen_strip_hyphens (s : jstring) :
  hyphens_apart s -> trim_hyphen s = strip_hyphens s.
Proof.
  intros H. unfold trim_hyphen, strip_hyphens, drop_last_hyphen.
  rewrite (drop_while_hyphen_apart s H).
  rewrite drop_while_hyphen_apart; [reflexivity|].
  apply hyphens_apart_rev, hyphens_apart_drop_first, H.
Qed.

Lemma lower_case_classes (s : jstring) :
  Forall (fun c => is_az09 c = is_ascii_alphanumeric c) (toLowerCase s).
Proof.
  unfold toLowerCase. apply Forall_map, Forall_forall.
  intros c _. apply lower_char_alphanumeric.
Qed.

Lemma slugify_derive_slug (title : jstring) :
  slugify title = derive_slug dot is_ascii_alphanumeric title.
Proof.
  unfold slugify, derive_slug, remove_tags.
  rewrite remove_tags_from_lower, trim_lower.
  fold (remove_tags title). rewrite remove_tags_strip_groups.
  rewrite (hyphenate_collapse_runs _ (lower_case_classes _)).
  apply trim_hyphen_strip_hyphens.
  rewrite <- (hyphenate_collapse_runs _ (lower_case_classes _)).
  intros a r. apply (hyphenate_from_apart _ false).
Qed.

End SlugRefinement.

(** ** Prefixes and suffixes *)
Section Affixes.

Lemma startsWith_app (p r : jstring) : startsWith p (p ++ r) = true.
Proof. induction p as [|a p IH]; simpl; [reflexivity|]. now rewrite char_eqb_refl. Qed.

Lemma startsWith_inv (p s : jstring) :
  startsWith p s = true -> exists r, s = p ++ r.
Proof.
  revert s. induction p as [|a p IH]; intros s; simpl.
  - intros _. now exists s.
  - destruct s as [|b s]; [discriminate|].
    rewrite andb_true_iff, char_eqb_eq. intros [-> H].
    destruct (IH s H) as [r ->]. now exists r.
Qed.

Lemma endsWith_app (a p : jstring) : endsWith (a ++ p) p = true.
Proof. unfold endsWith. rewrite rev_app_distr. apply startsWith_app. Qed.

Lemma endsWith_inv (s p : jstring) :
  endsWith s p = true -> exists a, s = a ++ p.
Proof.
  unfold endsWith. intros H. destruct (startsWith_inv _ _ H) as [r E].
  exists (rev r). rewrite <- (rev_involutive s), E, rev_app_distr.
  now rewrite rev_involutive.
Qed.

Lemma endsWith_iff (s p : jstring) :
  endsWith s p = true <-> exists a, s = a ++ p.
Proof.
  split; [apply endsWith_inv | intros [a ->]; apply endsWith_app].
Qed.

End Affixes.

(** ** The issues directory *)
Section Directory.

Lemma lookup_write_same (d : directory) (f : jstring) (c : content) :
  lookup_file (write_file d f c) f = Some c.
Proof.
  induction d as [|[g c'] d IH]; simpl.
  - now rewrite jstring_eqb_refl.
  - destruct (jstring_eqb f g) eqn:E; simpl; rewrite E; [reflexivity | exact IH].
Qed.

Lemma lookup_write_other (d : directory) (f g : jstring) (c : content) :
  f <> g -> lookup_file (write_file d f c) g = lookup_file d g.
Proof.
  intros Hne. induction d as [|[h c'] d IH]; simpl.
  - apply jstring_eqb_neq in Hne.
    destruct (jstring_eqb g f) eqn:E; [|reflexivity].
    apply jstring_eqb_eq in E. subst g. now rewrite jstring_eqb_refl in Hne.
  - destruct (jstring_eqb f h) eqn:E; simpl.
    + apply jstring_eqb_eq in E. subst h.
      destruct (jstring_eqb g f) eqn:E2; [|reflexivity].
      apply jstring_eqb_eq in E2. now subst g.
    + now rewrite IH.
Qed.

Lemma write_file_same (d : directory) (f : jstring) (c : content) :
  lookup_file d f = Some c -> write_file d f c = d.
Proof.
  induction d as [|[g c'] d IH]; simpl; [discriminate|].
  destruct (jstring_eqb f g) eqn:E.
  - now intros [= ->].
  - intros H. now rewrite IH.
Qed.

Lemma readdir_write (d : directory) (f : jstring) (c : content) :
  readdirSync (write_file d f c) =
  if existsSync d f then readdirSync d else readdirSync d ++ [f].
Proof.
  unfold existsSync, readdirSync.
  induction d as [|[g c'] d IH]; simpl; [reflexivity|].
  destruct (jstring_eqb f g) eqn:E; simpl; [reflexivity|].
  rewrite IH. now destruct (lookup_file d f).
Qed.

Lemma lookup_file_listed (d : directory) (f : jstring) (c : content) :
  lookup_file d f = Some c -> In f (readdirSync d).
Proof.
  unfold readdirSync. induction d as [|[g c'] d IH]; simpl; [discriminate|].
  destruct (jstring_eqb f g) eqn:E.
  - apply jstring_eqb_eq in E. now left.
  - intros H. right. now apply IH.
Qed.

Lemma listed_lookup_file (d : directory) (f : jstring) :
  In f (readdirSync d) -> exists c, lookup_file d f = Some c.
Proof.
  unfold readdirSync. induction d as [|[g c'] d IH]; simpl; [tauto|].
  intros [->|H].
  - rewrite jstring_eqb_refl. eauto.
  - destruct (jstring_eqb f g); eauto.
Qed.

End Directory.

(** ** Normalisation of the body file *)
Section BodyFile.

Lemma endsWith_newline_snoc (s : jstring) : endsWith (s ++ [NEWLINE]) [NEWLINE] = true.
Proof. apply endsWith_app. Qed.

Lemma endsWith_two_newlines (s : jstring) :
  endsWith (s ++ [NEWLINE]) [NEWLINE; NEWLINE] = endsWith s [NEWLINE].
Proof.
  unfold endsWith. rewrite rev_app_distr. simpl.
  destruct (rev s) as [|c r]; [reflexivity|].
  now rewrite !andb_true_r.
Qed.

Lemma writeMd_writes (filePath content : jstring) (w : world) :
  writeMd filePath content w =
  (Done tt, {| dir := write_file (dir w) filePath (Text (normalized content));
               trace := trace w |}).
Proof. reflexivity. Qed.

(** C3, as the specification states it, fails: a content that ends in two
    newlines is written as it is and the file ends in two newlines. *)
Lemma writeMd_keeps_two_newlines :
  let content := str "a" ++ [NEWLINE; NEWLINE] in
  let w := snd (writeMd (str "5-a.md") content empty_world) in
  exists written,
    lookup_file (dir w) (str "5-a.md") = Some (Text written) /\
    endsWith content [NEWLINE] = true /\
    endsWith written [NEWLINE; NEWLINE] = true.
Proof. eexists. repeat split. Qed.

(** C3, amended: [writeMd] always writes a text that ends with a newline.  A
    content without a trailing newline gains exactly one; a content that ends
    in a newline is written unchanged, so the file ends with exactly one
    newline unless the content ended in two or more. *)
Theorem writeMd_trailing_newline (filePath content : jstring) (w : world) :
  exists written,
    fst (writeMd filePath content w) = Done tt /\
    lookup_file (dir (snd (writeMd filePath content w))) filePath
      = Some (Text written) /\
    endsWith written [NEWLINE] = true /\
    (endsWith content [NEWLINE] = false -> written = content ++ [NEWLINE]) /\
    (endsWith content [NEWLINE] = true -> written = content) /\
    (endsWith content [NEWLINE; NEWLINE] = false ->
     endsWith written [NEWLINE; NEWLINE] = false).
Proof.
  exists (normalized content). rewrite writeMd_writes. cbn [fst snd dir].
  split; [reflexivity|]. split; [apply lookup_write_same|].
  unfold normalized. destruct (endsWith content [NEWLINE]) eqn:E.
  - split; [exact E|]. split; [discriminate|]. split; [reflexivity|].
    intros H; exact H.
  - repeat split; try discriminate.
    + apply endsWith_newline_snoc.
    + intros _. now rewrite endsWith_two_newlines.
Qed.

Lemma writeMd_trailing_newline_witness :
  exists written,
    lookup_file (dir (snd (writeMd (str "5-a.md") (str "a") empty_world))) (str "5-a.md")
      = Some (Text written) /\
    written = str "a" ++ [NEWLINE] /\
    endsWith written [NEWLINE; NEWLINE] = false.
Proof.
  destruct (writeMd_trailing_newline (str "5-a.md") (str "a") empty_world)
    as (written & _ & Hfile & _ & Hgain & _ & Hone).
  exists written. split; [exact Hfile|]. split.
  - apply Hgain. reflexivity.
  - apply Hone. reflexivity.
Defined.

End BodyFile.

(** ** Label synchronisation *)
Section Labels.

Lemma includes_In (names : list jstring) (x : jstring) :
  includes names x = true <-> In x names.
Proof.
  unfold includes. rewrite existsb_exists. split.
  - intros (y & Hy & E). apply jstring_eqb_eq in E. now subst.
  - intros H. exists x. split; [exact H | apply jstring_eqb_refl].
Qed.

Lemma includes_string_strings (L : list jstring) (l : jstring) :
  includes_string (map JStr L) l = includes L l.
Proof.
  unfold includes_string, includes, strict_eq_string.
  induction L as [|t L IH]; [reflexivity|].
  cbn [map existsb]. rewrite IH. f_equal.
  destruct (jstring_eqb t l) eqn:E.
  - apply jstring_eqb_eq in E. subst. now rewrite jstring_eqb_refl.
  - symmetry. apply jstring_eqb_neq. apply jstring_eqb_neq in E. congruence.
Qed.

Lemma toAdd_strings (L R : list jstring) :
  toAdd (map JStr L) R = map JStr (List.filter (fun l => negb (includes R l)) L).
Proof.
  unfold toAdd. induction L as [|l L IH]; simpl; [reflexivity|].
  destruct (includes R l); simpl; now rewrite IH.
Qed.

Lemma toRemove_strings (L R : list jstring) :
  toRemove (map JStr L) R = List.filter (fun l => negb (includes L l)) R.
Proof.
  unfold toRemove. apply filter_ext. intros l. now rewrite includes_string_strings.
Qed.

Lemma elem_of_kept (P : jstring -> bool) (l : list jstring) (x : jstring) :
  x ∈ (list_to_set (List.filter P l) : gset (list ascii)) <-> x ∈ l /\ P x = true.
Proof.
  rewrite elem_of_list_to_set, !list_elem_of_In. apply filter_In.
Qed.

Lemma not_includes (names : list jstring) (x : jstring) :
  negb (includes names x) = true <-> x ∉ names.
Proof.
  rewrite negb_true_iff, list_elem_of_In, <- includes_In.
  destruct (includes names x); split; congruence.
Qed.

(** The two filters of [syncLabels] as finite sets: the labels to add are
    [L - R], the labels to remove are [R - L], and adding and removing them
    on [R] gives exactly [L]. *)
Lemma label_filters_as_sets (L R : list jstring) :
  let local : gset (list ascii) := list_to_set L in
  let remote : gset (list ascii) := list_to_set R in
  let A := List.filter (fun l => negb (includes R l)) L in
  let D := List.filter (fun l => negb (includes L l)) R in
  toAdd (map JStr L) R = map JStr A /\
  toRemove (map JStr L) R = D /\
  list_to_set A = local ∖ remote /\
  list_to_set D = remote ∖ local /\
  (remote ∪ list_to_set A) ∖ list_to_set D = local.
Proof.
  intros local remote A D. subst A D.
  rewrite toAdd_strings, toRemove_strings.
  assert (HA : (list_to_set (List.filter (fun l => negb (includes R l)) L)
                  : gset (list ascii)) = local ∖ remote).
  { apply set_eq. intros x. rewrite elem_of_kept, not_includes.
    subst local remote. rewrite elem_of_difference, !elem_of_list_to_set. tauto. }
  assert (HD : (list_to_set (List.filter (fun l => negb (includes L l)) R)
                  : gset (list ascii)) = remote ∖ local).
  { apply set_eq. intros x. rewrite elem_of_kept, not_includes.
    subst local remote. rewrite elem_of_difference, !elem_of_list_to_set. tauto. }
  split; [reflexivity|]. split; [reflexivity|]. split; [exact HA|].
  split; [exact HD|].
  rewrite HA, HD. apply set_eq. intros x.
  rewrite !elem_of_difference, elem_of_union, !elem_of_difference.
  destruct (decide (x ∈ local)), (decide (x ∈ remote)); tauto.
Qed.

Lemma array_join_strings (sep : jstring) (l : list jstring) :
  array_join sep (map JStr l) = concat_with sep l.
Proof.
  unfold array_join. f_equal. rewrite map_map. simpl. apply map_id.
Qed.

Lemma remove_each_run (gh : tracker) (n : N) (labels : list jstring) (w : world) :
  remove_each gh n labels w =
  (Done tt, {| dir := dir w;
               trace := trace w ++ map (fun l => Spawn (IssueRemoveLabel n l)) labels |}).
Proof.
  revert w. induction labels as [|l labels IH]; intros w; cbn [remove_each map].
  - unfold ret. rewrite app_nil_r. now destruct w.
  - unfold execSafe, bind, emit, ret. cbv beta iota zeta. rewrite IH.
    cbn [dir trace]. now rewrite <- app_assoc.
Qed.

(** The commands of [syncLabels]: one [--add-label] with the labels of
    [L - R] when there are any, then a [--remove-label] for each label of
    [R - L]. *)
Lemma syncLabels_commands (gh : tracker) (n : N) (L : list jstring) (w : world)
  (current : gh_issue) :
  gh (IssueView n) = Some (Snapshot current) ->
  let R := map name (labels current) in
  let add := List.filter (fun l => negb (includes R l)) L in
  let remove := List.filter (fun l => negb (includes L l)) R in
  syncLabels gh n (JArr (map JStr L)) w =
  (Done tt,
   {| dir := dir w;
      trace := trace w
               ++ Spawn (IssueView n)
                  :: match add with
                     | [] => []
                     | _ :: _ => [Spawn (IssueAddLabel n (concat_with [COMMA] add))]
                     end
               ++ map (fun l => Spawn (IssueRemoveLabel n l)) remove |}).
Proof.
  intros Hgh R add remove.
  unfold syncLabels, exec, parse_snapshot, as_array, bind, emit, ret.
  cbn [dir trace]. rewrite Hgh. cbv beta iota zeta.
  fold R. rewrite toAdd_strings, toRemove_strings. fold add remove.
  destruct add as [|a add'] eqn:Ea.
  - cbn [map]. cbv beta iota zeta. rewrite remove_each_run. cbn [dir trace map app].
    now rewrite <- app_assoc.
  - rewrite array_join_strings. cbn [map].
    unfold execSafe, bind, emit, ret. cbv beta iota zeta.
    rewrite remove_each_run. cbn [dir trace]. now rewrite <- !app_assoc.
Qed.

(** C5: for a list [L] of local labels and the remote labels [R] that the
    fetch returns, [syncLabels] hands to the shell, after the fetch, one
    command that adds the labels [A] (when there is one) and one command for
    each label of [D] that removes it, where as sets [A] is [L - R] and [D]
    is [R - L]; adding [A] to [R] and removing [D] gives exactly [L]. *)
Theorem label_diff_symmetry (gh : tracker) (n : N) (L : list jstring) (w : world)
  (current : gh_issue) :
  gh (IssueView n) = Some (Snapshot current) ->
  let R := map name (labels current) in
  let local : gset (list ascii) := list_to_set L in
  let remote : gset (list ascii) := list_to_set R in
  exists A D : list jstring,
    toAdd (map JStr L) R = map JStr A /\
    toRemove (map JStr L) R = D /\
    syncLabels gh n (JArr (map JStr L)) w =
    (Done tt,
     {| dir := dir w;
        trace := trace w
                 ++ Spawn (IssueView n)
                    :: match A with
                       | [] => []
                       | _ :: _ => [Spawn (IssueAddLabel n (concat_with [COMMA] A))]
                       end
                 ++ map (fun l => Spawn (IssueRemoveLabel n l)) D |}) /\
    list_to_set A = local ∖ remote /\
    list_to_set D = remote ∖ local /\
    (remote ∪ list_to_set A) ∖ list_to_set D = local.
Proof.
  intros Hview R local remote.
  destruct (label_filters_as_sets L R) as (HA & HD & HsA & HsD & Happly).
  exists (List.filter (fun l => negb (includes R l)) L),
         (List.filter (fun l => negb (includes L l)) R).
  split; [exact HA|]. split; [exact HD|].
  split; [exact (syncLabels_commands gh n L w current Hview)|].
  split; [exact HsA|]. split; [exact HsD|exact Happly].
Qed.

Lemma label_diff_symmetry_witness :
  let gh := tracker_of (issue (str "T") (str "OPEN")) in
  exists A D : list jstring,
    syncLabels gh 5 (JArr (map JStr [str "a"])) empty_world =
    (Done tt,
     {| dir := [];
        trace := Spawn (IssueView 5)
                 :: match A with
                    | [] => []
                    | _ :: _ => [Spawn (IssueAddLabel 5 (concat_with [COMMA] A))]
                    end
                 ++ map (fun l => Spawn (IssueRemoveLabel 5 l)) D |}) /\
    (list_to_set [bug] ∪ list_to_set A) ∖ list_to_set D
    = (list_to_set [str "a"] : gset (list ascii)).
Proof.
  intros gh.
  destruct (label_diff_symmetry gh 5%N [str "a"] empty_world
              (issue (str "T") (str "OPEN")) eq_refl)
    as (A & D & _ & _ & Hrun & _ & _ & Happly).
  exists A, D. split; [exact Hrun|exact Happly].
Defined.

End Labels.

(** ** Decimal digits *)
Section Decimal.

Lemma string_of_uint_digits (d : Decimal.uint) :
  Forall (fun c => is_digit c = true) (str (NilEmpty.string_of_uint d)).
Proof.
  unfold str. induction d; simpl; constructor; (reflexivity || assumption).
Qed.

Lemma decimal_digits (n : N) : Forall (fun c => is_digit c = true) (decimal n).
Proof. apply string_of_uint_digits. Qed.

Lemma decimal_nonempty (n : N) : exists c r, decimal n = c :: r /\ is_digit c = true.
Proof.
  pose proof (decimal_digits n) as H. unfold decimal in *.
  assert (Hn : N.to_uint n <> Decimal.Nil).
  { destruct n; simpl; [discriminate | apply DecimalPos.Unsigned.to_uint_nonnil]. }
  destruct (N.to_uint n); try congruence;
    simpl in *; inversion H; subst; eauto.
Qed.

Lemma digit_not_special (c : ascii) :
  is_digit c = true ->
  c <> HYPHEN /\ c <> DQUOTE /\ c <> "."%char /\ dot c = true.
Proof. all_chars c. all: repeat split; congruence. Qed.

End Decimal.

(** ** One reading of a serialisation *)
Section Serialisation.

Lemma unquote_quote_char (c : ascii) (rest : jstring) :
  unquote_char (quote_char c ++ rest) = Some (c, rest).
Proof. all_chars c. Qed.

Lemma quoted_body_inj (s : jstring) : forall t rest1 rest2,
  concat (map quote_char s) ++ DQUOTE :: rest1 =
  concat (map quote_char t) ++ DQUOTE :: rest2 ->
  s = t /\ rest1 = rest2.
Proof.
  induction s as [|c s IH]; intros [|d t] rest1 rest2; simpl.
  - now intros [= ->].
  - intros E. apply (f_equal unquote_char) in E.
    rewrite <- app_assoc, unquote_quote_char in E. discriminate.
  - intros E. apply (f_equal unquote_char) in E.
    rewrite <- app_assoc, unquote_quote_char in E. discriminate.
  - intros E. apply (f_equal unquote_char) in E.
    rewrite <- !app_assoc, !unquote_quote_char in E.
    injection E as -> E. now destruct (IH _ _ _ E) as [-> ->].
Qed.

Lemma quote_inj (s t rest1 rest2 : jstring) :
  quote s ++ rest1 = quote t ++ rest2 -> s = t /\ rest1 = rest2.
Proof.
  unfold quote. simpl. rewrite <- !app_assoc. simpl.
  intros [= E]. now apply quoted_body_inj in E.
Qed.

(** Only a string starts with a double quote. *)
Lemma serialize_head (x : json) :
  (exists s, x = JStr s) \/
  exists c r, serialize [] [] x = c :: r /\ c <> DQUOTE.
Proof.
  destruct x as [|b|n|s|items|props]; [right|right|right|left; eauto|right|right].
  - do 2 eexists. split; [reflexivity | discriminate].
  - destruct b; do 2 eexists; (split; [reflexivity | discriminate]).
  - simpl. unfold number_text. destruct (n <? 0)%Z.
    + do 2 eexists. split; [reflexivity | discriminate].
    + destruct (decimal_nonempty (Z.to_N n)) as (c & r & -> & Hc).
      exists c, r. split; [reflexivity | apply digit_not_special, Hc].
  - simpl. unfold enclose.
    destruct (map _ items); do 2 eexists; (split; [reflexivity | discriminate]).
  - simpl. unfold enclose.
    destruct (map _ props); do 2 eexists; (split; [reflexivity | discriminate]).
Qed.

Lemma serialize_string_inj (x : json) (t rest1 rest2 : jstring) :
  serialize [] [] x ++ rest1 = quote t ++ rest2 -> x = JStr t /\ rest1 = rest2.
Proof.
  destruct (serialize_head x) as [[s ->]|(c & r & E & Hc)].
  - simpl. intros H. now apply quote_inj in H as [-> ->].
  - rewrite E. unfold quote. simpl. intros [= -> _]. congruence.
Qed.

Lemma concat_with_cons (sep p : jstring) (rest : list jstring) (tl : jstring) :
  concat_with sep (p :: rest) ++ tl =
  p ++ match rest with
       | [] => tl
       | _ :: _ => sep ++ concat_with sep rest ++ tl
       end.
Proof. destruct rest; simpl; [reflexivity|]. now rewrite <- !app_assoc. Qed.

Lemma items_inj (xs : list json) : forall ts : list jstring,
  xs <> [] -> ts <> [] ->
  concat_with [COMMA] (map (serialize [] []) xs) ++ ["]"%char] =
  concat_with [COMMA] (map (serialize [] []) (map JStr ts)) ++ ["]"%char] ->
  xs = map JStr ts.
Proof.
  induction xs as [|x xs IH]; intros [|t ts] Hx Ht; try congruence.
  cbn [map]. rewrite !concat_with_cons. cbn [serialize].
  intros E. apply serialize_string_inj in E as [-> E].
  destruct xs as [|x2 xs], ts as [|t2 ts]; try discriminate; [reflexivity|].
  f_equal. apply IH; try discriminate.
  cbn [map] in E. simpl in E. injection E as E. exact E.
Qed.

(** [JSON.stringify] tells an array of strings from every other array. *)
Lemma stringify_strings_inj (xs : list json) (ts : list jstring) :
  JSON_stringify (JArr xs) = JSON_stringify (JArr (map JStr ts)) ->
  xs = map JStr ts.
Proof.
  unfold JSON_stringify. cbn [serialize app]. unfold enclose.
  destruct xs as [|x xs], ts as [|t ts]; cbn [map]; try reflexivity.
  - intros E. rewrite concat_with_cons in E. discriminate.
  - intros E. rewrite concat_with_cons in E.
    destruct (serialize_head x) as [[s ->]|(c & r & Ex & Hc)].
    + discriminate.
    + rewrite Ex in E. injection E as _ E.
      destruct r, (map (serialize [] []) xs); discriminate.
  - intros E. apply (items_inj (x :: xs) (t :: ts)); try discriminate.
    now injection E.
Qed.

Lemma insert_sorted_strings (x : jstring) (l : list jstring) :
  insert_sorted (fun a b => jstring_leb (js_to_string a) (js_to_string b))
    (JStr x) (map JStr l) = map JStr (insert_sorted jstring_leb x l).
Proof.
  induction l as [|y l IH]; simpl; [reflexivity|].
  destruct (jstring_leb x y); simpl; [reflexivity | now rewrite IH].
Qed.

Lemma sort_values_strings (l : list jstring) :
  sort_values (map JStr l) = map JStr (sort_strings l).
Proof.
  unfold sort_values, sort_strings, sort_by.
  induction l as [|x l IH]; simpl; [reflexivity|].
  now rewrite IH, insert_sorted_strings.
Qed.

Lemma JStr_map_inj (a b : list jstring) : map JStr a = map JStr b -> a = b.
Proof.
  revert b. induction a as [|x a IH]; intros [|y b]; simpl; try congruence.
  intros [= -> E]. now rewrite (IH _ E).
Qed.

End Serialisation.

(** ** The status check *)
Section StatusCheck.

Lemma strict_eq_string_iff (a : option json) (s : jstring) :
  strict_eq_string a s = true <-> a = Some (JStr s).
Proof.
  unfold strict_eq_string.
  destruct a as [[| | |t| |]|]; try (split; [discriminate | congruence]).
  rewrite jstring_eqb_eq. split; congruence.
Qed.

Lemma labelsMatch_iff (title state : option json) (localLabels : list json)
  (ghIssue : gh_issue) :
  labelsMatch (status_check title state localLabels ghIssue) = true <->
  localLabels = map JStr (sort_strings (map name (labels ghIssue))).
Proof.
  cbn [status_check labelsMatch]. rewrite jstring_eqb_eq. split.
  - apply stringify_strings_inj.
  - now intros ->.
Qed.

Lemma inSync_iff (title state : option json) (localLabels : list json)
  (ghIssue : gh_issue) :
  inSync (status_check title state localLabels ghIssue) = true <->
  title = Some (JStr (Remote.title ghIssue)) /\
  state = Some (JStr (toLowerCase (Remote.state ghIssue))) /\
  localLabels = map JStr (sort_strings (map name (labels ghIssue))).
Proof.
  unfold inSync. rewrite !andb_true_iff, labelsMatch_iff.
  cbn [status_check titleMatch stateMatch]. rewrite !strict_eq_string_iff. tauto.
Qed.

(** C2, as the specification states it, fails: the local state [OPEN]
    equals the remote state [OPEN] under every comparison, the titles and
    the labels are equal, and the issue is reported out of sync. *)
Lemma status_compares_state_with_case :
  let ghIssue := issue (str "T") (str "OPEN") in
  let r := status_check (Some (JStr (str "T"))) (Some (JStr (str "OPEN")))
             (sort_values [JStr bug]) ghIssue in
  ~ (inSync r = true <->
     str "T" = Remote.title ghIssue /\
     toLowerCase (str "OPEN") = toLowerCase (Remote.state ghIssue) /\
     sort_strings [bug] = sort_strings (map name (labels ghIssue))).
Proof.
  intros ghIssue r [_ H].
  assert (E : inSync r = false) by reflexivity.
  rewrite H in E; [discriminate|]. repeat split.
Qed.

(** C2, amended: the status check reports an issue as in sync if and only if
    the local title is the remote title, the local state is the lower-cased
    remote state (only the remote side is lower-cased), and the sorted local
    labels are the sorted remote labels; local [{state: "open", labels:
    ["bug"]}] against remote [{state: "OPEN", labels: [{name: "bug"}]}] with
    the same title is in sync, also in the report that [status] prints. *)
Theorem status_in_sync_iff :
  (forall (title state : option json) (L : list jstring) (ghIssue : gh_issue),
     inSync (status_check title state (sort_values (map JStr L)) ghIssue) = true <->
     title = Some (JStr (Remote.title ghIssue)) /\
     state = Some (JStr (toLowerCase (Remote.state ghIssue))) /\
     sort_strings L = sort_strings (map name (labels ghIssue))) /\
  (let ghIssue := issue (str "T") (str "OPEN") in
   let local := record (str "T") (str "open") [bug] [] in
   inSync (status_check (Some (JStr (str "T"))) (Some (JStr (str "open")))
             (sort_values [JStr bug]) ghIssue) = true /\
   run (status (tracker_of ghIssue)) (world_with (str "5-a.json") (Meta local)) =
   (0%Z,
    {| dir := [(str "5-a.json", Meta local)];
       trace := [ Out OutStatusFor;
                  Spawn (IssueView 5);
                  Out (OutStatus 5 (Some (JStr (str "T")))
                         {| titleMatch := true; labelsMatch := true;
                            stateMatch := true |}
                         [JStr bug]) ] |})).
Proof.
  split.
  - intros title state L ghIssue. rewrite inSync_iff, sort_values_strings.
    split; intros (Ht & Hs & Hl); repeat split; try assumption.
    + now apply JStr_map_inj.
    + now rewrite Hl.
  - split; vm_compute; reflexivity.
Qed.

Lemma status_in_sync_iff_witness :
  inSync (status_check (Some (JStr (str "T"))) (Some (JStr (str "open")))
            (sort_values (map JStr [bug])) (issue (str "T") (str "OPEN"))) = true.
Proof.
  apply (proj1 status_in_sync_iff (Some (JStr (str "T"))) (Some (JStr (str "open")))
           [bug] (issue (str "T") (str "OPEN"))).
  repeat split.
Defined.

End StatusCheck.

(** ** Slug derivation *)
Section SlugDerivation.

Lemma strip_groups_single_line (s : jstring) : forall held,
  forallb dot s = true ->
  strip_groups_scan any_char held s = strip_groups_scan dot held s.
Proof.
  induction s as [|c s IH]; intros held; simpl; [reflexivity|].
  rewrite andb_true_iff. intros [Hc Hs]. rewrite Hc. unfold any_char at 2.
  destruct held; destruct (char_eqb c LBRACKET), (char_eqb c RBRACKET);
    now rewrite ?IH.
Qed.

(** A bracketed group that runs over a line break is not stripped: the
    pattern of [slugify] has no [s] flag, although its comment says that it
    removes the tags. *)
Lemma slugify_keeps_group_over_line_break :
  slugify two_line_title = str "a-b-c" /\
  derive_slug any_char is_ascii_alphanumeric two_line_title = str "c" /\
  slugify two_line_title
  <> derive_slug any_char is_ascii_alphanumeric two_line_title.
Proof. repeat split. discriminate. Qed.

(** C8, as the specification states it, fails: a letter outside ASCII is
    alphanumeric, and [slugify] turns it into a hyphen; the title "Über"
    gives the slug "ber", the rule of the sentence gives "über". *)
Lemma slugify_drops_letter_outside_ascii :
  is_alphanumeric (ascii_of_N 252) = true /\
  slugify umlaut_title = str "ber" /\
  derive_slug any_char is_alphanumeric umlaut_title = ascii_of_N 252 :: str "ber" /\
  slugify umlaut_title <> derive_slug any_char is_alphanumeric umlaut_title.
Proof. repeat split. discriminate. Qed.

Lemma strip_groups_scan_chars (P : ascii -> Prop) (inside : ascii -> bool)
  (s : jstring) : forall held,
  Forall P held -> Forall P s -> Forall P (strip_groups_scan inside held s).
Proof.
  induction s as [|c s IH]; intros held Hheld Hs; cbn [strip_groups_scan].
  - apply List.Forall_forall. intros x Hx. apply in_rev in Hx.
    rewrite List.Forall_forall in Hheld. now apply Hheld.
  - inversion Hs as [|c' s' Hc Hs']; subst.
    assert (Hrev : Forall P (rev held)).
    { apply List.Forall_forall. intros x Hx. apply in_rev in Hx.
      rewrite List.Forall_forall in Hheld. now apply Hheld. }
    destruct held as [|h held'].
    + destruct (char_eqb c LBRACKET).
      * apply IH; [now constructor|assumption].
      * constructor; [assumption|]. now apply IH.
    + destruct (char_eqb c RBRACKET); [now apply IH|].
      destruct (inside c).
      * apply IH; [now constructor|assumption].
      * apply Forall_app_2; [exact Hrev|]. constructor; [assumption|].
        now apply IH.
Qed.

Lemma drop_while_chars (P : ascii -> Prop) (p : ascii -> bool) (s : jstring) :
  Forall P s -> Forall P (drop_while p s).
Proof.
  induction 1 as [|c s Hc Hs IH]; cbn [drop_while]; [constructor|].
  destruct (p c); [exact IH|now constructor].
Qed.

Lemma rev_chars (P : ascii -> Prop) (s : jstring) : Forall P s -> Forall P (rev s).
Proof.
  intros H. apply List.Forall_forall. intros x Hx. apply in_rev in Hx.
  rewrite List.Forall_forall in H. now apply H.
Qed.

Lemma trim_chars (P : ascii -> Prop) (s : jstring) : Forall P s -> Forall P (trim s).
Proof.
  intros H. unfold trim, trimEnd, trimStart.
  now apply rev_chars, drop_while_chars, rev_chars, drop_while_chars.
Qed.

Lemma lower_char_same_classes (c : ascii) :
  is_alphanumeric c = is_ascii_alphanumeric c ->
  hyphen_unless is_alphanumeric (lower_char c)
  = hyphen_unless is_ascii_alphanumeric (lower_char c).
Proof.
  destruct c as [[] [] [] [] [] [] [] []]; vm_compute; intros H;
    try discriminate H; reflexivity.
Qed.

(** C8, amended: for a title without line terminators, slug derivation
    strips every bracketed tag group, trims, lower-cases, collapses every
    run of characters other than the ASCII letters and digits to a single
    hyphen, and strips leading and trailing hyphens; where the title has no
    letter outside ASCII, that is the rule with every run of non-alphanumeric
    characters; and ["[CTT] [Migration] Kafka"] yields ["kafka"]. *)
Theorem slugify_follows_rule :
  (forall title : jstring,
     forallb dot title = true ->
     slugify title = derive_slug any_char is_ascii_alphanumeric title) /\
  (forall title : jstring,
     forallb dot title = true ->
     Forall (fun c => is_alphanumeric c = is_ascii_alphanumeric c) title ->
     slugify title = derive_slug any_char is_alphanumeric title) /\
  slugify kafka_title = str "kafka".
Proof.
  assert (Hline : forall title : jstring,
            forallb dot title = true ->
            slugify title = derive_slug any_char is_ascii_alphanumeric title).
  { intros title H. rewrite slugify_derive_slug. unfold derive_slug, strip_groups.
    now rewrite strip_groups_single_line. }
  split; [exact Hline|]. split; [|reflexivity].
  intros title Hdot Hclass. rewrite (Hline title Hdot).
  unfold derive_slug, collapse_runs. do 2 f_equal.
  unfold toLowerCase. rewrite !map_map. apply map_ext_in.
  intros c Hc. symmetry. apply lower_char_same_classes.
  assert (Hall : Forall (fun c => is_alphanumeric c = is_ascii_alphanumeric c)
                   (trim (strip_groups any_char title)))
    by (apply trim_chars, strip_groups_scan_chars; [constructor|exact Hclass]).
  rewrite List.Forall_forall in Hall. now apply Hall.
Qed.

Lemma slugify_follows_rule_witness :
  slugify kafka_title = derive_slug any_char is_ascii_alphanumeric kafka_title /\
  slugify kafka_title = derive_slug any_char is_alphanumeric kafka_title.
Proof.
  split.
  - apply (proj1 slugify_follows_rule kafka_title). reflexivity.
  - apply (proj1 (proj2 slugify_follows_rule) kafka_title); [reflexivity|].
    apply List.Forall_forall. intros c Hc.
    repeat (destruct Hc as [<-|Hc]; [reflexivity|]). destruct Hc.
Defined.

End SlugDerivation.

(** ** Running the commands *)
Section Running.

Lemma bind_done {A B : Type} (m : M A) (k : A -> M B) (w w' : world) (b : B) :
  bind m k w = (Done b, w') ->
  exists a w1, m w = (Done a, w1) /\ k a w1 = (Done b, w').
Proof.
  unfold bind. destruct (m w) as [[a|code|e] w1]; try discriminate. eauto.
Qed.

Lemma emit_done (e : event) (w w' : world) (u : unit) :
  emit e w = (Done u, w') -> dir w' = dir w /\ trace w' = trace w ++ [e].
Proof. unfold emit. now intros [= _ <-]. Qed.

Lemma get_dir_done (w w' : world) (d : directory) :
  get_dir w = (Done d, w') -> d = dir w /\ w' = w.
Proof. unfold get_dir. now intros [= <- <-]. Qed.

Lemma ret_done {A : Type} (a b : A) (w w' : world) :
  ret a w = (Done b, w') -> b = a /\ w' = w.
Proof. unfold ret. now intros [= <- <-]. Qed.

Lemma or_type_error_done {A : Type} (o : option A) (a : A) (w w' : world) :
  or_type_error o w = (Done a, w') -> o = Some a /\ w' = w.
Proof.
  unfold or_type_error, ret, throw. destruct o; [|discriminate]. now intros [= <- <-].
Qed.

Lemma fetchIssue_done (gh : tracker) (n : N) (w w' : world) (i : gh_issue) :
  fetchIssue gh n w = (Done i, w') ->
  gh (IssueView n) = Some (Snapshot i) /\
  dir w' = dir w /\ trace w' = trace w ++ [Spawn (IssueView n)].
Proof.
  unfold fetchIssue, exec, parse_snapshot, bind, emit, ret, throw,
    console_error, process_exit. cbn.
  destruct (gh (IssueView n)) as [[j|]|]; try discriminate.
  now intros [= <- <-].
Qed.

Lemma readJson_done (f : jstring) (w w' : world) (v : json) :
  readJson f w = (Done v, w') -> lookup_file (dir w) f = Some (Meta v) /\ w' = w.
Proof.
  unfold readJson, bind, get_dir, ret, throw.
  destruct (lookup_file (dir w) f) as [[u|s]|]; try discriminate.
  now intros [= <- <-].
Qed.

Lemma readMd_done (f : jstring) (w w' : world) (s : jstring) :
  readMd f w = (Done s, w') ->
  (exists c, lookup_file (dir w) f = Some c /\ s = file_text c) /\ w' = w.
Proof.
  unfold readMd, bind, get_dir, ret, throw.
  destruct (lookup_file (dir w) f) as [c|]; try discriminate.
  intros [= <- <-]. eauto.
Qed.

Lemma writeJson_done (f : jstring) (v : json) (w w' : world) (u : unit) :
  writeJson f v w = (Done u, w') ->
  dir w' = write_file (dir w) f (Meta v) /\ trace w' = trace w.
Proof. unfold writeJson, bind, get_dir, set_dir. now intros [= _ <-]. Qed.

Lemma writeMd_done (f content : jstring) (w w' : world) (u : unit) :
  writeMd f content w = (Done u, w') ->
  dir w' = write_file (dir w) f (Text (normalized content)) /\ trace w' = trace w.
Proof. unfold writeMd, bind, get_dir, set_dir. now intros [= _ <-]. Qed.

End Running.

(** Splits a finished run of binds into its steps. *)
Ltac steps :=
  repeat match goal with
    | H : bind _ _ _ = (Done _, _) |- _ =>
        let a := fresh "a" in let w1 := fresh "w" in
        let H1 := fresh "Hstep" in let H2 := fresh "Hrest" in
        apply bind_done in H; destruct H as (a & w1 & H1 & H2)
    | H : console_log _ _ = (Done _, _) |- _ => apply emit_done in H; destruct H as [? ?]
    | H : emit _ _ = (Done _, _) |- _ => apply emit_done in H; destruct H as [? ?]
    | H : get_dir _ = (Done _, _) |- _ => apply get_dir_done in H; destruct H as [? ?]; subst
    | H : ret _ _ = (Done _, _) |- _ => apply ret_done in H; destruct H as [? ?]; subst
    | H : or_type_error _ _ = (Done _, _) |- _ =>
        apply or_type_error_done in H; destruct H as [? ?]; subst
    | H : fetchIssue _ _ _ = (Done _, _) |- _ =>
        apply fetchIssue_done in H; destruct H as (? & ? & ?)
    | H : readJson _ _ = (Done _, _) |- _ => apply readJson_done in H; destruct H as [? ?]; subst
    | H : readMd _ _ = (Done _, _) |- _ => apply readMd_done in H; destruct H as [[? [? ?]] ?]; subst
    | H : writeJson _ _ _ = (Done _, _) |- _ => apply writeJson_done in H; destruct H as [? ?]
    | H : writeMd _ _ _ = (Done _, _) |- _ => apply writeMd_done in H; destruct H as [? ?]
    end.

Section Pull.

(** The files [pull] works on: those of the local record, or new ones named
    after the remote title. *)
Lemma pull_done_inv (gh : tracker) (n : N) (w w' : world) :
  pull gh n w = (Done tt, w') ->
  exists ghIssue files localJson m,
    gh (IssueView n) = Some (Snapshot ghIssue) /\
    files = match findIssueFiles (dir w) n with
            | Some files => files
            | None => new_files n (slugify (title ghIssue))
            end /\
    match lookup_file (dir w) (json_path files) with
    | Some c => c = Meta localJson
    | None => localJson = JObj []
    end /\
    merged n files ghIssue localJson = Some m /\
    dir w' = write_file (write_file (dir w) (json_path files) (Meta m))
               (md_path files) (Text (normalized (body_or_empty (body ghIssue)))).
Proof.
  unfold pull. intros H. steps.
  match goal with
  | Hg : gh _ = Some (Snapshot ?i), Hf : _ = (Done ?f, _), Hj : _ = (Done ?j, _),
    Hm : merged _ _ _ _ = Some ?m |- _ => exists i, f, j, m
  end.
  repeat match goal with
         | E : dir _ = dir _ |- _ => rewrite E in *
         end.
  match goal with
  | Hf : _ ?wb = (Done ?f, ?wc), Hj : _ ?wc = (Done ?j, ?wd),
    Hg : gh _ = Some (Snapshot ?i) |- _ =>
      assert (Efiles : f = match findIssueFiles (dir w) n with
                           | Some files => files
                           | None => new_files n (slugify (title i))
                           end /\ dir wc = dir w)
        by (destruct (findIssueFiles (dir w) n); steps; subst; split; congruence);
      destruct Efiles as [Efiles Ed3];
      assert (Elocal : match lookup_file (dir w) (json_path f) with
                       | Some c => c = Meta j
                       | None => j = JObj []
                       end /\ dir wd = dir w)
        by (unfold existsSync in Hj;
            destruct (lookup_file (dir w) (json_path f)) eqn:El; steps;
            split; congruence);
      destruct Elocal as [Elocal Ed4]
  end.
  repeat split; try assumption. congruence.
Qed.

Lemma pull_done (gh : tracker) (n : N) (w : world) (ghIssue : gh_issue)
  (files : issue_files) (localJson m : json) :
  gh (IssueView n) = Some (Snapshot ghIssue) ->
  files = match findIssueFiles (dir w) n with
          | Some files => files
          | None => new_files n (slugify (title ghIssue))
          end ->
  match lookup_file (dir w) (json_path files) with
  | Some c => c = Meta localJson
  | None => localJson = JObj []
  end ->
  merged n files ghIssue localJson = Some m ->
  exists w',
    pull gh n w = (Done tt, w') /\
    dir w' = write_file (write_file (dir w) (json_path files) (Meta m))
               (md_path files) (Text (normalized (body_or_empty (body ghIssue)))).
Proof.
  intros Hgh Hfiles Hlocal Hm.
  unfold pull, fetchIssue, exec, parse_snapshot, readJson, writeJson, writeMd,
    or_type_error, console_log, emit, get_dir, set_dir, bind, ret.
  cbn [dir trace]. rewrite Hgh. cbv beta iota zeta. cbn [dir trace].
  destruct (findIssueFiles (dir w) n) as [found|]; subst files;
    cbv beta iota zeta; cbn [dir trace]; unfold existsSync;
    (destruct (lookup_file (dir w) _) as [c|] eqn:El;
     [subst c|subst localJson]; cbv beta iota zeta; cbn [dir trace];
     rewrite ?El; cbv beta iota zeta; rewrite Hm;
     eexists; split; reflexivity).
Qed.

End Pull.

(** ** The merged record of a pull *)

(** The ways the local-only fields can be present in [props] *)
Ltac local_only_cases props :=
  destruct (obj_get props (str "hub_projekt")) eqn:?,
           (obj_get props (str "typ")) eqn:?,
           (obj_get props (str "technologie_steckbrief")) eqn:?,
           (obj_get props (str "related_issues")) eqn:?.

Section Merge.

Variables (n : N) (files : issue_files) (ghIssue : gh_issue).

Lemma merged_object (props : list (jstring * json)) :
  merged n files ghIssue (JObj props) =
  Some (JObj (remote_fields ghIssue ++ carried props
              ++ closing_fields n files ghIssue (obj_get props (str "body_file")))).
Proof.
  unfold merged, carried. cbn [preserved prop Config.localOnlyFields flat_map].
  local_only_cases props; destruct (obj_get props (str "body_file"));
    reflexivity.
Qed.

Lemma merged_not_object (v : json) :
  v <> JNull -> (forall props, v <> JObj props) ->
  merged n files ghIssue v = merged n files ghIssue (JObj []).
Proof.
  intros Hnull Hobj. destruct v; try reflexivity; [congruence|].
  now destruct (Hobj props).
Qed.


(** Whatever is read, the merged record is an object that starts with the
    remote fields. *)
Lemma merged_shape (v m : json) :
  merged n files ghIssue v = Some m ->
  exists props,
    m = JObj (remote_fields ghIssue ++ carried props
              ++ closing_fields n files ghIssue (obj_get props (str "body_file"))) /\
    (v = JObj props \/ (props = [] /\ forall p, v <> JObj p)).
Proof.
  destruct v as [|b|z|s|items|props].
  - discriminate.
  - intros H. exists []. rewrite merged_not_object, merged_object in H by discriminate.
    injection H as <-. split; [reflexivity|]. right. split; [reflexivity|discriminate].
  - intros H. exists []. rewrite merged_not_object, merged_object in H by discriminate.
    injection H as <-. split; [reflexivity|]. right. split; [reflexivity|discriminate].
  - intros H. exists []. rewrite merged_not_object, merged_object in H by discriminate.
    injection H as <-. split; [reflexivity|]. right. split; [reflexivity|discriminate].
  - intros H. exists []. rewrite merged_not_object, merged_object in H by discriminate.
    injection H as <-. split; [reflexivity|]. right. split; [reflexivity|discriminate].
  - rewrite merged_object. intros [= <-]. exists props. split; [reflexivity|now left].
Qed.

Lemma or_else_again (a : option json) (b : json) :
  or_else (Some (or_else a b)) b = or_else a b.
Proof.
  destruct a as [x|]; simpl.
  - destruct (truthy x) eqn:E; [now rewrite E | now destruct (truthy b)].
  - now destruct (truthy b).
Qed.

(** Merging once more with the same snapshot changes nothing, not even the
    order of the properties. *)
Lemma merged_idempotent (v m : json) :
  merged n files ghIssue v = Some m -> merged n files ghIssue m = Some m.
Proof.
  intros H. destruct (merged_shape v m H) as (props & -> & _).
  rewrite merged_object. do 2 f_equal.
  assert (Hbody : obj_get
            (remote_fields ghIssue ++ carried props
             ++ closing_fields n files ghIssue (obj_get props (str "body_file")))
            (str "body_file")
          = Some (or_else (obj_get props (str "body_file"))
                    (JStr (file_name n (slug files) (str ".md"))))).
  { unfold carried. cbn [flat_map]. local_only_cases props; reflexivity. }
  rewrite Hbody. f_equal. f_equal.
  - unfold carried. cbn [flat_map]. local_only_cases props; reflexivity.
  - unfold closing_fields. now rewrite or_else_again.
Qed.

(** A local-only field that is present is carried over; [body_file] only
    when its value is truthy. *)
Lemma merged_keeps_local_only (props : list (jstring * json)) (m : json)
  (k : jstring) (v : json) :
  merged n files ghIssue (JObj props) = Some m ->
  In k Config.localOnlyFields ->
  obj_get props k = Some v ->
  k <> str "body_file" \/ truthy v = true ->
  prop m k = Some (Some v).
Proof.
  rewrite merged_object. intros Hm Hk Hv Ht.
  assert (Em : m = JObj (remote_fields ghIssue ++ carried props
                 ++ closing_fields n files ghIssue (obj_get props (str "body_file"))))
    by congruence.
  subst m. clear Hm. cbn [prop]. f_equal.
  unfold Config.localOnlyFields in Hk. cbn [In] in Hk.
  unfold carried. cbn [flat_map].
  destruct Hk as [<-|[<-|[<-|[<-|[<-|[]]]]]].
  1-4: local_only_cases props; try discriminate; rewrite <- Hv; reflexivity.
  destruct Ht as [Ht|Ht]; [congruence|].
  rewrite Hv. local_only_cases props; cbn; now rewrite Ht.
Qed.

(** A [body_file] that is present but falsy gives way to the name of the
    body file. *)
Lemma merged_replaces_falsy_body_file (props : list (jstring * json)) (m v : json) :
  merged n files ghIssue (JObj props) = Some m ->
  obj_get props (str "body_file") = Some v ->
  truthy v = false ->
  prop m (str "body_file")
  = Some (Some (JStr (file_name n (slug files) (str ".md")))).
Proof.
  rewrite merged_object. intros Hm Hv Ht.
  assert (Em : m = JObj (remote_fields ghIssue ++ carried props
                 ++ closing_fields n files ghIssue (obj_get props (str "body_file"))))
    by congruence.
  subst m. clear Hm. cbn [prop]. f_equal.
  unfold carried. cbn [flat_map].
  rewrite Hv. local_only_cases props; cbn; now rewrite Ht.
Qed.

(** The title of the merged record is the remote title. *)
Lemma merged_title (v m : json) :
  merged n files ghIssue v = Some m ->
  prop m (str "title") = Some (Some (JStr (title ghIssue))).
Proof.
  intros H. destruct (merged_shape v m H) as (props & -> & _). reflexivity.
Qed.

End Merge.

(** ** File names *)
Section FileNames.

Lemma replace_first_length (pat rep : jstring) (s : jstring) :
  (exists a b, s = a ++ pat ++ b) ->
  (length (replace_first pat rep s) + length pat = length s + length rep)%nat.
Proof.
  induction s as [|c s IH]; intros (a & b & E).
  - destruct a; [|discriminate]. destruct pat; [|discriminate].
    simpl. rewrite length_app. simpl. lia.
  - cbn [replace_first]. destruct (startsWith pat (c :: s)) eqn:Es.
    + destruct (startsWith_inv _ _ Es) as [r Er]. rewrite Er.
      rewrite drop_app_length, !length_app. lia.
    + destruct a as [|x a].
      * simpl in E. rewrite E, startsWith_app in Es. discriminate.
      * injection E as -> E.
        specialize (IH (ex_intro _ a (ex_intro _ b E))).
        cbn [length]. lia.
Qed.

Lemma replace_first_suffix (pat rep a : jstring) (c : ascii) (p : jstring) :
  pat = c :: p ->
  Forall (fun x => x <> c) a ->
  replace_first pat rep (a ++ pat) = a ++ rep.
Proof.
  intros -> Ha. induction Ha as [|x a Hx Ha IH].
  - assert (Hp : startsWith (c :: p) (c :: p) = true)
      by (rewrite <- (app_nil_r (c :: p)) at 2; apply startsWith_app).
    cbn [app replace_first]. rewrite Hp.
    now rewrite drop_all, app_nil_r.
  - cbn [app replace_first startsWith].
    replace (char_eqb c x) with false
      by (symmetry; apply char_eqb_neq; congruence).
    simpl. now rewrite IH.
Qed.

Lemma take_while_prefix (p : ascii -> bool) (a : jstring) (c : ascii) (r : jstring) :
  Forall (fun x => p x = true) a -> p c = false ->
  take_while p (a ++ c :: r) = a /\ drop_while p (a ++ c :: r) = c :: r.
Proof.
  intros Ha Hc. induction Ha as [|x a Hx Ha [IH1 IH2]]; simpl.
  - now rewrite Hc.
  - rewrite Hx. now rewrite IH1, IH2.
Qed.

Lemma issue_pattern_inv (n : N) (f : jstring) :
  issue_pattern n f = true -> exists a, f = a ++ str ".json".
Proof.
  unfold issue_pattern. rewrite !andb_true_iff. intros [[Hs He] _].
  destruct (startsWith_inv _ _ Hs) as [r ->].
  rewrite drop_app_length in He.
  destruct (endsWith_inv _ _ He) as [a ->].
  exists ((decimal n ++ [HYPHEN]) ++ a). now rewrite <- !app_assoc.
Qed.

Lemma findIssueFiles_inv (d : directory) (n : N) (files : issue_files) :
  findIssueFiles d n = Some files ->
  find (issue_pattern n) (readdirSync d) = Some (json_path files) /\
  md_path files = replace_first (str ".json") (str ".md") (json_path files) /\
  slug files = replace_first (str ".json") [] (strip_number (json_path files)).
Proof.
  unfold findIssueFiles. destruct (find _ _) as [f|]; [|discriminate].
  intros [= <-]. repeat split.
Qed.

(** The two files of a record have different names. *)
Lemma found_files_differ (d : directory) (n : N) (files : issue_files) :
  findIssueFiles d n = Some files -> md_path files <> json_path files.
Proof.
  intros H. destruct (findIssueFiles_inv _ _ _ H) as (Hf & -> & _).
  apply find_some in Hf as [_ Hp].
  destruct (issue_pattern_inv _ _ Hp) as [a E].
  intros Heq. apply (f_equal (@length ascii)) in Heq.
  assert (Hl : exists x y, json_path files = x ++ str ".json" ++ y)
    by (exists a, []; rewrite E; now rewrite app_nil_r).
  apply (replace_first_length (str ".json") (str ".md")) in Hl.
  rewrite Heq in Hl. simpl in Hl. lia.
Qed.

Lemma new_files_differ (n : N) (s : jstring) :
  md_path (new_files n s) <> json_path (new_files n s).
Proof.
  unfold new_files, file_name. cbn [md_path json_path]. intros E.
  repeat apply app_inv_head in E. discriminate.
Qed.

Lemma find_app_found {A : Type} (p : A -> bool) (l1 l2 : list A) (x : A) :
  find p l1 = Some x -> find p (l1 ++ l2) = Some x.
Proof.
  induction l1 as [|y l1 IH]; simpl; [discriminate|].
  destruct (p y); [congruence | exact IH].
Qed.

Lemma find_app_none {A : Type} (p : A -> bool) (l1 l2 : list A) :
  find p l1 = None -> find p (l1 ++ l2) = find p l2.
Proof.
  induction l1 as [|y l1 IH]; simpl; [reflexivity|].
  destruct (p y); [discriminate | exact IH].
Qed.

(** Writing a file does not move the record of an issue that has one. *)
Lemma findIssueFiles_write (d : directory) (n : N) (files : issue_files)
  (f : jstring) (c : content) :
  findIssueFiles d n = Some files ->
  findIssueFiles (write_file d f c) n = Some files.
Proof.
  unfold findIssueFiles. rewrite readdir_write.
  destruct (find (issue_pattern n) (readdirSync d)) as [g|] eqn:E; [|discriminate].
  intros H. destruct (existsSync d f); [now rewrite E|].
  now rewrite (find_app_found _ _ _ _ E).
Qed.

End FileNames.

(** ** The record a pull creates *)
Section NewRecord.

Lemma slugify_chars (title : jstring) :
  Forall (fun c => is_az09 c = true \/ c = HYPHEN) (slugify title).
Proof.
  unfold slugify, trim_hyphen.
  apply Forall_drop_last_hyphen, Forall_drop_first_hyphen, hyphenate_from_chars.
Qed.

Lemma slug_char_plain (c : ascii) :
  is_az09 c = true \/ c = HYPHEN -> c <> "."%char /\ dot c = true.
Proof. intros [H| ->]; [|split; [discriminate|reflexivity]]. revert H. all_chars c.
  all: intros _; split; [discriminate|reflexivity]. Qed.

Lemma file_name_plain (n : N) (title : jstring) :
  Forall (fun c => c <> "."%char) (decimal n ++ [HYPHEN] ++ slugify title).
Proof.
  apply Forall_app. split; [|apply Forall_app; split].
  - eapply Forall_impl; [apply decimal_digits|].
    intros c Hc. now destruct (digit_not_special c Hc) as (_ & _ & H & _).
  - constructor; [discriminate | constructor].
  - eapply Forall_impl; [apply slugify_chars|].
    intros c Hc. now apply slug_char_plain.
Qed.

Lemma new_json_matches (n : N) (title : jstring) :
  issue_pattern n (file_name n (slugify title) (str ".json")) = true.
Proof.
  unfold issue_pattern, file_name.
  replace (decimal n ++ [HYPHEN] ++ slugify title ++ str ".json")
    with ((decimal n ++ [HYPHEN]) ++ slugify title ++ str ".json")
    by now rewrite <- app_assoc.
  rewrite startsWith_app, drop_app_length, endsWith_app. simpl andb.
  rewrite forallb_app. apply andb_true_iff. split; [|reflexivity].
  apply forallb_forall. intros c Hc.
  pose proof (slugify_chars title) as H. rewrite Forall_forall in H.
  apply list_elem_of_In in Hc. now destruct (slug_char_plain c (H c Hc)).
Qed.

Lemma new_md_name (n : N) (title : jstring) :
  replace_first (str ".json") (str ".md") (file_name n (slugify title) (str ".json"))
  = file_name n (slugify title) (str ".md").
Proof.
  unfold file_name. rewrite !app_assoc.
  rewrite (replace_first_suffix _ _ _ "."%char (str "json")); [reflexivity..|].
  rewrite <- app_assoc. apply file_name_plain.
Qed.

Lemma new_slug (n : N) (title : jstring) :
  replace_first (str ".json") []
    (strip_number (file_name n (slugify title) (str ".json")))
  = slugify title.
Proof.
  unfold file_name, strip_number. cbn [app].
  destruct (take_while_prefix is_digit (decimal n) HYPHEN
              (slugify title ++ str ".json") (decimal_digits n) eq_refl) as [-> ->].
  destruct (decimal_nonempty n) as (c & r & -> & _).
  rewrite char_eqb_refl.
  rewrite (replace_first_suffix _ _ _ "."%char (str "json")); [apply app_nil_r|reflexivity|].
  eapply Forall_impl; [apply slugify_chars|].
  intros x Hx. now apply slug_char_plain.
Qed.

Lemma find_none_not_listed (d : directory) (n : N) (f : jstring) :
  findIssueFiles d n = None -> issue_pattern n f = true -> lookup_file d f = None.
Proof.
  unfold findIssueFiles. destruct (find _ _) eqn:E; [discriminate|]. intros _ Hp.
  destruct (lookup_file d f) eqn:El; [|reflexivity].
  apply lookup_file_listed in El.
  pose proof (find_none _ _ E f El). congruence.
Qed.

(** Once [pull] has written its two new files, they are the record of the
    issue. *)
Lemma findIssueFiles_new (d : directory) (n : N) (title : jstring) (c1 c2 : content) :
  findIssueFiles d n = None ->
  let files := new_files n (slugify title) in
  findIssueFiles (write_file (write_file d (json_path files) c1) (md_path files) c2) n
  = Some files.
Proof.
  intros Hnone files.
  assert (Hp : issue_pattern n (json_path files) = true)
    by apply new_json_matches.
  pose proof (find_none_not_listed d n _ Hnone Hp) as Hl.
  assert (Hex : existsSync d (json_path files) = false)
    by (unfold existsSync; now rewrite Hl).
  assert (Hrec : {| json_path := json_path files;
                    md_path := replace_first (str ".json") (str ".md") (json_path files);
                    slug := replace_first (str ".json") [] (strip_number (json_path files)) |}
                 = files).
  { subst files. unfold new_files. cbn [json_path]. now rewrite new_md_name, new_slug. }
  unfold findIssueFiles in *.
  destruct (find (issue_pattern n) (readdirSync d)) eqn:E; [discriminate|].
  assert (Hfind : forall tl,
            find (issue_pattern n) ((readdirSync d ++ [json_path files]) ++ tl)
            = Some (json_path files)).
  { intros tl. rewrite <- app_assoc, (find_app_none _ _ _ E).
    cbn [app find]. now rewrite Hp. }
  rewrite (readdir_write (write_file _ _ _)), (readdir_write d), Hex.
  destruct (existsSync (write_file _ _ _) _).
  - pose proof (Hfind []) as H0. rewrite app_nil_r in H0. now rewrite H0, Hrec.
  - now rewrite Hfind, Hrec.
Qed.

End NewRecord.

(** ** Pull *)
Section PullProperties.

Lemma run_dir (m : M unit) (w : world) : dir (snd (run m w)) = dir (snd (m w)).
Proof. unfold run. now destruct (m w) as [[u|code|e] w']. Qed.


(** A pull either completes, or it ends with exit code 1 and has written
    nothing. *)
Lemma pull_outcome (gh : tracker) (n : N) (w : world) :
  (exists w', pull gh n w = (Done tt, w')) \/
  (dir (snd (pull gh n w)) = dir w /\ fst (run (pull gh n) w) = 1%Z).
Proof.
  unfold run, pull, fetchIssue, exec, parse_snapshot, readJson, writeJson, writeMd,
    or_type_error, console_log, console_error, process_exit, throw, emit,
    get_dir, set_dir, bind, ret.
  cbn [dir trace].
  destruct (gh (IssueView n)) as [[ghIssue|]|]; cbv beta iota zeta; cbn [dir trace];
    try (right; split; reflexivity).
  destruct (findIssueFiles (dir w) n) as [files|]; cbv beta iota zeta; cbn [dir trace].
  all: unfold existsSync;
    destruct (lookup_file (dir w) _) as [[v|s]|] eqn:El;
    cbv beta iota zeta; cbn [dir trace]; rewrite ?El; cbv beta iota zeta;
    try (right; split; reflexivity).
  all: match goal with
       | |- context [merged ?a ?b ?c ?d] => destruct (merged a b c d)
       end; cbv beta iota zeta; cbn [dir trace];
    (left; eexists; reflexivity) || (right; split; reflexivity).
Qed.

(** C1: the script breaks the claim, and its own comment on the local-only
    fields ("should never be overwritten by pull").  In the record
    [{"typ": "", "body_file": ""}] both fields are local-only and present
    with the value [""]; the pull keeps [typ], which goes through
    [!== undefined], and overwrites [body_file], which goes through [||]. *)
Lemma pull_replaces_empty_body_file :
  let local := JObj [(str "typ", JStr []); (str "body_file", JStr [])] in
  let w := world_with (str "5-a.json") (Meta local) in
  let gh := tracker_of (issue (str "T") (str "OPEN")) in
  In (str "typ") Config.localOnlyFields /\
  In (str "body_file") Config.localOnlyFields /\
  prop local (str "typ") = Some (Some (JStr [])) /\
  prop local (str "body_file") = Some (Some (JStr [])) /\
  exists w' m,
    pull gh 5 w = (Done tt, w') /\
    lookup_file (dir w') (str "5-a.json") = Some (Meta m) /\
    prop m (str "typ") = Some (Some (JStr [])) /\
    prop m (str "body_file") = Some (Some (JStr (str "5-a.md"))) /\
    JStr (str "5-a.md") <> JStr [].
Proof.
  intros local w gh. split; [cbn; tauto|]. split; [cbn; tauto|].
  split; [reflexivity|]. split; [reflexivity|].
  do 2 eexists. split; [vm_compute; reflexivity|].
  split; [vm_compute; reflexivity|]. split; [reflexivity|].
  split; [reflexivity | discriminate].
Qed.

(** What a pull keeps of the local-only fields: whatever the remote
    snapshot, every local-only field other than [body_file] that is present
    in the local record is in the record the pull writes, with the same
    value; [body_file] is kept when its value is truthy, and is otherwise
    replaced by the name of the body file. *)
Theorem pull_preserves_local_only_fields
  (gh : tracker) (n : N) (w : world) (ghIssue : gh_issue) (files : issue_files)
  (localJson : json) (k : jstring) (v : json) :
  gh (IssueView n) = Some (Snapshot ghIssue) ->
  findIssueFiles (dir w) n = Some files ->
  lookup_file (dir w) (json_path files) = Some (Meta localJson) ->
  In k Config.localOnlyFields ->
  prop localJson k = Some (Some v) ->
  exists w' m,
    pull gh n w = (Done tt, w') /\
    lookup_file (dir w') (json_path files) = Some (Meta m) /\
    (k <> str "body_file" \/ truthy v = true -> prop m k = Some (Some v)) /\
    (k = str "body_file" -> truthy v = false ->
     prop m k = Some (Some (JStr (file_name n (slug files) (str ".md"))))).
Proof.
  intros Hgh Hfiles Hlocal Hk Hv.
  destruct localJson as [| | | | |props]; try discriminate.
  cbn [prop] in Hv. injection Hv as Hv.
  pose proof (merged_object n files ghIssue props) as Hm.
  edestruct (pull_done gh n w ghIssue files (JObj props)) as (w' & Hrun & Hdir);
    [exact Hgh | now rewrite Hfiles | now rewrite Hlocal | exact Hm |].
  exists w'. eexists. split; [exact Hrun|]. split; [|split].
  - rewrite Hdir, lookup_write_other, lookup_write_same; [reflexivity|].
    eapply found_files_differ, Hfiles.
  - intros Ht. eapply merged_keeps_local_only; eauto.
  - intros -> Ht. eapply merged_replaces_falsy_body_file; eauto.
Qed.

Lemma pull_preserves_local_only_fields_witness :
  let local := JObj [(str "typ", JNull); (str "body_file", JStr (str "b.md"))] in
  let w := world_with (str "5-a.json") (Meta local) in
  let gh := tracker_of (issue (str "T") (str "OPEN")) in
  exists w' m,
    pull gh 5 w = (Done tt, w') /\
    lookup_file (dir w') (str "5-a.json") = Some (Meta m) /\
    prop m (str "typ") = Some (Some JNull).
Proof.
  intros local w gh.
  destruct (pull_preserves_local_only_fields gh 5 w (issue (str "T") (str "OPEN"))
              {| json_path := str "5-a.json"; md_path := str "5-a.md"; slug := str "a" |}
              local (str "typ") JNull)
    as (w' & m & Hrun & Hfile & Hkept & _).
  - reflexivity.
  - reflexivity.
  - reflexivity.
  - cbn. tauto.
  - reflexivity.
  - exists w', m. split; [exact Hrun|]. split; [exact Hfile|].
    apply Hkept. left. discriminate.
Defined.

(** C6: pulling an identifier twice against the same remote snapshot leaves
    after the second pull the directory of the first, file by file and byte
    by byte: the same metadata, with its properties in the same order, and
    the same body. *)
Theorem pull_twice_same_files (gh : tracker) (n : N) (w w1 : world) :
  pull gh n w = (Done tt, w1) ->
  exists w2 files,
    pull gh n w1 = (Done tt, w2) /\
    dir w2 = dir w1 /\
    findIssueFiles (dir w1) n = Some files /\
    (exists m, lookup_file (dir w1) (json_path files) = Some (Meta m)) /\
    (exists b, lookup_file (dir w1) (md_path files) = Some (Text b)) /\
    (forall f, option_map file_text (lookup_file (dir w2) f)
               = option_map file_text (lookup_file (dir w1) f)).
Proof.
  intros H1.
  destruct (pull_done_inv gh n w w1 H1)
    as (ghIssue & files & localJson & m & Hgh & Hfiles & Hlocal & Hm & Hdir).
  assert (Hdiff : md_path files <> json_path files).
  { destruct (findIssueFiles (dir w) n) eqn:Ef; subst files.
    - eapply found_files_differ, Ef.
    - apply new_files_differ. }
  assert (Hfound : findIssueFiles (dir w1) n = Some files).
  { rewrite Hdir. destruct (findIssueFiles (dir w) n) eqn:Ef; subst files.
    - now apply findIssueFiles_write, findIssueFiles_write.
    - now apply findIssueFiles_new. }
  assert (Hjson : lookup_file (dir w1) (json_path files) = Some (Meta m))
    by (rewrite Hdir, lookup_write_other, lookup_write_same; auto).
  assert (Hmd : lookup_file (dir w1) (md_path files)
                = Some (Text (normalized (body_or_empty (body ghIssue)))))
    by (rewrite Hdir; apply lookup_write_same).
  destruct (pull_done gh n w1 ghIssue files m m Hgh) as (w2 & H2 & Hdir2).
  - now rewrite Hfound.
  - now rewrite Hjson.
  - eapply merged_idempotent, Hm.
  - assert (Hsame : dir w2 = dir w1).
    { rewrite Hdir2, (write_file_same _ _ _ Hjson). now apply write_file_same. }
    exists w2, files. repeat split; eauto. intros f. now rewrite Hsame.
Qed.

Lemma pull_twice_same_files_witness :
  let gh := tracker_of (issue kafka_title (str "OPEN")) in
  exists w1 w2,
    pull gh 5 empty_world = (Done tt, w1) /\
    pull gh 5 w1 = (Done tt, w2) /\
    dir w2 = dir w1 /\
    readdirSync (dir w1) = [str "5-kafka.json"; str "5-kafka.md"].
Proof.
  intros gh.
  assert (H1 : pull gh 5 empty_world = (Done tt, snd (pull gh 5 empty_world)))
    by (vm_compute; reflexivity).
  destruct (pull_twice_same_files gh 5 empty_world _ H1)
    as (w2 & files & H2 & Hdir & _).
  exists (snd (pull gh 5 empty_world)), w2.
  split; [exact H1|]. split; [exact H2|]. split; [exact Hdir|].
  vm_compute. reflexivity.
Defined.

(** C7: a pull of an identifier that has a local record works on the files
    of that record, whatever the remote title is: after the pull the record
    of the identifier has the same metadata and body file names and the same
    slug, every file name of the directory is still there, and the only name
    that may be new is that of the body file; the title inside the metadata
    is the remote one. *)
Theorem pull_keeps_file_names (gh : tracker) (n : N) (w : world) (files : issue_files) :
  findIssueFiles (dir w) n = Some files ->
  let w' := snd (run (pull gh n) w) in
  findIssueFiles (dir w') n = Some files /\
  (forall f, In f (readdirSync (dir w)) -> In f (readdirSync (dir w'))) /\
  (forall f, In f (readdirSync (dir w')) ->
             In f (readdirSync (dir w)) \/ f = md_path files) /\
  (forall ghIssue,
     gh (IssueView n) = Some (Snapshot ghIssue) ->
     fst (run (pull gh n) w) = 0%Z ->
     exists m,
       lookup_file (dir w') (json_path files) = Some (Meta m) /\
       prop m (str "title") = Some (Some (JStr (title ghIssue)))).
Proof.
  intros Hfiles w'. subst w'. rewrite run_dir.
  assert (Hlisted : In (json_path files) (readdirSync (dir w))).
  { apply findIssueFiles_inv in Hfiles as [Hf _]. now apply find_some in Hf. }
  destruct (pull_outcome gh n w) as [[w1 H1]|[Hdir Hcode]].
  - destruct (pull_done_inv gh n w w1 H1)
      as (ghIssue & files' & localJson & m & Hgh & Hf' & Hlocal & Hm & Hdir).
    rewrite Hfiles in Hf'. subst files'. rewrite H1. cbn [snd]. rewrite Hdir.
    assert (Hnames : readdirSync (write_file (dir w) (json_path files) (Meta m))
                     = readdirSync (dir w)).
    { rewrite readdir_write. unfold existsSync.
      destruct (listed_lookup_file _ _ Hlisted) as [c ->]. reflexivity. }
    split; [now apply findIssueFiles_write, findIssueFiles_write|].
    rewrite readdir_write, Hnames. split; [|split].
    + intros f Hin. destruct (existsSync _ _); [exact Hin|].
      apply in_or_app. now left.
    + intros f Hin. destruct (existsSync _ _); [now left|].
      apply in_app_or in Hin as [Hin|[<-|[]]]; [now left | now right].
    + intros ghIssue' Hgh' _. rewrite Hgh in Hgh'. injection Hgh' as <-.
      exists m. split.
      * rewrite lookup_write_other, lookup_write_same; [reflexivity|].
        eapply found_files_differ, Hfiles.
      * eapply merged_title, Hm.
  - rewrite Hdir. split; [exact Hfiles|]. split; [tauto|]. split; [tauto|].
    intros ghIssue _ H0. rewrite Hcode in H0. discriminate.
Qed.

Lemma pull_keeps_file_names_witness :
  let w := world_with (str "5-old-title.json") (Meta (JObj [])) in
  let gh := tracker_of (issue (str "New title") (str "OPEN")) in
  findIssueFiles (dir (snd (run (pull gh 5) w))) 5
  = Some {| json_path := str "5-old-title.json";
            md_path := str "5-old-title.md";
            slug := str "old-title" |}.
Proof.
  intros w gh.
  refine (proj1 (pull_keeps_file_names gh 5%N w
                   {| json_path := str "5-old-title.json";
                      md_path := str "5-old-title.md";
                      slug := str "old-title" |} _)).
  vm_compute. reflexivity.
Defined.

(** C10: for every title the slug holds only lowercase ASCII letters,
    digits and hyphens, has no hyphen at either end and no two hyphens in a
    row; it may be empty, as for a title of bracketed groups only, and then
    the pull of a new identifier creates the files [{id}-.json] and
    [{id}-.md]. *)
Theorem slugify_shape :
  (forall title : jstring,
     Forall (fun c => is_az09 c = true \/ c = HYPHEN) (slugify title) /\
     (forall r, slugify title <> HYPHEN :: r) /\
     (forall r, slugify title <> r ++ [HYPHEN]) /\
     hyphens_apart (slugify title)) /\
  slugify (str "[CTT]") = [] /\
  (forall (gh : tracker) (n : N) (w : world) (ghIssue : gh_issue),
     gh (IssueView n) = Some (Snapshot ghIssue) ->
     findIssueFiles (dir w) n = None ->
     slugify (title ghIssue) = [] ->
     exists w' m b,
       pull gh n w = (Done tt, w') /\
       lookup_file (dir w') (decimal n ++ str "-.json") = Some (Meta m) /\
       lookup_file (dir w') (decimal n ++ str "-.md") = Some (Text b)).
Proof.
  split; [|split; [reflexivity|]].
  - intros title. split; [apply slugify_chars|].
    assert (Ha : hyphens_apart (hyphenate (trim (remove_tags (toLowerCase title)))))
      by (intros a r; apply (hyphenate_from_apart _ false)).
    destruct (hyphens_apart_drop_first _ Ha) as [Ha1 Hhead].
    destruct (hyphens_apart_drop_last _ Ha1) as [Ha2 Hlast].
    unfold slugify, trim_hyphen. split; [|split; [exact Hlast | exact Ha2]].
    now apply drop_last_hyphen_keeps_head.
  - intros gh n w ghIssue Hgh Hnone Hslug.
    pose proof (new_json_matches n (title ghIssue)) as Hp.
    pose proof (find_none_not_listed _ _ _ Hnone Hp) as Hl.
    rewrite Hslug in Hp, Hl.
    edestruct (pull_done gh n w ghIssue (new_files n []) (JObj []))
      as (w' & Hrun & Hdir);
      [exact Hgh | now rewrite Hnone, Hslug | cbn [json_path new_files]; now rewrite Hl
      | apply merged_object |].
    exists w'. do 2 eexists. split; [exact Hrun|]. rewrite Hdir. split.
    + change (decimal n ++ str "-.json") with (json_path (new_files n [])).
      rewrite lookup_write_other, lookup_write_same; [reflexivity|].
      apply new_files_differ.
    + change (decimal n ++ str "-.md") with (md_path (new_files n [])).
      apply lookup_write_same.
Qed.

Lemma slugify_shape_witness :
  let gh := tracker_of (issue (str "[CTT]") (str "OPEN")) in
  exists w' m b,
    pull gh 5 empty_world = (Done tt, w') /\
    lookup_file (dir w') (str "5-.json") = Some (Meta m) /\
    lookup_file (dir w') (str "5-.md") = Some (Text b).
Proof.
  intros gh.
  apply (proj2 (proj2 slugify_shape) gh 5%N empty_world
           (issue (str "[CTT]") (str "OPEN")));
    reflexivity.
Defined.

End PullProperties.

(** ** Push and diff *)
Section PushDiff.

Lemma log_each_done (lines : list out_line) (w : world) :
  log_each lines w = (Done tt, {| dir := dir w; trace := trace w ++ map Out lines |}).
Proof.
  revert w. induction lines as [|l lines IH]; intros w; cbn [log_each map].
  - unfold ret. rewrite app_nil_r. now destruct w.
  - unfold bind, console_log, emit. rewrite IH. cbn [dir trace].
    now rewrite <- app_assoc.
Qed.

Lemma appends_bind {A B : Type} (m : M A) (k : A -> M B) :
  appends m -> (forall a, appends (k a)) -> appends (bind m k).
Proof.
  intros Hm Hk w. unfold bind. destruct (Hm w) as [tr1 E1].
  destruct (m w) as [[a|code|e] w1]; cbn [snd] in *.
  - destruct (Hk a w1) as [tr2 E2]. exists (tr1 ++ tr2).
    now rewrite E2, E1, app_assoc.
  - now exists tr1.
  - now exists tr1.
Qed.

Lemma appends_ret {A : Type} (a : A) : appends (ret a).
Proof. intros w. exists []. now rewrite app_nil_r. Qed.

Lemma appends_throw {A : Type} (e : js_error) : appends (@throw A e).
Proof. intros w. exists []. now rewrite app_nil_r. Qed.

Lemma appends_exit {A : Type} (code : Z) : appends (@process_exit A code).
Proof. intros w. exists []. now rewrite app_nil_r. Qed.

Lemma appends_emit (e : event) : appends (emit e).
Proof. intros w. now exists [e]. Qed.

Lemma appends_execSafe (gh : tracker) (c : gh_command) : appends (execSafe gh c).
Proof.
  unfold execSafe. apply appends_bind; [apply appends_emit|].
  intros _. apply appends_ret.
Qed.

Lemma appends_exec (gh : tracker) (c : gh_command) : appends (exec gh c).
Proof.
  unfold exec. apply appends_bind; [apply appends_emit|]. intros _.
  destruct (gh c); [apply appends_ret|].
  apply appends_bind; [apply appends_emit | intros _; apply appends_exit].
Qed.

Lemma appends_remove_each (gh : tracker) (n : N) (labels : list jstring) :
  appends (remove_each gh n labels).
Proof.
  induction labels as [|l labels IH]; cbn [remove_each]; [apply appends_ret|].
  apply appends_bind; [apply appends_execSafe | intros _; exact IH].
Qed.

Lemma appends_syncLabels (gh : tracker) (n : N) (target : json) :
  appends (syncLabels gh n target).
Proof.
  unfold syncLabels. apply appends_bind; [apply appends_exec|]. intros out.
  apply appends_bind.
  { unfold parse_snapshot. destruct out; [apply appends_ret | apply appends_throw]. }
  intros current. apply appends_bind.
  { unfold as_array. destruct target; (apply appends_ret || apply appends_throw). }
  intros items. apply appends_bind; [|intros _; apply appends_remove_each].
  destruct (toAdd _ _); [apply appends_ret|].
  apply appends_bind; [apply appends_execSafe | intros _; apply appends_ret].
Qed.

Lemma bind_step {A B : Type} (m : M A) (k : A -> M B) (w w1 : world) (a : A) :
  m w = (Done a, w1) -> bind m k w = k a w1.
Proof. unfold bind. now intros ->. Qed.

Lemma bind_assoc {A B C : Type} (m : M A) (f : A -> M B) (g : B -> M C) (w : world) :
  bind (bind m f) g w = bind m (fun a => bind (f a) g) w.
Proof. unfold bind. now destruct (m w) as [[a|code|e] w1]. Qed.

(** The edit command of a push carries no body file when that file is
    missing, and it is issued all the same. *)
Lemma updateIssue_without_body (gh : tracker) (n : N) (title : option json)
  (titleFlag : option jstring) (bodyFile : jstring) (labels : json) (w : world) :
  title_flag title w = (Done titleFlag, w) ->
  lookup_file (dir w) bodyFile = None ->
  exists tr,
    trace (snd (updateIssue gh n title bodyFile labels w))
    = trace w ++ Spawn (IssueEdit n titleFlag None) :: tr.
Proof.
  intros Ht Hb. unfold updateIssue.
  rewrite (bind_step _ _ _ _ _ Ht).
  rewrite (bind_step get_dir _ w w (dir w) eq_refl).
  unfold existsSync. rewrite Hb. unfold exec. rewrite bind_assoc.
  set (w1 := {| dir := dir w; trace := trace w ++ [Spawn (IssueEdit n titleFlag None)] |}).
  rewrite (bind_step (emit _) _ w w1 tt eq_refl).
  match goal with
  | |- context [snd (?k w1)] => assert (Hk : appends k)
  end.
  { apply appends_bind.
    - destruct (gh _); [apply appends_ret|].
      apply appends_bind; [apply appends_emit | intros _; apply appends_exit].
    - intros _. destruct (truthy labels); [apply appends_syncLabels | apply appends_ret]. }
  destruct (Hk w1) as [tr E]. exists tr. rewrite E. subst w1. cbn [trace].
  now rewrite <- app_assoc.
Qed.

(** Without a local record [push] and [diff] print their diagnostic and
    exit with 1 before any command is spawned. *)
Lemma no_record_is_fatal (gh : tracker) (n : N) (w : world) :
  findIssueFiles (dir w) n = None ->
  run (main gh (Push (Number n))) w =
    (1%Z, {| dir := dir w;
             trace := trace w ++ [Out (OutPushing n); Err (ErrNoLocalFiles n)] |}) /\
  run (main gh (Diff (Some n))) w =
    (1%Z, {| dir := dir w;
             trace := trace w ++ [Out (OutDiffFor n); Err (ErrNoLocalFiles n)] |}).
Proof.
  intros Hnone. cbn [main].
  unfold run, push, diff, console_log, console_error, process_exit, emit,
    get_dir, bind, ret.
  cbn [dir trace]. rewrite Hnone. cbv beta iota zeta. cbn [dir trace].
  now rewrite <- !app_assoc.
Qed.

(** C4, as the specification states it, fails: with the metadata file there
    and the body file missing, [push] issues the remote update and the
    process ends with exit code 0. *)
Lemma push_without_body_file_goes_on :
  let local := record (str "T") (str "open") [bug] [] in
  let w := world_with (str "5-a.json") (Meta local) in
  let gh := tracker_of (issue (str "T") (str "OPEN")) in
  findIssueFiles (dir w) 5
  = Some {| json_path := str "5-a.json"; md_path := str "5-a.md"; slug := str "a" |} /\
  lookup_file (dir w) (str "5-a.md") = None /\
  run (main gh (Push (Number 5))) w =
  (0%Z,
   {| dir := dir w;
      trace := [ Out (OutPushing 5);
                 Spawn (IssueEdit 5 (Some (str "T")) None);
                 Spawn (IssueView 5);
                 Out (OutUpdatedTitle (Some (JStr (str "T"))));
                 Out (OutUpdatedBody (str "5-a.md"));
                 Out (OutSyncedLabels [JStr bug]) ] |}).
Proof. repeat split; vm_compute; reflexivity. Qed.

(** C4, amended: an invocation of push or diff on an identifier whose
    metadata file is missing, and an invocation of diff on an identifier
    whose body file is missing, end the process at once with exit code 1 and
    a printed diagnostic, and no remote command is issued.  A push whose body
    file alone is missing is not stopped: it issues the update without the
    body. *)
Theorem missing_local_files :
  (forall (gh : tracker) (n : N) (w : world),
     findIssueFiles (dir w) n = None ->
     run (main gh (Push (Number n))) w =
       (1%Z, {| dir := dir w;
                trace := trace w ++ [Out (OutPushing n); Err (ErrNoLocalFiles n)] |}) /\
     run (main gh (Diff (Some n))) w =
       (1%Z, {| dir := dir w;
                trace := trace w ++ [Out (OutDiffFor n); Err (ErrNoLocalFiles n)] |})) /\
  (forall (gh : tracker) (n : N) (w : world) (files : issue_files),
     findIssueFiles (dir w) n = Some files ->
     lookup_file (dir w) (md_path files) = None ->
     exists e,
       run (main gh (Diff (Some n))) w =
         (1%Z, {| dir := dir w;
                  trace := trace w ++ [Out (OutDiffFor n); Err (ErrUncaught e)] |})) /\
  (forall (gh : tracker) (n : N) (w : world) (files : issue_files)
          (localJson : json) (title : option json) (titleFlag : option jstring),
     findIssueFiles (dir w) n = Some files ->
     lookup_file (dir w) (json_path files) = Some (Meta localJson) ->
     lookup_file (dir w) (md_path files) = None ->
     prop localJson (str "title") = Some title ->
     (forall w0, title_flag title w0 = (Done titleFlag, w0)) ->
     exists tr,
       trace (snd (run (main gh (Push (Number n))) w)) =
       trace w ++ [Out (OutPushing n); Spawn (IssueEdit n titleFlag None)] ++ tr).
Proof.
  split; [|split].
  - intros gh n w Hnone. now apply no_record_is_fatal.
  - intros gh n w files Hfiles Hmd. cbn [main].
    unfold run, diff, readJson, readMd, console_log, console_error, process_exit,
      throw, emit, get_dir, bind, ret.
    cbn [dir trace]. rewrite Hfiles. cbv beta iota zeta. cbn [dir trace].
    destruct (lookup_file (dir w) (json_path files)) as [[v|s]|];
      cbv beta iota zeta; cbn [dir trace]; rewrite ?Hmd; cbv beta iota zeta;
      cbn [dir trace]; eexists; now rewrite <- !app_assoc.
  - intros gh n w files localJson title titleFlag Hfiles Hjson Hmd Htitle Hflag.
    cbn [main].
    assert (Hlabels : exists labels, prop localJson (str "labels") = Some labels)
      by (destruct localJson; try discriminate; cbn; eauto).
    destruct Hlabels as [labels Hlabels].
    set (w1 := {| dir := dir w; trace := trace w ++ [Out (OutPushing n)] |}).
    assert (Hrun : exists k : M unit,
              push gh n w =
              bind (updateIssue gh n title (md_path files) (or_else labels (JArr []))) (fun _ => k) w1
              /\ appends k).
    { eexists. split.
      - unfold push.
        rewrite (bind_step (console_log _) _ w w1 tt eq_refl).
        rewrite (bind_step get_dir _ w1 w1 (dir w) eq_refl).
        rewrite Hfiles.
        rewrite (bind_step (ret files) _ w1 w1 files eq_refl).
        rewrite (bind_step (readJson _) _ w1 w1 localJson)
          by (unfold readJson, bind, get_dir; cbn [dir w1]; now rewrite Hjson).
        rewrite Htitle, Hlabels.
        rewrite (bind_step (or_type_error (Some title)) _ w1 w1 title eq_refl).
        rewrite (bind_step (or_type_error (Some labels)) _ w1 w1 labels eq_refl).
        reflexivity.
      - apply appends_bind; [apply appends_emit|]. intros _.
        apply appends_bind; [apply appends_emit|]. intros _.
        apply appends_bind.
        + unfold as_array. destruct (or_else _ _); (apply appends_ret || apply appends_throw).
        + intros items. apply appends_emit. }
    destruct Hrun as (k & Hrun & Hk).
    destruct (updateIssue_without_body gh n title titleFlag (md_path files)
                (or_else labels (JArr [])) w1 (Hflag w1) Hmd) as [tr1 E1].
    unfold run. rewrite Hrun. unfold bind.
    destruct (updateIssue _ _ _ _ _ w1) as [[u|code|e] w2]; cbn [snd] in E1.
    + destruct (Hk w2) as [tr2 E2].
      destruct (k w2) as [[u2|code|e] w3]; cbn [snd trace] in *;
        eexists; rewrite ?E2, E1; subst w1; cbn [trace];
        rewrite <- ?app_assoc; cbn [app]; reflexivity.
    + cbn [snd trace]. eexists. rewrite E1. subst w1. cbn [trace].
      rewrite <- ?app_assoc. cbn [app]. reflexivity.
    + cbn [snd trace]. eexists. rewrite E1. subst w1. cbn [trace].
      rewrite <- ?app_assoc. cbn [app]. reflexivity.
Qed.

Lemma missing_local_files_witness :
  let gh := tracker_of (issue (str "T") (str "OPEN")) in
  let w := world_with (str "5-a.json") (Meta (record (str "T") (str "open") [bug] [])) in
  fst (run (main gh (Push (Number 5))) empty_world) = 1%Z /\
  fst (run (main gh (Diff (Some 5%N))) empty_world) = 1%Z /\
  fst (run (main gh (Diff (Some 5%N))) w) = 1%Z /\
  exists tr,
    trace (snd (run (main gh (Push (Number 5))) w)) =
    trace w ++ [Out (OutPushing 5); Spawn (IssueEdit 5 (Some (str "T")) None)] ++ tr.
Proof.
  intros gh w. split; [|split; [|split]].
  4: { apply (proj2 (proj2 missing_local_files) gh 5%N w
                {| json_path := str "5-a.json"; md_path := str "5-a.md";
                   slug := str "a" |}
                (record (str "T") (str "open") [bug] [])
                (Some (JStr (str "T"))) (Some (str "T")));
       reflexivity. }
  - destruct (proj1 missing_local_files gh 5%N empty_world) as [-> _];
      reflexivity.
  - destruct (proj1 missing_local_files gh 5%N empty_world) as [_ ->];
      reflexivity.
  - destruct (proj1 (proj2 missing_local_files) gh 5%N w
                {| json_path := str "5-a.json"; md_path := str "5-a.md";
                   slug := str "a" |}) as [e ->];
      reflexivity.
Defined.

(** C9, as the specification states it, fails: [diff 5] without a local
    record of issue 5 ends with exit code 1. *)
Lemma diff_without_record_exits_1 :
  fst (run (main (tracker_of (issue (str "T") (str "OPEN"))) (Diff (Some 5%N)))
         empty_world) = 1%Z.
Proof. reflexivity. Qed.

(** C9, amended: an invocation of diff with an identifier (an issue number
    that the script reads and prints exactly, up to 2^53 - 1) whose local
    record is there (a metadata file the script can read, its labels an
    array, and the body file), whose title, state and labels can be printed
    (none of them an object with a property [toString] of its own, on which
    printing throws), and whose remote issue can be fetched ends with exit
    code 0, whether or not differences are found; it changes no file and
    issues no remote command other than the fetch.  Without a local record it
    ends with exit code 1. *)
Theorem diff_exit_code :
  (forall (gh : tracker) (n : N) (w : world) (files : issue_files)
          (localJson : json) (c : content) (ghIssue : gh_issue)
          (labels : option json) (items : list json),
     safe_integer n = true ->
     findIssueFiles (dir w) n = Some files ->
     lookup_file (dir w) (json_path files) = Some (Meta localJson) ->
     lookup_file (dir w) (md_path files) = Some c ->
     gh (IssueView n) = Some (Snapshot ghIssue) ->
     prop localJson (str "labels") = Some labels ->
     or_else labels (JArr []) = JArr items ->
     (forall t, prop localJson (str "title") = Some (Some t) ->
                to_string_throws t = false) ->
     (forall t, prop localJson (str "state") = Some (Some t) ->
                to_string_throws t = false) ->
     Forall (fun x => to_string_throws x = false) items ->
     exists report,
       run (main gh (Diff (Some n))) w =
       (0%Z, {| dir := dir w;
                trace := trace w ++ [Out (OutDiffFor n); Spawn (IssueView n)]
                         ++ map Out report |})) /\
  (forall (gh : tracker) (n : N) (w : world),
     findIssueFiles (dir w) n = None ->
     fst (run (main gh (Diff (Some n))) w) = 1%Z).
Proof.
  split; [|intros gh n w Hnone;
           now destruct (no_record_is_fatal gh n w Hnone) as [_ ->]].
  intros gh n w files localJson c ghIssue labels items.
  intros _ Hfiles Hjson Hmd Hgh Hlabels Harr _ _ _. cbn [main].
  assert (Hprops : exists title state,
            prop localJson (str "title") = Some title /\
            prop localJson (str "state") = Some state)
    by (destruct localJson; try discriminate; cbn; eauto).
  destruct Hprops as (title & state & Htitle & Hstate).
  unfold run, diff, fetchIssue, exec, parse_snapshot, readJson, readMd, as_array,
    or_type_error, console_log, console_error, process_exit, throw, emit,
    get_dir, bind, ret.
  cbn [dir trace]. rewrite Hfiles. cbv beta iota zeta. cbn [dir trace].
  rewrite Hjson. cbv beta iota zeta. cbn [dir trace].
  rewrite Hmd. cbv beta iota zeta. cbn [dir trace].
  rewrite Hgh. cbv beta iota zeta. cbn [dir trace].
  rewrite Htitle, Hstate, Hlabels. cbv beta iota zeta. rewrite Harr.
  cbv beta iota zeta. cbn [dir trace].
  generalize (metaDiffs title state (sort_values items) ghIssue).
  generalize (negb (jstring_eqb (trim (file_text c))
                      (trim (body_or_empty (body ghIssue))))).
  intros differs [|d diffs]; destruct differs.
  all: try (exists [OutInSync]; cbv beta iota zeta; cbn [dir trace map];
            now rewrite <- !app_assoc).
  all: rewrite log_each_done; cbv beta iota zeta; cbn [dir trace].
  - exists [OutBody (trim (file_text c)) (trim (body_or_empty (body ghIssue)))].
    cbn [map]. now rewrite <- !app_assoc.
  - exists (OutMetadata d :: map OutMetadata diffs
            ++ [OutBody (trim (file_text c)) (trim (body_or_empty (body ghIssue)))]).
    cbn [map]. rewrite map_app. cbn [map]. now rewrite <- !app_assoc.
  - exists (OutMetadata d :: map OutMetadata diffs).
    cbn [map]. now rewrite <- !app_assoc.
Qed.

Lemma diff_exit_code_witness :
  let local := record (str "Old") (str "closed") [] [] in
  let w := {| dir := [(str "5-a.json", Meta local); (str "5-a.md", Text (str "x"))];
              trace := [] |} in
  let gh := tracker_of (issue (str "T") (str "OPEN")) in
  exists report,
    run (main gh (Diff (Some 5%N))) w =
    (0%Z, {| dir := dir w;
             trace := trace w ++ [Out (OutDiffFor 5); Spawn (IssueView 5)]
                      ++ map Out report |}).
Proof.
  intros local w gh.
  apply (proj1 diff_exit_code gh 5%N w
           {| json_path := str "5-a.json"; md_path := str "5-a.md"; slug := str "a" |}
           local (Text (str "x")) (issue (str "T") (str "OPEN"))
           (Some (JArr [])) []);
    try (vm_compute; reflexivity).
  - intros t Ht. vm_compute in Ht. injection Ht as <-. reflexivity.
  - intros t Ht. vm_compute in Ht. injection Ht as <-. reflexivity.
  - constructor.
Defined.

End PushDiff.

(** ** The numbers of the local records: [findAllIssueNumbers] *)
Section IssueNumbers.

Lemma insert_sorted_In {A : Type} (leb : A -> A -> bool) (x y : A) (l : list A) :
  In y (insert_sorted leb x l) <-> y = x \/ In y l.
Proof.
  induction l as [|z r IH]; cbn [insert_sorted].
  - cbn. intuition congruence.
  - destruct (leb x z); cbn [In]; [|rewrite IH]; intuition congruence.
Qed.

Lemma sort_by_In {A : Type} (leb : A -> A -> bool) (l : list A) (y : A) :
  In y (sort_by leb l) <-> In y l.
Proof.
  induction l as [|x r IH]; [reflexivity|].
  unfold sort_by in *. cbn [fold_right In]. rewrite insert_sorted_In, IH.
  intuition congruence.
Qed.

Lemma insert_sorted_ascending (x : N) (l : list N) :
  ascending l -> ~ In x l -> ascending (insert_sorted N.leb x l).
Proof.
  unfold ascending. induction 1 as [|y r Hr IH Hy]; intros Hx; cbn [insert_sorted].
  - repeat constructor.
  - destruct (N.leb_spec x y) as [Hle|Hgt].
    + assert (Hlt : (x < y)%N) by (cbn in Hx; lia).
      constructor; [now constructor|]. constructor; [exact Hlt|].
      eapply List.Forall_impl; [|exact Hy]. cbn. intros; lia.
    + constructor.
      * apply IH. cbn in Hx. tauto.
      * apply List.Forall_forall. intros z Hz. apply insert_sorted_In in Hz.
        destruct Hz as [->|Hz]; [exact Hgt|].
        rewrite List.Forall_forall in Hy. now apply Hy.
Qed.

Lemma sort_by_ascending (l : list N) : List.NoDup l -> ascending (sort_by N.leb l).
Proof.
  induction 1 as [|x r Hx Hr IH]; [constructor|].
  unfold sort_by in *. cbn [fold_right]. apply insert_sorted_ascending; [exact IH|].
  fold (sort_by N.leb r). now rewrite sort_by_In.
Qed.

Lemma existsb_eqb_In (n : N) (seen : list N) :
  existsb (N.eqb n) seen = true <-> In n seen.
Proof.
  rewrite existsb_exists. split.
  - intros (x & Hx & E). apply N.eqb_eq in E. now subst.
  - intros H. exists n. split; [exact H|apply N.eqb_refl].
Qed.

Lemma set_add_all_spec (files : list jstring) : forall seen,
  List.NoDup seen ->
  List.NoDup (set_add_all seen files) /\
  forall n, In n (set_add_all seen files) <->
            In n seen \/ exists f, In f files /\ issue_number_of f = Some n.
Proof.
  induction files as [|f rest IH]; intros seen Hseen; cbn [set_add_all].
  - split; [exact Hseen|]. intros n. split; [tauto|].
    intros [H|(f & [] & _)]. exact H.
  - destruct (issue_number_of f) as [m|] eqn:Em.
    + destruct (existsb (N.eqb m) seen) eqn:Eseen.
      * apply existsb_eqb_In in Eseen.
        destruct (IH seen Hseen) as [Hnd Hin]. split; [exact Hnd|].
        intros n. rewrite Hin. split.
        -- intros [H|(g & Hg & Eg)]; [tauto|]. right. exists g. cbn. tauto.
        -- intros [H|(g & [<-|Hg] & Eg)]; [tauto| |right; eauto].
           left. congruence.
      * assert (Hm : ~ In m seen).
        { intros H. apply existsb_eqb_In in H. congruence. }
        assert (Hnd' : List.NoDup (seen ++ [m])).
        { apply List.NoDup_app; repeat split; auto.
          - repeat constructor. cbn. tauto.
          - intros x Hx [<-|[]]. tauto. }
        destruct (IH (seen ++ [m]) Hnd') as [Hnd Hin]. split; [exact Hnd|].
        intros n. rewrite Hin, in_app_iff. cbn [In]. split.
        -- intros [[H|[<-|[]]]|(g & Hg & Eg)]; [tauto| |right; exists g; tauto].
           right. exists f. tauto.
        -- intros [H|(g & [<-|Hg] & Eg)]; [tauto| |right; eauto].
           left. right. left. congruence.
    + destruct (IH seen Hseen) as [Hnd Hin]. split; [exact Hnd|].
      intros n. rewrite Hin. split.
      * intros [H|(g & Hg & Eg)]; [tauto|]. right. exists g. cbn. tauto.
      * intros [H|(g & [<-|Hg] & Eg)]; [tauto|congruence|right; eauto].
Qed.

Lemma findAllIssueNumbers_In (d : directory) (n : N) :
  In n (findAllIssueNumbers d) <->
  exists f, In f (readdirSync d) /\ issue_number_of f = Some n.
Proof.
  unfold findAllIssueNumbers. rewrite sort_by_In.
  destruct (set_add_all_spec (readdirSync d) [] (List.NoDup_nil _)) as [_ H].
  rewrite H. cbn. split; [intros [[]|H']; exact H'|tauto].
Qed.

Lemma ascending_NoDup (l : list N) : ascending l -> List.NoDup l.
Proof.
  induction 1 as [|x r Hr IH Hx]; constructor; [|exact IH].
  intros Hin. rewrite List.Forall_forall in Hx. specialize (Hx x Hin). lia.
Qed.

(** X1: in a directory whose file names carry numbers up to 2^53 - 1, the
    numbers [findAllIssueNumbers] returns are strictly ascending, so each
    stands once, and they are the numbers read from the names of the
    directory that match the pattern of a metadata file. *)
Theorem findAllIssueNumbers_ascending (d : directory) :
  (forall f n, In f (readdirSync d) -> issue_number_of f = Some n ->
               safe_integer n = true) ->
  ascending (findAllIssueNumbers d) /\
  List.NoDup (findAllIssueNumbers d) /\
  forall n, In n (findAllIssueNumbers d) <->
            exists f, In f (readdirSync d) /\ issue_number_of f = Some n.
Proof.
  intros _.
  assert (H : ascending (findAllIssueNumbers d)).
  { apply sort_by_ascending.
    apply (set_add_all_spec (readdirSync d) [] (List.NoDup_nil _)). }
  split; [exact H|]. split; [now apply ascending_NoDup|].
  apply findAllIssueNumbers_In.
Qed.

Lemma findAllIssueNumbers_ascending_witness :
  findAllIssueNumbers [(str "7-b.json", Meta (JObj [])); (str "3-a.json", Meta (JObj []));
                       (str "3-a.md", Text []); (str "03-c.json", Meta (JObj []))]
  = [3%N; 7%N] /\
  ascending [3%N; 7%N].
Proof.
  split; [reflexivity|].
  change [3%N; 7%N]
    with (findAllIssueNumbers
            [(str "7-b.json", Meta (JObj [])); (str "3-a.json", Meta (JObj []));
             (str "3-a.md", Text []); (str "03-c.json", Meta (JObj []))]).
  apply findAllIssueNumbers_ascending.
  intros f n Hf Hn. cbn [readdirSync map fst In] in Hf.
  repeat (destruct Hf as [<-|Hf];
          [vm_compute in Hn; try discriminate Hn; injection Hn as <-; reflexivity|]).
  destruct Hf.
Defined.

Lemma parse_digits_acc (d : Decimal.uint) : forall acc : positive,
  fold_left (fun acc c => (10 * acc + (code c - 48))%N)
    (str (NilEmpty.string_of_uint d)) (N.pos acc)
  = N.pos (Pos.of_uint_acc d acc).
Proof.
  induction d; intros acc; cbn [NilEmpty.string_of_uint str list_ascii_of_string
                                 fold_left Pos.of_uint_acc];
    try reflexivity;
    match goal with
    | |- fold_left _ _ ?a = _ =>
        match goal with
        | |- _ = N.pos (Pos.of_uint_acc _ ?b) =>
            replace a with (N.pos b) by (vm_compute code; lia)
        end
    end; apply IHd.
Qed.

Lemma parse_digits_of_uint (d : Decimal.uint) :
  parse_digits (str (NilEmpty.string_of_uint d)) = N.of_uint d.
Proof.
  unfold parse_digits, N.of_uint.
  induction d; cbn [NilEmpty.string_of_uint str list_ascii_of_string
                     fold_left Pos.of_uint];
    try reflexivity;
    try (match goal with
         | |- fold_left _ _ ?a = N.pos (Pos.of_uint_acc _ ?b) =>
             replace a with (N.pos b) by (vm_compute; reflexivity)
         end; apply parse_digits_acc).
  replace (10 * 0 + (code "0" - 48))%N with 0%N by (vm_compute; reflexivity).
  exact IHd.
Qed.

Lemma parse_digits_decimal (n : N) : parse_digits (decimal n) = n.
Proof.
  unfold decimal. rewrite parse_digits_of_uint. apply DecimalN.Unsigned.of_to.
Qed.

End IssueNumbers.

(** ** A record that is found is a record that is listed *)
Section Listing.

Lemma issue_pattern_number (n : N) (f : jstring) :
  issue_pattern n f = true -> issue_number_of f = Some n.
Proof.
  unfold issue_pattern. cbv zeta. intros H.
  apply andb_true_iff in H. destruct H as [H Hdot].
  apply andb_true_iff in H. destruct H as [Hstart Hend].
  apply startsWith_inv in Hstart. destruct Hstart as [r ->].
  rewrite drop_app_length in Hend, Hdot.
  unfold issue_number_of. rewrite <- app_assoc. cbn [app].
  destruct (take_while_prefix is_digit (decimal n) HYPHEN r (decimal_digits n) eq_refl)
    as [-> ->].
  destruct (decimal_nonempty n) as (c & ds & E & _). rewrite E.
  rewrite char_eqb_refl, Hend, Hdot. cbn [andb]. now rewrite <- E, parse_digits_decimal.
Qed.

Lemma found_is_listed (d : directory) (n : N) (files : issue_files) :
  findIssueFiles d n = Some files -> In n (findAllIssueNumbers d).
Proof.
  intros H. apply findIssueFiles_inv in H. destruct H as (H & _ & _).
  apply find_some in H. destruct H as [Hin Hpat].
  apply findAllIssueNumbers_In. exists (json_path files).
  split; [exact Hin|now apply issue_pattern_number].
Qed.

(** What a completed pull leaves in the directory: the record of the issue,
    its metadata made of the remote fields, the local-only fields that were
    there and the closing fields, and its body file. *)
Lemma pull_leaves_record (gh : tracker) (n : N) (w w1 : world) :
  pull gh n w = (Done tt, w1) ->
  exists ghIssue files props,
    gh (IssueView n) = Some (Snapshot ghIssue) /\
    findIssueFiles (dir w1) n = Some files /\
    md_path files <> json_path files /\
    lookup_file (dir w1) (json_path files)
    = Some (Meta (JObj (remote_fields ghIssue ++ carried props
                        ++ closing_fields n files ghIssue
                             (obj_get props (str "body_file"))))) /\
    lookup_file (dir w1) (md_path files)
    = Some (Text (normalized (body_or_empty (body ghIssue)))).
Proof.
  intros H1.
  destruct (pull_done_inv gh n w w1 H1)
    as (ghIssue & files & localJson & m & Hgh & Hfiles & Hlocal & Hm & Hdir).
  assert (Hdiff : md_path files <> json_path files).
  { destruct (findIssueFiles (dir w) n) eqn:Ef; subst files.
    - eapply found_files_differ, Ef.
    - apply new_files_differ. }
  assert (Hfound : findIssueFiles (dir w1) n = Some files).
  { rewrite Hdir. destruct (findIssueFiles (dir w) n) eqn:Ef; subst files.
    - now apply findIssueFiles_write, findIssueFiles_write.
    - now apply findIssueFiles_new. }
  destruct (merged_shape n files ghIssue localJson m Hm) as (props & -> & _).
  exists ghIssue, files, props. repeat split; auto.
  - rewrite Hdir, lookup_write_other, lookup_write_same; auto.
  - rewrite Hdir. apply lookup_write_same.
Qed.

(** X2: for an issue number up to 2^53 - 1, a record that [findIssueFiles]
    finds for the number is listed under that number by
    [findAllIssueNumbers]; so the record of a completed pull is among the
    records that [pull --all], [push --all] and [status] go through. *)
Theorem found_record_is_listed :
  (forall (d : directory) (n : N) (files : issue_files),
     safe_integer n = true ->
     findIssueFiles d n = Some files -> In n (findAllIssueNumbers d)) /\
  (forall (gh : tracker) (n : N) (w w' : world),
     safe_integer n = true ->
     pull gh n w = (Done tt, w') -> In n (findAllIssueNumbers (dir w'))).
Proof.
  split.
  - intros d n files _. apply found_is_listed.
  - intros gh n w w' _ H.
    destruct (pull_leaves_record gh n w w' H) as (i & files & props & _ & Hf & _).
    eapply found_is_listed, Hf.
Qed.

Lemma found_record_is_listed_witness :
  In 5%N (findAllIssueNumbers [(str "5-a.json", Meta (JObj []))]) /\
  In 5%N (findAllIssueNumbers
            (dir (snd (pull (tracker_of (issue kafka_title (str "OPEN"))) 5 empty_world)))).
Proof.
  split.
  - apply (proj1 found_record_is_listed _ 5%N
             {| json_path := str "5-a.json"; md_path := str "5-a.md"; slug := str "a" |});
      reflexivity.
  - apply (proj2 found_record_is_listed
             (tracker_of (issue kafka_title (str "OPEN"))) 5%N empty_world);
      [reflexivity|]. vm_compute. reflexivity.
Defined.

(** X3: the converse fails for a name whose number has leading zeros: the
    record is listed under the number and not found for it.  With such a
    number first in the list, [status] ends on the [TypeError] of reading
    [files.json] from [null], with exit code 1 and before any remote command;
    [push --all] ends with exit code 1 on the missing record. *)
Theorem listed_number_without_record (gh : tracker) (w : world) (n : N) (rest : list N) :
  findAllIssueNumbers (dir w) = n :: rest ->
  findIssueFiles (dir w) n = None ->
  run (main gh Status) w =
    (1%Z, {| dir := dir w;
             trace := trace w ++ [Out OutStatusFor; Err (ErrUncaught TypeError)] |}) /\
  run (main gh (Push All)) w =
    (1%Z, {| dir := dir w;
             trace := trace w ++ [Out (OutPushing n); Err (ErrNoLocalFiles n)] |}).
Proof.
  intros Hall Hnone. cbn [main]. split.
  - unfold run, status, bind, console_log, emit, get_dir. cbn [dir trace].
    rewrite Hall. cbn [for_each]. unfold status_issue, bind, get_dir. cbn [dir trace].
    rewrite Hnone. cbn. now rewrite <- app_assoc.
  - unfold run, bind, get_dir. rewrite Hall. cbn [for_each].
    unfold push, bind, console_log, console_error, emit, get_dir, process_exit.
    cbn [dir trace]. rewrite Hnone. cbn. now rewrite <- app_assoc.
Qed.

Lemma listed_number_without_record_witness :
  let w := world_with (str "007-a.json") (Meta (JObj [])) in
  findAllIssueNumbers (dir w) = [7%N] /\
  findIssueFiles (dir w) 7 = None /\
  fst (run (main (tracker_of (issue (str "T") (str "OPEN"))) Status) w) = 1%Z.
Proof.
  intros w. split; [reflexivity|]. split; [reflexivity|].
  destruct (listed_number_without_record (tracker_of (issue (str "T") (str "OPEN")))
              w 7%N []) as [-> _]; reflexivity.
Defined.

End Listing.

(** ** The number of a new record: [create] *)
Section NextNumber.

Lemma max_bound (l : list N) (n : N) : In n l -> (n <= fold_right N.max 0 l)%N.
Proof.
  induction l as [|x r IH]; [intros []|].
  cbn [In fold_right]. intros [->|H]; [lia|]. specialize (IH H). lia.
Qed.

Lemma nextNumber_above (l : list N) (n : N) : In n l -> (n < nextNumber l)%N.
Proof.
  intros H. pose proof (max_bound l n H) as Hle.
  unfold nextNumber. destruct l; [destruct H|]. lia.
Qed.

Lemma file_name_number (n : N) (slug : jstring) :
  forallb dot slug = true ->
  issue_number_of (file_name n slug (str ".json")) = Some n.
Proof.
  intros Hdot. apply issue_pattern_number.
  unfold issue_pattern, file_name. cbv zeta.
  replace (decimal n ++ [HYPHEN] ++ slug ++ str ".json")
    with ((decimal n ++ [HYPHEN]) ++ slug ++ str ".json") by now rewrite <- app_assoc.
  rewrite startsWith_app, drop_app_length, endsWith_app, forallb_app, Hdot.
  reflexivity.
Qed.

(** X4: in a directory whose numbers are at most 2^53 - 1, the number
    [create] takes for a new record lies above every number of the directory,
    so no record carries it; and for a slug without a line break and without
    a path separator the metadata file of the new record is never there, so
    that the test that ends [create] with exit code 1 cannot succeed.  With
    a line break in the slug the file can be there. *)
Theorem create_number_is_fresh :
  (forall (d : directory) (n : N),
     (forall k, In k (findAllIssueNumbers d) -> safe_integer k = true) ->
     In n (findAllIssueNumbers d) -> (n < nextNumber (findAllIssueNumbers d))%N) /\
  (forall d : directory,
     (forall k, In k (findAllIssueNumbers d) -> safe_integer k = true) ->
     ~ In (nextNumber (findAllIssueNumbers d)) (findAllIssueNumbers d)) /\
  (forall (d : directory) (slug : jstring),
     (forall k, In k (findAllIssueNumbers d) -> safe_integer k = true) ->
     plain_slug slug = true -> already_exists d slug = false) /\
  already_exists [(str "1-a" ++ NEWLINE :: str ".json", Text [])]
    (str "a" ++ [NEWLINE]) = true.
Proof.
  split; [|split; [|split]].
  - intros d n _. apply nextNumber_above.
  - intros d _ H. apply nextNumber_above in H. lia.
  - intros d slug _ Hplain.
    assert (Hdot : forallb dot slug = true).
    { unfold plain_slug in Hplain. rewrite forallb_forall in *.
      intros c Hc. specialize (Hplain c Hc). now apply andb_true_iff in Hplain. }
    unfold already_exists, existsSync, jsonFile.
    destruct (lookup_file d _) as [c|] eqn:E; [|reflexivity].
    apply lookup_file_listed in E.
    assert (Hin : In (nextNumber (findAllIssueNumbers d)) (findAllIssueNumbers d)).
    { apply findAllIssueNumbers_In. eexists. split; [exact E|].
      now apply file_name_number. }
    apply nextNumber_above in Hin. lia.
  - reflexivity.
Qed.

Lemma create_number_is_fresh_witness :
  let d := [(str "3-a.json", Meta (JObj [])); (str "7-b.json", Meta (JObj []))] in
  (7 < nextNumber (findAllIssueNumbers d))%N /\
  already_exists d (str "b") = false.
Proof.
  intros d.
  assert (Hsafe : forall k, In k (findAllIssueNumbers d) -> safe_integer k = true).
  { intros k Hk. vm_compute in Hk. destruct Hk as [<-|[<-|[]]]; reflexivity. }
  split.
  - apply (proj1 create_number_is_fresh d 7%N Hsafe). vm_compute. tauto.
  - apply (proj1 (proj2 (proj2 create_number_is_fresh)) d (str "b") Hsafe).
    reflexivity.
Defined.

End NextNumber.

(** ** A slug is its own slug *)
Section SlugFixedPoint.

Lemma slug_char_fixed (c : ascii) :
  is_az09 c = true \/ c = HYPHEN ->
  lower_char c = c /\ char_eqb c LBRACKET = false /\ is_trim_char c = false.
Proof.
  intros [H| ->]; [|now vm_compute].
  revert H. destruct c as [[] [] [] [] [] [] [] []]; vm_compute; intros H;
    try discriminate H; auto.
Qed.

Lemma remove_tags_without_bracket (s : jstring) :
  Forall (fun c => char_eqb c LBRACKET = false) s -> remove_tags s = s.
Proof.
  unfold remove_tags. induction 1 as [|c r Hc Hr IH]; [reflexivity|].
  cbn [remove_tags_from]. now rewrite Hc, IH.
Qed.

Lemma drop_while_head (p : ascii -> bool) (s : jstring) :
  Forall (fun c => p c = false) s -> drop_while p s = s.
Proof. destruct 1 as [|c r Hc Hr]; [reflexivity|]. cbn. now rewrite Hc. Qed.

Lemma trim_without_blanks (s : jstring) :
  Forall (fun c => is_trim_char c = false) s -> trim s = s.
Proof.
  intros H. unfold trim, trimEnd, trimStart.
  rewrite (drop_while_head _ s H), drop_while_head; [apply rev_involutive|].
  apply List.Forall_forall. intros c Hc. apply in_rev in Hc.
  rewrite List.Forall_forall in H. now apply H.
Qed.

Lemma hyphenate_apart (s : jstring) :
  Forall (fun c => is_az09 c = true \/ c = HYPHEN) s ->
  hyphens_apart s ->
  hyphenate_from false s = s /\
  ((forall r, s <> HYPHEN :: r) -> hyphenate_from true s = s).
Proof.
  induction 1 as [|c r Hc Hr IH]; intros Ha; [split; reflexivity|].
  pose proof (hyphens_apart_tail _ _ Ha) as Har.
  destruct (IH Har) as [IH1 IH2]. cbn [hyphenate_from].
  destruct (is_az09 c) eqn:Ec.
  - rewrite IH1. split; reflexivity.
  - destruct Hc as [Hc| ->]; [congruence|]. split.
    + rewrite IH2; [reflexivity|]. intros r' ->. now apply (Ha [] r').
    + intros Hhead. now destruct (Hhead r).
Qed.

Lemma trim_hyphen_bare (s : jstring) :
  (forall r, s <> HYPHEN :: r) -> (forall r, s <> r ++ [HYPHEN]) -> trim_hyphen s = s.
Proof.
  intros Hhead Hlast. unfold trim_hyphen.
  destruct (drop_first_hyphen_cases s) as [[-> _]|E]; [|now destruct (Hhead _ E)].
  destruct (drop_last_hyphen_cases s) as [[-> _]|E]; [reflexivity|].
  now destruct (Hlast _ E).
Qed.

Lemma slugify_of_slug (s : jstring) :
  Forall (fun c => is_az09 c = true \/ c = HYPHEN) s ->
  (forall r, s <> HYPHEN :: r) ->
  (forall r, s <> r ++ [HYPHEN]) ->
  hyphens_apart s ->
  slugify s = s.
Proof.
  intros Hc Hhead Hlast Ha. unfold slugify.
  assert (Hlow : toLowerCase s = s).
  { clear - Hc. unfold toLowerCase. induction Hc as [|c r Hc Hr IH]; [reflexivity|].
    cbn [map]. now rewrite (proj1 (slug_char_fixed c Hc)), IH. }
  rewrite Hlow.
  rewrite remove_tags_without_bracket
    by (eapply List.Forall_impl; [|exact Hc]; intros c H; apply (slug_char_fixed c H)).
  rewrite trim_without_blanks
    by (eapply List.Forall_impl; [|exact Hc]; intros c H; apply (slug_char_fixed c H)).
  unfold hyphenate. rewrite (proj1 (hyphenate_apart s Hc Ha)).
  now apply trim_hyphen_bare.
Qed.

(** X5: [slugify] leaves a slug as it is: a text of the characters a-z, 0-9
    and the hyphen in which no hyphen stands first, last or beside another
    one is its own slug; so the slug of a slug is that slug, whatever the
    title. *)
Theorem slugify_idempotent :
  (forall s : jstring,
     Forall (fun c => is_az09 c = true \/ c = HYPHEN) s ->
     (forall r, s <> HYPHEN :: r) ->
     (forall r, s <> r ++ [HYPHEN]) ->
     hyphens_apart s ->
     slugify s = s) /\
  (forall title : jstring, slugify (slugify title) = slugify title).
Proof.
  split; [exact slugify_of_slug|].
  intros title.
  assert (Ha : hyphens_apart (hyphenate (trim (remove_tags (toLowerCase title)))))
    by (intros a r; apply (hyphenate_from_apart _ false)).
  destruct (hyphens_apart_drop_first _ Ha) as [Ha1 Hhead].
  destruct (hyphens_apart_drop_last _ Ha1) as [Ha2 Hlast].
  apply slugify_of_slug.
  - apply slugify_chars.
  - unfold slugify, trim_hyphen. now apply drop_last_hyphen_keeps_head.
  - exact Hlast.
  - exact Ha2.
Qed.

Lemma slugify_idempotent_witness : slugify (str "kafka-migration") = str "kafka-migration".
Proof.
  apply (proj1 slugify_idempotent (str "kafka-migration")).
  - apply List.Forall_forall. intros c Hc.
    repeat (destruct Hc as [<-|Hc]; [(left; reflexivity) || (right; reflexivity)|]).
    destruct Hc.
  - intros r. discriminate.
  - intros r E. apply (f_equal (@rev ascii)) in E. rewrite rev_app_distr in E.
    discriminate E.
  - intros a r E.
    assert (H : forall s : jstring, s = a ++ HYPHEN :: HYPHEN :: r ->
                existsb (fun p => char_eqb (fst p) HYPHEN && char_eqb (snd p) HYPHEN)
                  (combine s (tl s)) = true).
    { intros s ->. clear E. induction a as [|x a IH]; [reflexivity|].
      destruct a; cbn [app tl combine existsb fst snd] in *; rewrite IH;
        apply orb_true_r. }
    specialize (H _ E). vm_compute in H. discriminate H.
Defined.

End SlugFixedPoint.

(** ** The line diff: [showLineDiff] *)
Section LineDiffProperties.

Variables localLines remoteLines : list jstring.

Lemma nonempty_iff (s : jstring) : nonempty s = true <-> s <> [].
Proof. destruct s; cbn; split; congruence. Qed.

Lemma nonempty_false (s : jstring) : nonempty s = false <-> s = [].
Proof. destruct s; cbn; split; congruence. Qed.

Lemma line_diff_loop_nil_iff : forall steps i,
  line_diff_loop localLines remoteLines steps i false = [] <->
  forall j, (i <= j < i + steps)%nat ->
            line_or_empty localLines j = line_or_empty remoteLines j.
Proof.
  induction steps as [|steps IH]; intros i.
  - cbn. split; [|reflexivity]. intros _ j Hj. lia.
  - cbn [line_diff_loop]. cbv zeta.
    destruct (jstring_eqb (line_or_empty localLines i) (line_or_empty remoteLines i))
      eqn:E; cbn [negb].
    + apply jstring_eqb_eq in E. rewrite IH. split.
      * intros H j Hj. destruct (Nat.eq_dec j i) as [->|Hne]; [exact E|].
        apply H. lia.
      * intros H j Hj. apply H. lia.
    + apply jstring_eqb_neq in E. rewrite !orb_true_r, !andb_true_r. split.
      * intros H. exfalso.
        destruct (nonempty (line_or_empty remoteLines i)) eqn:Er.
        { destruct i; discriminate H. }
        destruct (nonempty (line_or_empty localLines i)) eqn:El.
        { destruct i; discriminate H. }
        apply nonempty_false in Er, El. congruence.
      * intros H. exfalso. apply E, H. lia.
Qed.

Lemma line_diff_loop_short : forall steps i b,
  Forall (fun l => (length (text_of l) <= 70)%nat)
    (line_diff_loop localLines remoteLines steps i b).
Proof.
  assert (Htake : forall s, (length (substring_0_70 s) <= 70)%nat)
    by (intros s; unfold substring_0_70; rewrite length_take; lia).
  assert (Hctx : forall j, (length (context_before localLines j) <= 70)%nat).
  { intros j. unfold context_before. destruct (localLines !! j); [apply Htake|cbn; lia]. }
  induction steps as [|steps IH]; intros i b; [constructor|].
  cbn [line_diff_loop]. cbv zeta.
  destruct (negb _).
  - repeat apply Forall_app_2; try apply IH.
    + destruct b; [constructor|]. destruct i; [constructor|].
      constructor; [apply Hctx|constructor].
    + destruct (_ && _); [|constructor]. constructor; [apply Htake|constructor].
    + destruct (_ && _); [|constructor]. constructor; [apply Htake|constructor].
  - destruct b; [|apply IH].
    constructor; [apply Htake|]. constructor; [cbn; lia|apply IH].
Qed.

Lemma line_diff_loop_removed (k : nat) (t : jstring) : forall steps i b,
  In (Removed k t) (line_diff_loop localLines remoteLines steps i b) <->
  exists j, (i <= j < i + steps)%nat /\ k = S j /\
            line_or_empty localLines j <> line_or_empty remoteLines j /\
            line_or_empty remoteLines j <> [] /\
            t = substring_0_70 (line_or_empty remoteLines j).
Proof.
  induction steps as [|steps IH]; intros i b.
  - cbn. split; [tauto|]. intros (j & Hj & _). lia.
  - cbn [line_diff_loop]. cbv zeta.
    destruct (jstring_eqb (line_or_empty localLines i) (line_or_empty remoteLines i))
      eqn:E; cbn [negb].
    + apply jstring_eqb_eq in E.
      assert (Hskip :
        In (Removed k t)
          (if b
           then Context (S i) (substring_0_70 (line_or_empty localLines i)) :: Blank
                  :: line_diff_loop localLines remoteLines steps (S i) false
           else line_diff_loop localLines remoteLines steps (S i) false)
        <-> In (Removed k t) (line_diff_loop localLines remoteLines steps (S i) false)).
      { destruct b; [|reflexivity]. cbn [In]. split; [|tauto].
        intros [H|[H|H]]; [discriminate H|discriminate H|exact H]. }
      rewrite Hskip, IH. split.
      * intros (j & Hj & Hrest). exists j. split; [lia|exact Hrest].
      * intros (j & Hj & Hk & Hne & Hrest). exists j. split; [|tauto].
        destruct (Nat.eq_dec j i) as [->|Hji]; [contradiction|lia].
    + apply jstring_eqb_neq in E. rewrite !orb_true_r, !andb_true_r.
      rewrite !in_app_iff, IH. split.
      * intros [H|[H|[H|H]]].
        -- destruct b; [destruct H|]. destruct i; [destruct H|].
           destruct H as [H|[]]. discriminate H.
        -- destruct (nonempty (line_or_empty remoteLines i)) eqn:Er; [|destruct H].
           destruct H as [H|[]]. inversion H; subst. exists i.
           apply nonempty_iff in Er. repeat split; auto; lia.
        -- destruct (nonempty (line_or_empty localLines i)); [|destruct H].
           destruct H as [H|[]]. discriminate H.
        -- destruct H as (j & Hj & Hrest). exists j. split; [lia|exact Hrest].
      * intros (j & Hj & Hk & Hne & Hr & Ht).
        destruct (Nat.eq_dec j i) as [->|Hji].
        -- right. left. apply nonempty_iff in Hr. rewrite Hr. subst. now left.
        -- right. right. right. exists j. split; [lia|tauto].
Qed.

Lemma line_diff_loop_added (k : nat) (t : jstring) : forall steps i b,
  In (Added k t) (line_diff_loop localLines remoteLines steps i b) <->
  exists j, (i <= j < i + steps)%nat /\ k = S j /\
            line_or_empty localLines j <> line_or_empty remoteLines j /\
            line_or_empty localLines j <> [] /\
            t = substring_0_70 (line_or_empty localLines j).
Proof.
  induction steps as [|steps IH]; intros i b.
  - cbn. split; [tauto|]. intros (j & Hj & _). lia.
  - cbn [line_diff_loop]. cbv zeta.
    destruct (jstring_eqb (line_or_empty localLines i) (line_or_empty remoteLines i))
      eqn:E; cbn [negb].
    + apply jstring_eqb_eq in E.
      assert (Hskip :
        In (Added k t)
          (if b
           then Context (S i) (substring_0_70 (line_or_empty localLines i)) :: Blank
                  :: line_diff_loop localLines remoteLines steps (S i) false
           else line_diff_loop localLines remoteLines steps (S i) false)
        <-> In (Added k t) (line_diff_loop localLines remoteLines steps (S i) false)).
      { destruct b; [|reflexivity]. cbn [In]. split; [|tauto].
        intros [H|[H|H]]; [discriminate H|discriminate H|exact H]. }
      rewrite Hskip, IH. split.
      * intros (j & Hj & Hrest). exists j. split; [lia|exact Hrest].
      * intros (j & Hj & Hk & Hne & Hrest). exists j. split; [|tauto].
        destruct (Nat.eq_dec j i) as [->|Hji]; [contradiction|lia].
    + apply jstring_eqb_neq in E. rewrite !orb_true_r, !andb_true_r.
      rewrite !in_app_iff, IH. split.
      * intros [H|[H|[H|H]]].
        -- destruct b; [destruct H|]. destruct i; [destruct H|].
           destruct H as [H|[]]. discriminate H.
        -- destruct (nonempty (line_or_empty remoteLines i)); [|destruct H].
           destruct H as [H|[]]. discriminate H.
        -- destruct (nonempty (line_or_empty localLines i)) eqn:El; [|destruct H].
           destruct H as [H|[]]. inversion H; subst. exists i.
           apply nonempty_iff in El. repeat split; auto; lia.
        -- destruct H as (j & Hj & Hrest). exists j. split; [lia|exact Hrest].
      * intros (j & Hj & Hk & Hne & Hl & Ht).
        destruct (Nat.eq_dec j i) as [->|Hji].
        -- right. right. left. apply nonempty_iff in Hl. rewrite Hl. subst. now left.
        -- right. right. right. exists j. split; [lia|tauto].
Qed.

Lemma line_or_empty_beyond (lines : list jstring) (j : nat) :
  (length lines <= j)%nat -> line_or_empty lines j = [].
Proof. intros H. unfold line_or_empty. now rewrite lookup_ge_None_2. Qed.

End LineDiffProperties.

Section LineDiffTheorems.

Lemma lines_differ_in_range (local remote : jstring) (j : nat) :
  line_or_empty (split_lines local) j <> line_or_empty (split_lines remote) j ->
  (j < Nat.max (length (split_lines local)) (length (split_lines remote)))%nat.
Proof.
  intros Hne.
  destruct (Nat.lt_ge_cases j
              (Nat.max (length (split_lines local)) (length (split_lines remote))))
    as [H|H]; [exact H|].
  exfalso. apply Hne. rewrite !line_or_empty_beyond; [reflexivity|lia|lia].
Qed.

Lemma split_lines_nonempty (s : jstring) : split_lines s <> [].
Proof.
  destruct s as [|c r]; [discriminate|]. cbn [split_lines].
  destruct (char_eqb c NEWLINE); [discriminate|]. destruct (split_lines r); discriminate.
Qed.

Lemma split_lines_snoc_newline (s : jstring) :
  split_lines (s ++ [NEWLINE]) = split_lines s ++ [[]].
Proof.
  induction s as [|c r IH]; [reflexivity|].
  cbn [app split_lines]. destruct (char_eqb c NEWLINE); rewrite IH; [reflexivity|].
  destruct (split_lines r) eqn:E; [now destruct (split_lines_nonempty r)|reflexivity].
Qed.

Lemma showLineDiff_nil_iff (local remote : jstring) :
  showLineDiff local remote = [] <->
  forall i, line_or_empty (split_lines local) i = line_or_empty (split_lines remote) i.
Proof.
  unfold showLineDiff. cbv zeta. rewrite line_diff_loop_nil_iff. split.
  - intros H i.
    destruct (jstring_eqb (line_or_empty (split_lines local) i)
                (line_or_empty (split_lines remote) i)) eqn:E;
      [now apply jstring_eqb_eq|].
    apply jstring_eqb_neq in E. pose proof (lines_differ_in_range _ _ _ E).
    apply H. lia.
  - intros H j _. apply H.
Qed.

(** X6: [showLineDiff] prints nothing exactly when the two texts agree line
    by line, a missing line counting as an empty one; so it prints nothing
    for equal texts, and nothing for a text and the same text with one more
    line break at its end. *)
Theorem showLineDiff_prints_nothing_iff :
  (forall local remote : jstring,
     showLineDiff local remote = [] <->
     forall i, line_or_empty (split_lines local) i
               = line_or_empty (split_lines remote) i) /\
  (forall s : jstring, showLineDiff s s = []) /\
  (forall s : jstring, showLineDiff s (s ++ [NEWLINE]) = []).
Proof.
  split; [exact showLineDiff_nil_iff|]. split.
  - intros s. now apply showLineDiff_nil_iff.
  - intros s. apply showLineDiff_nil_iff. intros i.
    rewrite split_lines_snoc_newline. unfold line_or_empty.
    destruct (Nat.lt_ge_cases i (length (split_lines s))) as [H|H].
    + now rewrite lookup_app_l.
    + rewrite (lookup_ge_None_2 (split_lines s)) by lia.
      destruct (Nat.eq_dec i (length (split_lines s))) as [->|Hne].
      * now rewrite list_lookup_middle.
      * rewrite lookup_ge_None_2; [reflexivity|]. rewrite length_app. cbn. lia.
Qed.

Lemma showLineDiff_prints_nothing_iff_witness :
  showLineDiff (str "a") (str "a" ++ [NEWLINE; NEWLINE]) = [].
Proof.
  apply (proj1 showLineDiff_prints_nothing_iff (str "a") (str "a" ++ [NEWLINE; NEWLINE])).
  intros [|[|[|i]]]; reflexivity.
Defined.

(** X7: no line of [showLineDiff] shows more than 70 characters of a
    text. *)
Theorem showLineDiff_lines_short (local remote : jstring) :
  Forall (fun l => (length (text_of l) <= 70)%nat) (showLineDiff local remote).
Proof. apply line_diff_loop_short. Qed.

(** X8: [showLineDiff] marks a line as removed exactly for a line number at
    which the texts differ and the remote line is not empty, and it shows the
    first 70 characters of that remote line; it marks a line as added exactly
    for a line number at which the texts differ and the local line is not
    empty, with the first 70 characters of the local line. *)
Theorem showLineDiff_marks (local remote : jstring) (k : nat) (t : jstring) :
  let l := line_or_empty (split_lines local) in
  let r := line_or_empty (split_lines remote) in
  (In (Removed k t) (showLineDiff local remote) <->
   exists j, k = S j /\ l j <> r j /\ r j <> [] /\ t = substring_0_70 (r j)) /\
  (In (Added k t) (showLineDiff local remote) <->
   exists j, k = S j /\ l j <> r j /\ l j <> [] /\ t = substring_0_70 (l j)).
Proof.
  intros l r. unfold showLineDiff. cbv zeta.
  rewrite line_diff_loop_removed, line_diff_loop_added. subst l r. split; split.
  - intros (j & _ & H). now exists j.
  - intros (j & Hk & Hne & H). exists j.
    pose proof (lines_differ_in_range _ _ _ Hne). split; [lia|tauto].
  - intros (j & _ & H). now exists j.
  - intros (j & Hk & Hne & H). exists j.
    pose proof (lines_differ_in_range _ _ _ Hne). split; [lia|tauto].
Qed.

Lemma showLineDiff_marks_witness :
  let local := str "a" ++ NEWLINE :: str "b" in
  let remote := str "a" ++ NEWLINE :: str "c" in
  In (Removed 2 (str "c")) (showLineDiff local remote) /\
  In (Added 2 (str "b")) (showLineDiff local remote).
Proof.
  intros local remote. split.
  - apply (proj1 (showLineDiff_marks local remote 2 (str "c"))).
    exists 1%nat. vm_compute. repeat split; congruence.
  - apply (proj2 (showLineDiff_marks local remote 2 (str "b"))).
    exists 1%nat. vm_compute. repeat split; congruence.
Defined.

End LineDiffTheorems.

(** ** The line diff of two trimmed bodies *)
Section TrimmedBodies.

Lemma join_split_lines (s : jstring) : concat_with [NEWLINE] (split_lines s) = s.
Proof.
  induction s as [|c r IH]; [reflexivity|]. cbn [split_lines].
  pose proof (split_lines_nonempty r) as Hne.
  destruct (char_eqb c NEWLINE) eqn:Ec.
  - apply char_eqb_eq in Ec. subst c. cbn [concat_with].
    destruct (split_lines r); [contradiction|]. now rewrite IH.
  - destruct (split_lines r) as [|l ls]; [contradiction|].
    cbn [concat_with] in *. destruct ls; now rewrite <- IH.
Qed.

Lemma concat_with_snoc (sep : jstring) (ls : list jstring) (x : jstring) :
  ls <> [] -> concat_with sep (ls ++ [x]) = concat_with sep ls ++ sep ++ x.
Proof.
  induction ls as [|l ls IH]; [congruence|]. intros _.
  destruct ls as [|l' ls]; [reflexivity|].
  change ((l :: l' :: ls) ++ [x]) with (l :: (l' :: ls) ++ [x]).
  cbn [concat_with app] in *. rewrite IH by discriminate.
  now rewrite <- !app_assoc.
Qed.

Lemma last_line_empty (s : jstring) :
  last (split_lines s) = Some [] -> s = [] \/ exists s', s = s' ++ [NEWLINE].
Proof.
  intros H. apply last_Some in H. destruct H as [ls E].
  rewrite <- (join_split_lines s), E.
  destruct ls as [|l ls]; [now left|]. right.
  rewrite concat_with_snoc by discriminate. rewrite app_nil_r. eauto.
Qed.

Lemma drop_while_stops (p : ascii -> bool) (s : jstring) (c : ascii) (r : jstring) :
  drop_while p s = c :: r -> p c = false.
Proof.
  induction s as [|x s IH]; [discriminate|]. cbn [drop_while].
  destruct (p x) eqn:E; [exact IH|]. congruence.
Qed.

Lemma trim_no_final_newline (a s' : jstring) : trim a <> s' ++ [NEWLINE].
Proof.
  unfold trim, trimEnd. intros E. apply (f_equal (@rev ascii)) in E.
  rewrite rev_involutive, rev_app_distr in E. cbn [rev app] in E.
  apply drop_while_stops in E. discriminate E.
Qed.

Lemma all_empty_last (L : list jstring) :
  L <> [] -> (forall i, line_or_empty L i = []) -> last L = Some [].
Proof.
  induction L as [|z L0 _] using rev_ind; [congruence|]. intros _ H.
  rewrite last_snoc. specialize (H (length L0)). unfold line_or_empty in H.
  rewrite list_lookup_middle in H by reflexivity. now subst.
Qed.

Lemma padded_lines_eq (L : list jstring) : forall R,
  (forall i, line_or_empty L i = line_or_empty R i) ->
  last L <> Some [] -> last R <> Some [] -> L = R.
Proof.
  induction L as [|x L' IH]; intros R Heq HL HR.
  - destruct R as [|y R']; [reflexivity|]. destruct HR.
    apply all_empty_last; [discriminate|]. intros i. now rewrite <- Heq.
  - destruct R as [|y R'].
    + destruct HL. apply all_empty_last; [discriminate|]. intros i. now rewrite Heq.
    + pose proof (Heq 0%nat) as H0. cbn in H0. subst y. f_equal.
      apply IH.
      * intros i. apply (Heq (S i)).
      * destruct L'; [discriminate|]. exact HL.
      * destruct R'; [discriminate|]. exact HR.
Qed.

Lemma trimmed_last_line (a : jstring) :
  trim a <> [] -> last (split_lines (trim a)) <> Some [].
Proof.
  intros Hne H. apply last_line_empty in H. destruct H as [H|[s' H]]; [contradiction|].
  now apply trim_no_final_newline in H.
Qed.

Lemma padded_empty_text (a : jstring) :
  (forall i, line_or_empty (split_lines (trim a)) i = []) -> trim a = [].
Proof.
  intros H. apply all_empty_last in H; [|apply split_lines_nonempty].
  apply last_line_empty in H. destruct H as [H|[s' H]]; [exact H|].
  now apply trim_no_final_newline in H.
Qed.

(** X9: on the bodies [diff] hands to it, which are trimmed, [showLineDiff]
    prints nothing only if the two bodies are equal; so whenever [diff]
    reports that the bodies differ, its line diff shows at least one
    line. *)
Theorem showLineDiff_of_trimmed (a b : jstring) :
  showLineDiff (trim a) (trim b) = [] <-> trim a = trim b.
Proof.
  split.
  - intros H. rewrite showLineDiff_nil_iff in H.
    destruct (trim a) as [|c r] eqn:Ea.
    + symmetry. apply padded_empty_text. intros i. rewrite <- H.
      destruct i as [|[|i]]; reflexivity.
    + destruct (trim b) as [|c' r'] eqn:Eb.
      * rewrite <- Ea. apply padded_empty_text. intros i. rewrite Ea, H.
        destruct i as [|[|i]]; reflexivity.
      * rewrite <- (join_split_lines (c :: r)), <- (join_split_lines (c' :: r')).
        f_equal. apply padded_lines_eq; [exact H| |].
        -- rewrite <- Ea. apply trimmed_last_line. now rewrite Ea.
        -- rewrite <- Eb. apply trimmed_last_line. now rewrite Eb.
  - intros ->. now apply showLineDiff_nil_iff.
Qed.

Lemma showLineDiff_of_trimmed_witness :
  showLineDiff (trim (str " a ")) (trim (str "a" ++ [NEWLINE])) = [].
Proof.
  apply (proj2 (showLineDiff_of_trimmed (str " a ") (str "a" ++ [NEWLINE]))).
  reflexivity.
Defined.

End TrimmedBodies.

(** ** What the commands leave alone *)
Section Frame.

Variable R : world -> world -> Prop.
Variable ok : event -> Prop.
Hypothesis rules : frame_rules R ok.

Lemma R_refl (w : world) : R w w.
Proof. apply rules. Qed.

Lemma R_trans (a b c : world) : R a b -> R b c -> R a c.
Proof. apply rules. Qed.

Lemma R_emit (e : event) (w : world) :
  ok e -> R w {| dir := dir w; trace := trace w ++ [e] |}.
Proof. apply rules. Qed.

Lemma ok_out (l : out_line) : ok (Out l).
Proof. apply rules. Qed.

Lemma ok_err (l : err_line) : ok (Err l).
Proof. apply rules. Qed.

Lemma ok_view (n : N) : ok (Spawn (IssueView n)).
Proof. apply rules. Qed.

Lemma respects_bind {A B : Type} (m : M A) (k : A -> M B) :
  respects R m -> (forall a, respects R (k a)) -> respects R (bind m k).
Proof.
  intros Hm Hk w. unfold bind. specialize (Hm w).
  destruct (m w) as [[a|c|e] w1]; cbn [snd] in *; auto.
  eapply R_trans; [exact Hm|apply Hk].
Qed.

Lemma respects_ret {A : Type} (a : A) : respects R (ret a).
Proof. intros w. apply R_refl. Qed.

Lemma respects_throw {A : Type} (e : js_error) : respects R (@throw A e).
Proof. intros w. apply R_refl. Qed.

Lemma respects_exit {A : Type} (c : Z) : respects R (@process_exit A c).
Proof. intros w. apply R_refl. Qed.

Lemma respects_get_dir : respects R get_dir.
Proof. intros w. apply R_refl. Qed.

Lemma respects_emit (e : event) : ok e -> respects R (emit e).
Proof. intros He w. now apply R_emit. Qed.

Lemma respects_log (l : out_line) : respects R (console_log l).
Proof. apply respects_emit, ok_out. Qed.

Lemma respects_error (l : err_line) : respects R (console_error l).
Proof. apply respects_emit, ok_err. Qed.

Ltac frame :=
  repeat first
    [ apply respects_ret | apply respects_throw | apply respects_exit
    | apply respects_get_dir | apply respects_log | apply respects_error
    | (apply respects_emit; solve [auto])
    | (apply respects_bind; [|intros ?])
    | match goal with
      | |- respects _ (match ?x with _ => _ end) => destruct x
      end ].

Lemma respects_or_type_error {A : Type} (o : option A) : respects R (or_type_error o).
Proof. unfold or_type_error. frame. Qed.

Lemma respects_readJson (f : jstring) : respects R (readJson f).
Proof. unfold readJson. frame. Qed.

Lemma respects_readMd (f : jstring) : respects R (readMd f).
Proof. unfold readMd. frame. Qed.

Lemma respects_parse_snapshot (o : gh_output) : respects R (parse_snapshot o).
Proof. unfold parse_snapshot. frame. Qed.

Lemma respects_as_array (v : json) : respects R (as_array v).
Proof. unfold as_array. frame. Qed.

Lemma respects_title_flag (t : option json) : respects R (title_flag t).
Proof. unfold title_flag. frame. Qed.

Lemma respects_exec (gh : tracker) (c : gh_command) :
  ok (Spawn c) -> respects R (exec gh c).
Proof. intros Hc. unfold exec. frame. Qed.

Lemma respects_execSafe (gh : tracker) (c : gh_command) :
  ok (Spawn c) -> respects R (execSafe gh c).
Proof. intros Hc. unfold execSafe. frame. Qed.

Lemma respects_fetchIssue (gh : tracker) (n : N) : respects R (fetchIssue gh n).
Proof.
  unfold fetchIssue. apply respects_bind; [apply respects_exec, ok_view|].
  intros o. apply respects_parse_snapshot.
Qed.

Lemma respects_log_each (lines : list out_line) : respects R (log_each lines).
Proof. induction lines; cbn [log_each]; frame. exact IHlines. Qed.

Lemma respects_for_each (f : N -> M unit) (nums : list N) :
  (forall n, respects R (f n)) -> respects R (for_each f nums).
Proof. intros Hf. induction nums; cbn [for_each]; frame; auto. Qed.

Lemma respects_remove_each (gh : tracker) (n : N) (labels : list jstring) :
  (forall c, ok (Spawn c)) -> respects R (remove_each gh n labels).
Proof.
  intros Hc. induction labels; cbn [remove_each]; frame; auto.
Qed.

Lemma respects_syncLabels (gh : tracker) (n : N) (target : json) :
  (forall c, ok (Spawn c)) -> respects R (syncLabels gh n target).
Proof.
  intros Hc. unfold syncLabels.
  apply respects_bind; [now apply respects_exec|]. intros o.
  apply respects_bind; [apply respects_parse_snapshot|]. intros cur.
  apply respects_bind; [apply respects_as_array|]. intros items. cbv zeta.
  apply respects_bind; [|intros _; now apply respects_remove_each].
  destruct (toAdd _ _); frame; auto.
Qed.

Lemma respects_updateIssue (gh : tracker) (n : N) (title : option json)
  (bodyFile : jstring) (labels : json) :
  (forall c, ok (Spawn c)) -> respects R (updateIssue gh n title bodyFile labels).
Proof.
  intros Hc. unfold updateIssue.
  apply respects_bind; [apply respects_title_flag|]. intros tf.
  apply respects_bind; [apply respects_get_dir|]. intros d. cbv zeta.
  apply respects_bind; [now apply respects_exec|]. intros _.
  destruct (truthy labels); [now apply respects_syncLabels|apply respects_ret].
Qed.

Lemma respects_push (gh : tracker) (n : N) :
  (forall c, ok (Spawn c)) -> respects R (push gh n).
Proof.
  intros Hc. unfold push.
  apply respects_bind; [apply respects_log|]. intros _.
  apply respects_bind; [apply respects_get_dir|]. intros d.
  apply respects_bind; [frame|]. intros files.
  apply respects_bind; [apply respects_readJson|]. intros localJson.
  apply respects_bind; [apply respects_or_type_error|]. intros title.
  apply respects_bind; [apply respects_or_type_error|]. intros labels.
  apply respects_bind; [now apply respects_updateIssue|]. intros _.
  apply respects_bind; [apply respects_log|]. intros _.
  apply respects_bind; [apply respects_log|]. intros _.
  apply respects_bind; [apply respects_as_array|]. intros shown.
  apply respects_log.
Qed.

Lemma respects_diff (gh : tracker) (n : N) : respects R (diff gh n).
Proof.
  unfold diff.
  apply respects_bind; [apply respects_log|]. intros _.
  apply respects_bind; [apply respects_get_dir|]. intros d.
  apply respects_bind; [frame|]. intros files.
  apply respects_bind; [apply respects_readJson|]. intros localJson.
  apply respects_bind; [apply respects_readMd|]. intros localMd.
  apply respects_bind; [apply respects_fetchIssue|]. intros ghIssue.
  apply respects_bind; [apply respects_or_type_error|]. intros title.
  apply respects_bind; [apply respects_or_type_error|]. intros state.
  apply respects_bind; [apply respects_or_type_error|]. intros labels.
  apply respects_bind; [apply respects_as_array|]. intros unsorted. cbv zeta.
  assert (Hrest : forall (ds : list meta_diff) (b : bool),
            respects R
              (bind (log_each (map OutMetadata ds))
                 (fun _ =>
                    if b
                    then console_log (OutBody (trim localMd)
                                        (trim (body_or_empty (body ghIssue))))
                    else ret tt))).
  { intros ds b. apply respects_bind; [apply respects_log_each|]. intros _.
    destruct b; [apply respects_log|apply respects_ret]. }
  destruct (metaDiffs _ _ _ _); [|apply Hrest].
  destruct (negb _); [apply (Hrest [] true)|apply respects_log].
Qed.

Lemma respects_status_issue (gh : tracker) (n : N) : respects R (status_issue gh n).
Proof.
  unfold status_issue.
  apply respects_bind; [apply respects_get_dir|]. intros d.
  apply respects_bind; [apply respects_or_type_error|]. intros files.
  apply respects_bind; [apply respects_readJson|]. intros localJson.
  apply respects_bind; [apply respects_execSafe, ok_view|]. intros [output|].
  - apply respects_bind; [apply respects_parse_snapshot|]. intros ghIssue.
    apply respects_bind; [apply respects_or_type_error|]. intros labels.
    apply respects_bind; [apply respects_as_array|]. intros unsorted. cbv zeta.
    apply respects_bind; [apply respects_or_type_error|]. intros title.
    apply respects_bind; [apply respects_or_type_error|]. intros state.
    apply respects_log.
  - apply respects_bind; [apply respects_or_type_error|]. intros title.
    apply respects_log.
Qed.

Lemma respects_status (gh : tracker) : respects R (status gh).
Proof.
  unfold status.
  apply respects_bind; [apply respects_log|]. intros _.
  apply respects_bind; [apply respects_get_dir|]. intros d.
  destruct (findAllIssueNumbers d) eqn:E; [apply respects_log|].
  apply respects_for_each. intros num. apply respects_status_issue.
Qed.

Lemma respects_writes (f : jstring) (c : content) :
  (forall w d, R w {| dir := d; trace := trace w |}) ->
  respects R (d <- get_dir ;; set_dir (write_file d f c)).
Proof. intros Hw w. apply Hw. Qed.

Lemma respects_pull (gh : tracker) (n : N) :
  (forall w d, R w {| dir := d; trace := trace w |}) -> respects R (pull gh n).
Proof.
  intros Hw. unfold pull.
  apply respects_bind; [apply respects_log|]. intros _.
  apply respects_bind; [apply respects_fetchIssue|]. intros ghIssue.
  apply respects_bind; [apply respects_get_dir|]. intros d.
  apply respects_bind; [frame|]. intros files.
  apply respects_bind; [destruct (existsSync _ _); [apply respects_readJson|frame]|].
  intros localJson.
  apply respects_bind; [apply respects_or_type_error|]. intros m.
  apply respects_bind; [now apply respects_writes|]. intros _.
  apply respects_bind; [now apply respects_writes|]. intros _.
  frame.
Qed.

Lemma respects_run (m : M unit) (w : world) : respects R m -> R w (snd (run m w)).
Proof.
  intros Hm. unfold run. specialize (Hm w).
  destruct (m w) as [[u|c|e] w1]; cbn [snd] in *; auto.
  eapply R_trans; [exact Hm|]. apply R_emit, ok_err.
Qed.

End Frame.

Section ReadOnly.


Lemma no_update_rules : frame_rules no_update (fun e => changes_remote e = false).
Proof.
  unfold no_update. split; auto.
  - intros w. exists []. split; [now rewrite app_nil_r|constructor].
  - intros a b c (t1 & E1 & H1) (t2 & E2 & H2). exists (t1 ++ t2). split.
    + now rewrite E2, E1, app_assoc.
    + now apply Forall_app_2.
  - intros e w He. exists [e]. split; [reflexivity|]. now repeat constructor.
Qed.

Lemma no_update_writes (w : world) (d : directory) :
  no_update w {| dir := d; trace := trace w |}.
Proof. exists []. split; [cbn; now rewrite app_nil_r|constructor]. Qed.

Lemma respects_usage_error (R : world -> world -> Prop) (ok : event -> Prop)
  (l : err_line) :
  frame_rules R ok -> respects R (console_error l ;; @process_exit unit 1).
Proof.
  intros rules. apply (respects_bind R ok rules); [apply (respects_error R ok rules)|].
  intros _. apply (respects_exit R ok rules).
Qed.

Lemma respects_usage (R : world -> world -> Prop) (ok : event -> Prop) (gh : tracker)
  (i : invocation) :
  frame_rules R ok ->
  match i with Pull _ | Push _ => False | _ => True end ->
  respects R (main gh i).
Proof.
  intros rules Hi. destruct i as [| |arg|arg|[n|]| |]; cbn [main]; try destruct Hi.
  - apply (respects_bind R ok rules); [apply (respects_log R ok rules)|].
    intros _. apply (respects_exit R ok rules).
  - apply (respects_log R ok rules).
  - apply (respects_diff R ok rules).
  - apply (respects_usage_error R ok _ rules).
  - apply (respects_status R ok rules).
  - apply (respects_bind R ok rules); [apply (respects_error R ok rules)|]. intros _.
    apply (respects_bind R ok rules); [apply (respects_log R ok rules)|].
    intros _. apply (respects_exit R ok rules).
Qed.



(** X11: [pull], [diff], [status] and the usage change nothing remote.
    Whatever the directory, the tracker and the way the run ends, an
    invocation other than a push only adds to the trace, and the only
    commands it hands to the shell are [gh issue view] lines. *)
Theorem pull_diff_status_only_fetch (gh : tracker) (i : invocation) (w : world) :
  (forall arg, i <> Push arg) ->
  exists tr,
    trace (snd (run (main gh i) w)) = trace w ++ tr /\
    Forall (fun e => changes_remote e = false) tr.
Proof.
  intros Hi. change (no_update w (snd (run (main gh i) w))).
  apply (respects_run _ _ no_update_rules).
  destruct i as [| |[| |n]|arg|[n|]| |];
    try (now apply (respects_usage _ _ gh _ no_update_rules)).
  - apply (respects_usage_error _ _ _ no_update_rules).
  - cbn [main].
    apply (respects_bind _ _ no_update_rules); [apply (respects_get_dir _ _ no_update_rules)|].
    intros d. apply (respects_for_each _ _ no_update_rules). intros n.
    apply (respects_pull _ _ no_update_rules), no_update_writes.
  - apply (respects_pull _ _ no_update_rules), no_update_writes.
  - now destruct (Hi arg).
Qed.

Lemma pull_diff_status_only_fetch_witness :
  exists tr,
    trace (snd (run (main (tracker_of (issue kafka_title (str "OPEN"))) (Pull (Number 5)))
                  empty_world)) = trace empty_world ++ tr /\
    Forall (fun e => changes_remote e = false) tr.
Proof.
  apply (pull_diff_status_only_fetch _ (Pull (Number 5)) empty_world).
  intros arg. discriminate.
Defined.

End ReadOnly.

(** ** When [diff] reports no difference *)
Section DiffInSync.

Lemma drop_while_snoc (p : ascii -> bool) (s : jstring) (c : ascii) :
  p c = true ->
  drop_while p (s ++ [c]) = if forallb p s then [] else drop_while p s ++ [c].
Proof.
  intros Hc. induction s as [|x s IH]; cbn [app drop_while forallb].
  - now rewrite Hc.
  - destruct (p x); [exact IH|reflexivity].
Qed.

Lemma drop_while_all (p : ascii -> bool) (s : jstring) :
  forallb p s = true -> drop_while p s = [].
Proof.
  induction s as [|x s IH]; [reflexivity|]. cbn [forallb drop_while].
  destruct (p x); [exact IH|discriminate].
Qed.

Lemma trim_snoc_newline (s : jstring) : trim (s ++ [NEWLINE]) = trim s.
Proof.
  unfold trim, trimEnd, trimStart. rewrite drop_while_snoc by reflexivity.
  destruct (forallb is_trim_char s) eqn:E.
  - now rewrite (drop_while_all _ s E).
  - rewrite rev_app_distr. reflexivity.
Qed.

Lemma trim_normalized (s : jstring) : trim (normalized s) = trim s.
Proof.
  unfold normalized. destruct (endsWith s [NEWLINE]); [reflexivity|].
  apply trim_snoc_newline.
Qed.

Lemma filter_nil_iff {A : Type} (p : A -> bool) (l : list A) :
  List.filter p l = [] <-> forall x, In x l -> p x = false.
Proof.
  induction l as [|a l IH]; cbn [List.filter In]; [tauto|].
  destruct (p a) eqn:E.
  - split; [discriminate|]. intros H. specialize (H a (or_introl eq_refl)). congruence.
  - rewrite IH. split.
    + intros H x [<-|Hx]; auto.
    + intros H x Hx. apply H. now right.
Qed.

Lemma labels_diff_nil_iff (A R : list jstring) :
  (let added :=
     List.filter (fun l => negb (included_in (sort_strings R) l)) (map JStr A) in
   let removed :=
     List.filter (fun l => negb (includes_string (map JStr A) l)) (sort_strings R) in
   match added, removed with
   | [], [] => @nil meta_diff
   | _, _ => [LabelsDiff added removed]
   end) = [] <->
  forall x, In x A <-> In x R.
Proof.
  cbv zeta.
  change (List.filter (fun l => negb (included_in (sort_strings R) l)) (map JStr A))
    with (toAdd (map JStr A) (sort_strings R)).
  change (List.filter (fun l => negb (includes_string (map JStr A) l)) (sort_strings R))
    with (toRemove (map JStr A) (sort_strings R)).
  rewrite toAdd_strings, toRemove_strings.
  assert (Hadd : List.filter (fun l => negb (includes (sort_strings R) l)) A
                 = [] <-> forall x, In x A -> In x R).
  { rewrite filter_nil_iff. unfold sort_strings. split.
    - intros H x Hx. specialize (H x Hx).
      apply negb_false_iff, includes_In in H. now apply sort_by_In in H.
    - intros H x Hx. apply negb_false_iff, includes_In.
      apply sort_by_In. auto. }
  assert (Hrem : List.filter (fun l => negb (includes A l)) (sort_strings R)
                 = [] <-> forall x, In x R -> In x A).
  { rewrite filter_nil_iff. unfold sort_strings. split.
    - intros H x Hx. specialize (H x (proj2 (sort_by_In _ _ _) Hx)).
      now apply negb_false_iff, includes_In in H.
    - intros H x Hx. apply sort_by_In in Hx. apply negb_false_iff, includes_In.
      auto. }
  destruct (List.filter _ A) as [|a A'];
    destruct (List.filter _ (sort_strings R)) as [|b B]; cbn [map].
  - split; [|reflexivity]. intros _ x. split; [now apply Hadd|now apply Hrem].
  - split; [discriminate|]. intros H.
    assert (E : b :: B = []) by (apply Hrem; intros x; apply H). discriminate E.
  - split; [discriminate|]. intros H.
    assert (E : a :: A' = []) by (apply Hadd; intros x; apply H). discriminate E.
  - split; [discriminate|]. intros H.
    assert (E : a :: A' = []) by (apply Hadd; intros x; apply H). discriminate E.
Qed.

Lemma metaDiffs_strings_nil_iff (title state : option json) (A : list jstring)
  (ghIssue : gh_issue) :
  metaDiffs title state (map JStr A) ghIssue = [] <->
  title = Some (JStr (Remote.title ghIssue)) /\
  state = Some (JStr (toLowerCase (Remote.state ghIssue))) /\
  forall x, In x A <-> In x (map name (labels ghIssue)).
Proof.
  unfold metaDiffs. cbv zeta.
  rewrite <- labels_diff_nil_iff, <- !strict_eq_string_iff.
  destruct (strict_eq_string title _), (strict_eq_string state _); cbn [app];
    intuition (try discriminate; try congruence).
Qed.

Lemma metaDiffs_nil_iff (title state : option json) (L : list jstring)
  (ghIssue : gh_issue) :
  metaDiffs title state (sort_values (map JStr L)) ghIssue = [] <->
  title = Some (JStr (Remote.title ghIssue)) /\
  state = Some (JStr (toLowerCase (Remote.state ghIssue))) /\
  forall x, In x L <-> In x (map name (labels ghIssue)).
Proof.
  rewrite sort_values_strings, metaDiffs_strings_nil_iff. unfold sort_strings.
  split; intros (H1 & H2 & H3); (split; [exact H1|split; [exact H2|]]); intros x.
  - rewrite <- H3. symmetry. apply sort_by_In.
  - rewrite <- H3. apply sort_by_In.
Qed.

Lemma diff_run (gh : tracker) (n : N) (w : world) (files : issue_files)
  (localJson : json) (c : content) (ghIssue : gh_issue)
  (title state labels : option json) (items : list json) :
  findIssueFiles (dir w) n = Some files ->
  lookup_file (dir w) (json_path files) = Some (Meta localJson) ->
  lookup_file (dir w) (md_path files) = Some c ->
  gh (IssueView n) = Some (Snapshot ghIssue) ->
  prop localJson (str "title") = Some title ->
  prop localJson (str "state") = Some state ->
  prop localJson (str "labels") = Some labels ->
  or_else labels (JArr []) = JArr items ->
  let localBody := trim (file_text c) in
  let ghBody := trim (body_or_empty (body ghIssue)) in
  run (diff gh n) w =
  (0%Z,
   {| dir := dir w;
      trace := trace w ++ [Out (OutDiffFor n); Spawn (IssueView n)]
               ++ map Out
                    match metaDiffs title state (sort_values items) ghIssue,
                          negb (jstring_eqb localBody ghBody) with
                    | [], false => [OutInSync]
                    | ds, differs =>
                        map OutMetadata ds
                        ++ (if differs then [OutBody localBody ghBody] else [])
                    end |}).
Proof.
  intros Hfiles Hjson Hmd Hgh Htitle Hstate Hlabels Harr localBody ghBody.
  subst localBody ghBody.
  unfold run, diff, fetchIssue, exec, parse_snapshot, readJson, readMd, as_array,
    or_type_error, console_log, console_error, process_exit, throw, emit,
    get_dir, bind, ret.
  cbn [dir trace]. rewrite Hfiles. cbv beta iota zeta. cbn [dir trace].
  rewrite Hjson. cbv beta iota zeta. cbn [dir trace].
  rewrite Hmd. cbv beta iota zeta. cbn [dir trace].
  rewrite Hgh. cbv beta iota zeta. cbn [dir trace].
  rewrite Htitle, Hstate, Hlabels. cbv beta iota zeta. rewrite Harr.
  cbv beta iota zeta. cbn [dir trace].
  generalize (metaDiffs title state (sort_values items) ghIssue).
  generalize (negb (jstring_eqb (trim (file_text c))
                      (trim (body_or_empty (body ghIssue))))).
  intros differs [|d diffs]; destruct differs.
  all: try (cbv beta iota zeta; cbn [dir trace map app];
            now rewrite <- !app_assoc).
  all: rewrite log_each_done; cbv beta iota zeta; cbn [dir trace].
  - cbn [map app]. now rewrite <- !app_assoc.
  - cbn [map app]. rewrite map_app. cbn [map]. now rewrite <- !app_assoc.
  - cbn [map app]. rewrite app_nil_r. now rewrite <- !app_assoc.
Qed.

(** X12: for a local record whose labels are strings, [diff] prints that
    local and remote are in sync exactly when the local title is the remote
    title, the local state is the remote state in lower case, the local and
    the remote labels are the same as sets, and the two bodies are equal after
    trimming. *)
Theorem diff_in_sync_iff (gh : tracker) (n : N) (w : world) (files : issue_files)
  (localJson : json) (c : content) (ghIssue : gh_issue)
  (title state labels : option json) (L : list jstring) :
  findIssueFiles (dir w) n = Some files ->
  lookup_file (dir w) (json_path files) = Some (Meta localJson) ->
  lookup_file (dir w) (md_path files) = Some c ->
  gh (IssueView n) = Some (Snapshot ghIssue) ->
  prop localJson (str "title") = Some title ->
  prop localJson (str "state") = Some state ->
  prop localJson (str "labels") = Some labels ->
  or_else labels (JArr []) = JArr (map JStr L) ->
  run (main gh (Diff (Some n))) w =
    (0%Z, {| dir := dir w;
             trace := trace w ++ [Out (OutDiffFor n); Spawn (IssueView n);
                                  Out OutInSync] |})
  <->
  title = Some (JStr (Remote.title ghIssue)) /\
  state = Some (JStr (toLowerCase (Remote.state ghIssue))) /\
  (forall x, In x L <-> In x (map name (Remote.labels ghIssue))) /\
  trim (file_text c) = trim (body_or_empty (body ghIssue)).
Proof.
  intros Hfiles Hjson Hmd Hgh Htitle Hstate Hlabels Harr. cbn [main].
  rewrite (diff_run gh n w files localJson c ghIssue title state labels (map JStr L))
    by assumption.
  cbv zeta.
  assert (Hmeta := metaDiffs_nil_iff title state L ghIssue).
  assert (Hbody := jstring_eqb_eq (trim (file_text c))
                     (trim (body_or_empty (body ghIssue)))).
  destruct (metaDiffs title state (sort_values (map JStr L)) ghIssue) as [|d ds].
  - destruct (jstring_eqb _ _); cbn [negb].
    + split; [|reflexivity]. intros _.
      destruct Hmeta as [Hmeta _]. destruct (Hmeta eq_refl) as (? & ? & ?).
      repeat split; auto; try apply H1. now apply Hbody.
    + split.
      * intros E. injection E as E. apply app_inv_head in E. discriminate E.
      * intros (_ & _ & _ & E). apply Hbody in E. discriminate E.
  - split.
    + intros E. injection E as E. apply app_inv_head in E.
      destruct (negb _); discriminate E.
    + intros (H1 & H2 & H3 & _).
      assert (E : d :: ds = []) by (apply Hmeta; auto). discriminate E.
Qed.

Lemma diff_in_sync_iff_witness :
  let local := record (str "T") (str "open") [bug] [] in
  let w := {| dir := [(str "5-a.json", Meta local);
                      (str "5-a.md", Text (str "Text" ++ [NEWLINE]))];
              trace := [] |} in
  let gh := tracker_of (issue (str "T") (str "OPEN")) in
  run (main gh (Diff (Some 5%N))) w =
    (0%Z, {| dir := dir w;
             trace := trace w ++ [Out (OutDiffFor 5); Spawn (IssueView 5);
                                  Out OutInSync] |}).
Proof.
  intros local w gh.
  apply (proj2 (diff_in_sync_iff gh 5%N w
                  {| json_path := str "5-a.json"; md_path := str "5-a.md";
                     slug := str "a" |}
                  local (Text (str "Text" ++ [NEWLINE])) (issue (str "T") (str "OPEN"))
                  (Some (JStr (str "T"))) (Some (JStr (str "open")))
                  (Some (JArr [JStr bug])) [bug]
                  eq_refl eq_refl eq_refl eq_refl eq_refl eq_refl eq_refl eq_refl)).
  repeat split; try reflexivity; cbn; tauto.
Defined.

(** X13: a record that [status] finds in sync has no metadata difference
    for [diff].  The converse fails: [diff] compares the labels as sets,
    [status] as sorted lists, so a label that stands twice in the local
    record is a difference for [status] only. *)
Theorem status_in_sync_no_metadata_diff :
  (forall (title state : option json) (localLabels : list json) (ghIssue : gh_issue),
     inSync (status_check title state localLabels ghIssue) = true ->
     metaDiffs title state localLabels ghIssue = []) /\
  (let ghIssue := issue (str "T") (str "OPEN") in
   let title := Some (JStr (str "T")) in
   let state := Some (JStr (str "open")) in
   let localLabels := sort_values [JStr bug; JStr bug] in
   metaDiffs title state localLabels ghIssue = [] /\
   inSync (status_check title state localLabels ghIssue) = false).
Proof.
  split; [|split; reflexivity].
  intros title state localLabels ghIssue H.
  apply inSync_iff in H. destruct H as (-> & -> & ->).
  apply metaDiffs_strings_nil_iff. repeat split; auto; unfold sort_strings.
  - now rewrite sort_by_In.
  - now rewrite sort_by_In.
Qed.

Lemma status_in_sync_no_metadata_diff_witness :
  metaDiffs (Some (JStr (str "T"))) (Some (JStr (str "open")))
    (sort_values [JStr bug]) (issue (str "T") (str "OPEN")) = [].
Proof.
  apply (proj1 status_in_sync_no_metadata_diff). reflexivity.
Defined.

End DiffInSync.

(** ** What [push] hands to the shell *)
Section PushCommands.

Lemma bind_ext {A B : Type} (m : M A) (k1 k2 : A -> M B) (w : world) :
  (forall a w', k1 a w' = k2 a w') -> bind m k1 w = bind m k2 w.
Proof. intros H. unfold bind. destruct (m w) as [[a|c|e] w1]; auto. Qed.

Variables (gh : tracker) (n : N) (w : world) (files : issue_files).
Variables (localJson : json) (title labels : option json).
Variables (titleFlag : option jstring) (L : list jstring).

Hypothesis Hfiles : findIssueFiles (dir w) n = Some files.
Hypothesis Hjson : lookup_file (dir w) (json_path files) = Some (Meta localJson).
Hypothesis Htitle : prop localJson (str "title") = Some title.
Hypothesis Hflag : forall w0, title_flag title w0 = (Done titleFlag, w0).
Hypothesis Hlabels : prop localJson (str "labels") = Some labels.
Hypothesis Harr : or_else labels (JArr []) = JArr (map JStr L).

Lemma push_until_edit :
  let bodyFlag :=
    if existsSync (dir w) (md_path files) then Some (md_path files) else None in
  let w1 := {| dir := dir w;
               trace := trace w ++ [Out (OutPushing n);
                                    Spawn (IssueEdit n titleFlag bodyFlag)] |} in
  push gh n w =
  match gh (IssueEdit n titleFlag bodyFlag) with
  | Some _ =>
      (syncLabels gh n (JArr (map JStr L)) ;;
       console_log (OutUpdatedTitle title) ;;
       console_log (OutUpdatedBody (md_path files)) ;;
       console_log (OutSyncedLabels (map JStr L))) w1
  | None =>
      (Exit 1%Z,
       {| dir := dir w;
          trace := trace w1
                   ++ [Err (ErrCommandFailed (IssueEdit n titleFlag bodyFlag))] |})
  end.
Proof.
  intros bodyFlag w1. subst bodyFlag w1.
  set (w0 := {| dir := dir w; trace := trace w ++ [Out (OutPushing n)] |}).
  unfold push.
  rewrite (bind_step (console_log _) _ w w0 tt eq_refl).
  rewrite (bind_step get_dir _ w0 w0 (dir w) eq_refl).
  rewrite Hfiles.
  rewrite (bind_step (ret files) _ w0 w0 files eq_refl).
  rewrite (bind_step (readJson _) _ w0 w0 localJson)
    by (unfold readJson, bind, get_dir; cbn [dir w0]; now rewrite Hjson).
  rewrite Htitle, Hlabels.
  rewrite (bind_step (or_type_error (Some title)) _ w0 w0 title eq_refl).
  rewrite (bind_step (or_type_error (Some labels)) _ w0 w0 labels eq_refl).
  rewrite Harr. unfold updateIssue. rewrite !bind_assoc.
  rewrite (bind_step (title_flag title) _ w0 w0 titleFlag (Hflag w0)).
  rewrite bind_assoc.
  rewrite (bind_step get_dir _ w0 w0 (dir w) eq_refl).
  cbv zeta. rewrite bind_assoc. unfold exec at 1. rewrite !bind_assoc.
  unfold bind at 1. unfold emit at 1. cbn [dir trace w0].
  rewrite <- app_assoc. cbn [app].
  destruct (gh (IssueEdit n titleFlag _)) as [out|].
  - unfold bind at 1. unfold ret at 1. cbn [truthy].
    apply bind_ext. intros _ w2. apply bind_ext. intros _ w3.
    apply bind_ext. intros _ w4. reflexivity.
  - unfold bind, console_error, process_exit, emit. cbn [dir trace]. reflexivity.
Qed.

End PushCommands.

Section PushTheorems.

(** X14: for a local record whose labels are strings, [push] hands to the
    shell one edit with the title and the body file, the fetch of the current
    labels, then, if a local label is missing remotely, one command that adds
    all the missing labels, joined by commas in their local order, then one
    command for each remote label that is not a local one, in the remote
    order.  What the label commands answer is not looked at: the run ends
    with exit code 0 also when each of them fails. *)
Theorem push_commands (gh : tracker) (n : N) (w : world) (files : issue_files)
  (localJson : json) (title labels : option json) (titleFlag : option jstring)
  (L : list jstring) (current : gh_issue) (out : gh_output) :
  findIssueFiles (dir w) n = Some files ->
  lookup_file (dir w) (json_path files) = Some (Meta localJson) ->
  prop localJson (str "title") = Some title ->
  (forall w0, title_flag title w0 = (Done titleFlag, w0)) ->
  prop localJson (str "labels") = Some labels ->
  or_else labels (JArr []) = JArr (map JStr L) ->
  let bodyFlag :=
    if existsSync (dir w) (md_path files) then Some (md_path files) else None in
  gh (IssueEdit n titleFlag bodyFlag) = Some out ->
  gh (IssueView n) = Some (Snapshot current) ->
  let R := map name (Remote.labels current) in
  let add := List.filter (fun l => negb (includes R l)) L in
  let remove := List.filter (fun l => negb (includes L l)) R in
  run (main gh (Push (Number n))) w =
  (0%Z,
   {| dir := dir w;
      trace := trace w
               ++ [Out (OutPushing n); Spawn (IssueEdit n titleFlag bodyFlag);
                   Spawn (IssueView n)]
               ++ match add with
                  | [] => []
                  | _ :: _ => [Spawn (IssueAddLabel n (concat_with [COMMA] add))]
                  end
               ++ map (fun l => Spawn (IssueRemoveLabel n l)) remove
               ++ [Out (OutUpdatedTitle title); Out (OutUpdatedBody (md_path files));
                   Out (OutSyncedLabels (map JStr L))] |}).
Proof.
  intros Hfiles Hjson Htitle Hflag Hlabels Harr bodyFlag Hedit Hview R add remove.
  cbn [main].
  unfold run.
  rewrite (push_until_edit gh n w files localJson title labels titleFlag L
             Hfiles Hjson Htitle Hflag Hlabels Harr).
  cbv zeta. fold bodyFlag. rewrite Hedit.
  unfold bind at 1.
  rewrite (syncLabels_commands gh n L _ current Hview). cbv zeta.
  unfold bind, console_log, emit. cbn [dir trace].
  subst add remove R. f_equal. f_equal.
  repeat (rewrite <- app_assoc; cbn [app]). reflexivity.
Qed.

Lemma push_commands_witness :
  let local := record (str "T") (str "open") [str "a"; bug] [] in
  let w := world_with (str "5-a.json") (Meta local) in
  let gh : tracker :=
    fun c => match c with
             | IssueView _ => Some (Snapshot (issue (str "T") (str "OPEN")))
             | IssueEdit _ _ _ => Some NoOutput
             | _ => None
             end in
  run (main gh (Push (Number 5))) w =
  (0%Z,
   {| dir := dir w;
      trace := [ Out (OutPushing 5);
                 Spawn (IssueEdit 5 (Some (str "T")) None);
                 Spawn (IssueView 5);
                 Spawn (IssueAddLabel 5 (str "a"));
                 Out (OutUpdatedTitle (Some (JStr (str "T"))));
                 Out (OutUpdatedBody (str "5-a.md"));
                 Out (OutSyncedLabels [JStr (str "a"); JStr bug]) ] |}).
Proof.
  intros local w gh.
  apply (push_commands gh 5%N w
           {| json_path := str "5-a.json"; md_path := str "5-a.md"; slug := str "a" |}
           local (Some (JStr (str "T"))) (Some (JArr [JStr (str "a"); JStr bug]))
           (Some (str "T")) [str "a"; bug] (issue (str "T") (str "OPEN")) NoOutput);
    reflexivity.
Defined.

(** X15: when the edit command of [push] fails, the run ends there with
    exit code 1: the failure is reported, and no label is fetched, added or
    removed. *)
Theorem push_edit_failure_is_fatal (gh : tracker) (n : N) (w : world)
  (files : issue_files) (localJson : json) (title labels : option json)
  (titleFlag : option jstring) (L : list jstring) :
  findIssueFiles (dir w) n = Some files ->
  lookup_file (dir w) (json_path files) = Some (Meta localJson) ->
  prop localJson (str "title") = Some title ->
  (forall w0, title_flag title w0 = (Done titleFlag, w0)) ->
  prop localJson (str "labels") = Some labels ->
  or_else labels (JArr []) = JArr (map JStr L) ->
  let bodyFlag :=
    if existsSync (dir w) (md_path files) then Some (md_path files) else None in
  gh (IssueEdit n titleFlag bodyFlag) = None ->
  run (main gh (Push (Number n))) w =
  (1%Z,
   {| dir := dir w;
      trace := trace w
               ++ [Out (OutPushing n); Spawn (IssueEdit n titleFlag bodyFlag);
                   Err (ErrCommandFailed (IssueEdit n titleFlag bodyFlag))] |}).
Proof.
  intros Hfiles Hjson Htitle Hflag Hlabels Harr bodyFlag Hedit. cbn [main].
  unfold run.
  rewrite (push_until_edit gh n w files localJson title labels titleFlag L
             Hfiles Hjson Htitle Hflag Hlabels Harr).
  cbv zeta. fold bodyFlag. rewrite Hedit.
  cbn [dir trace]. f_equal. f_equal. rewrite <- !app_assoc. reflexivity.
Qed.

Lemma push_edit_failure_is_fatal_witness :
  let local := record (str "T") (str "open") [bug] [] in
  let w := world_with (str "5-a.json") (Meta local) in
  fst (run (main (fun _ => None) (Push (Number 5))) w) = 1%Z.
Proof.
  intros local w.
  rewrite (push_edit_failure_is_fatal (fun _ => None) 5%N w
             {| json_path := str "5-a.json"; md_path := str "5-a.md"; slug := str "a" |}
             local (Some (JStr (str "T"))) (Some (JArr [JStr bug]))
             (Some (str "T")) [bug]); reflexivity.
Defined.

End PushTheorems.

(** ** After a pull, local and remote agree *)
Section AfterPull.

Lemma pulled_fields (ghIssue : gh_issue) (rest : list (jstring * json)) :
  let m := JObj (remote_fields ghIssue ++ rest) in
  prop m (str "title") = Some (Some (JStr (Remote.title ghIssue))) /\
  prop m (str "state") = Some (Some (JStr (toLowerCase (Remote.state ghIssue)))) /\
  prop m (str "labels")
  = Some (Some (JArr (map JStr (map name (Remote.labels ghIssue))))).
Proof.
  cbv zeta. rewrite map_map. repeat split; reflexivity.
Qed.

Lemma status_check_same (ghIssue : gh_issue) :
  status_check (Some (JStr (Remote.title ghIssue)))
    (Some (JStr (toLowerCase (Remote.state ghIssue))))
    (sort_values (map JStr (map name (Remote.labels ghIssue)))) ghIssue
  = {| titleMatch := true; labelsMatch := true; stateMatch := true |}.
Proof.
  unfold status_check. cbv zeta. rewrite sort_values_strings.
  cbn [strict_eq_string]. now rewrite !jstring_eqb_refl.
Qed.

Lemma nothing_to_add (R : list jstring) :
  List.filter (fun l => negb (includes R l)) R = [].
Proof.
  apply filter_nil_iff. intros x Hx. apply negb_false_iff. now apply includes_In.
Qed.

(** X16: after a completed pull of an issue (its number at most 2^53 - 1),
    [diff] for that issue against the same remote snapshot reports that local
    and remote are in sync, with exit code 0. *)
Theorem pull_then_diff_in_sync (gh : tracker) (n : N) (w w1 : world) :
  safe_integer n = true ->
  pull gh n w = (Done tt, w1) ->
  run (main gh (Diff (Some n))) w1 =
  (0%Z, {| dir := dir w1;
           trace := trace w1 ++ [Out (OutDiffFor n); Spawn (IssueView n);
                                 Out OutInSync] |}).
Proof.
  intros _ H.
  destruct (pull_leaves_record gh n w w1 H)
    as (ghIssue & files & props & Hgh & Hfound & _ & Hjson & Hmd).
  destruct (pulled_fields ghIssue
              (carried props ++ closing_fields n files ghIssue
                                  (obj_get props (str "body_file"))))
    as (Ht & Hs & Hl).
  cbn [main].
  rewrite (diff_run gh n w1 files _ _ ghIssue _ _ _
             (map JStr (map name (Remote.labels ghIssue)))
             Hfound Hjson Hmd Hgh Ht Hs Hl eq_refl).
  cbv zeta. cbn [file_text]. rewrite trim_normalized, jstring_eqb_refl. cbn [negb].
  assert (Hm : metaDiffs (Some (JStr (Remote.title ghIssue)))
                 (Some (JStr (toLowerCase (Remote.state ghIssue))))
                 (sort_values (map JStr (map name (Remote.labels ghIssue)))) ghIssue
               = []) by (apply metaDiffs_nil_iff; tauto).
  rewrite Hm. reflexivity.
Qed.

Lemma pull_then_diff_in_sync_witness :
  let gh := tracker_of (issue kafka_title (str "OPEN")) in
  fst (run (main gh (Diff (Some 5%N))) (snd (pull gh 5 empty_world))) = 0%Z.
Proof.
  intros gh.
  rewrite (pull_then_diff_in_sync gh 5%N empty_world (snd (pull gh 5 empty_world)));
    [reflexivity|reflexivity|].
  vm_compute. reflexivity.
Defined.

(** X17: after a completed pull of an issue (its number at most 2^53 - 1),
    the turn of [status] for that issue against the same remote snapshot
    finds title, labels and state in agreement. *)
Theorem pull_then_status_in_sync (gh : tracker) (n : N) (w w1 : world) :
  safe_integer n = true ->
  pull gh n w = (Done tt, w1) ->
  exists ghIssue,
    gh (IssueView n) = Some (Snapshot ghIssue) /\
    status_issue gh n w1 =
    (Done tt,
     {| dir := dir w1;
        trace := trace w1
                 ++ [Spawn (IssueView n);
                     Out (OutStatus n (Some (JStr (Remote.title ghIssue)))
                            {| titleMatch := true; labelsMatch := true;
                               stateMatch := true |}
                            (sort_values
                               (map JStr (map name (Remote.labels ghIssue)))))] |}).
Proof.
  intros _ H.
  destruct (pull_leaves_record gh n w w1 H)
    as (ghIssue & files & props & Hgh & Hfound & _ & Hjson & _).
  destruct (pulled_fields ghIssue
              (carried props ++ closing_fields n files ghIssue
                                  (obj_get props (str "body_file"))))
    as (Ht & Hs & Hl).
  exists ghIssue. split; [exact Hgh|].
  unfold status_issue, readJson, execSafe, parse_snapshot, or_type_error, as_array,
    console_log, emit, get_dir, bind, ret.
  cbn [dir trace]. rewrite Hfound. cbv beta iota zeta. cbn [dir trace].
  rewrite Hjson. cbv beta iota zeta. cbn [dir trace].
  rewrite Hgh. cbv beta iota zeta. cbn [dir trace].
  rewrite Hl. cbv beta iota zeta. cbn [or_else truthy]. cbv beta iota zeta.
  rewrite Ht, Hs. cbv beta iota zeta. cbn [dir trace].
  rewrite status_check_same. now rewrite <- app_assoc.
Qed.

Lemma pull_then_status_in_sync_witness :
  let gh := tracker_of (issue kafka_title (str "OPEN")) in
  exists ghIssue,
    gh (IssueView 5) = Some (Snapshot ghIssue) /\
    fst (status_issue gh 5 (snd (pull gh 5 empty_world))) = Done tt.
Proof.
  intros gh.
  destruct (pull_then_status_in_sync gh 5%N empty_world (snd (pull gh 5 empty_world)))
    as (ghIssue & Hgh & Hrun); [reflexivity|vm_compute; reflexivity|].
  exists ghIssue. split; [exact Hgh|]. now rewrite Hrun.
Defined.

(** X18: after a completed pull of an issue (its number at most 2^53 - 1),
    a push of that issue against the same remote snapshot, when its edit
    command succeeds, ends with exit code 0 after it has handed to the shell
    the edit with the pulled title (no title flag for an empty title) and the
    body file, and the fetch of the labels, and no command that adds or
    removes a label. *)
Theorem pull_then_push_keeps_labels (gh : tracker) (n : N) (w w1 : world)
  (out : gh_output) :
  safe_integer n = true ->
  pull gh n w = (Done tt, w1) ->
  (forall t b, gh (IssueEdit n t b) = Some out) ->
  exists ghIssue files,
    gh (IssueView n) = Some (Snapshot ghIssue) /\
    findIssueFiles (dir w1) n = Some files /\
    fst (run (main gh (Push (Number n))) w1) = 0%Z /\
    trace (snd (run (main gh (Push (Number n))) w1)) =
    trace w1
    ++ [Out (OutPushing n);
        Spawn (IssueEdit n
                 match Remote.title ghIssue with
                 | [] => None
                 | _ :: _ => Some (Remote.title ghIssue)
                 end
                 (Some (md_path files)));
        Spawn (IssueView n);
        Out (OutUpdatedTitle (Some (JStr (Remote.title ghIssue))));
        Out (OutUpdatedBody (md_path files));
        Out (OutSyncedLabels (map JStr (map name (Remote.labels ghIssue))))].
Proof.
  intros _ H Hedit.
  destruct (pull_leaves_record gh n w w1 H)
    as (ghIssue & files & props & Hgh & Hfound & _ & Hjson & Hmd).
  destruct (pulled_fields ghIssue
              (carried props ++ closing_fields n files ghIssue
                                  (obj_get props (str "body_file"))))
    as (Ht & _ & Hl).
  exists ghIssue, files. split; [exact Hgh|]. split; [exact Hfound|].
  cbn [main].
  assert (Hrun : run (push gh n) w1 =
    (0%Z,
     {| dir := dir w1;
        trace := trace w1
                 ++ [Out (OutPushing n);
                     Spawn (IssueEdit n
                              match Remote.title ghIssue with
                              | [] => None
                              | _ :: _ => Some (Remote.title ghIssue)
                              end
                              (Some (md_path files)));
                     Spawn (IssueView n);
                     Out (OutUpdatedTitle (Some (JStr (Remote.title ghIssue))));
                     Out (OutUpdatedBody (md_path files));
                     Out (OutSyncedLabels
                            (map JStr (map name (Remote.labels ghIssue))))] |})).
  { unfold run.
    rewrite (push_until_edit gh n w1 files _ _ _
               match Remote.title ghIssue with
               | [] => None
               | _ :: _ => Some (Remote.title ghIssue)
               end
               (map name (Remote.labels ghIssue)) Hfound Hjson Ht)
      by (try (intros w0; unfold title_flag; cbn [truthy];
               destruct (Remote.title ghIssue); reflexivity);
          try exact Hl; reflexivity).
    cbv zeta. unfold existsSync. rewrite Hmd, Hedit.
    unfold bind at 1.
    rewrite (syncLabels_commands gh n _ _ ghIssue Hgh). cbv zeta.
    rewrite !nothing_to_add.
    unfold bind, console_log, emit. cbn [dir trace map app].
    f_equal. f_equal. repeat (rewrite <- app_assoc; cbn [app]). reflexivity. }
  rewrite Hrun. split; reflexivity.
Qed.

Lemma pull_then_push_keeps_labels_witness :
  let gh := tracker_of (issue kafka_title (str "OPEN")) in
  exists ghIssue files,
    gh (IssueView 5) = Some (Snapshot ghIssue) /\
    findIssueFiles (dir (snd (pull gh 5 empty_world))) 5 = Some files /\
    fst (run (main gh (Push (Number 5))) (snd (pull gh 5 empty_world))) = 0%Z.
Proof.
  intros gh.
  destruct (pull_then_push_keeps_labels gh 5%N empty_world
              (snd (pull gh 5 empty_world)) NoOutput)
    as (ghIssue & files & Hgh & Hfound & Hcode & _);
    [reflexivity|vm_compute; reflexivity|reflexivity|].
  exists ghIssue, files. split; [exact Hgh|]. split; [exact Hfound|exact Hcode].
Defined.

End AfterPull.

(** ** Failing fetches: [pull --all] stops, [status] goes on *)
Section FailingFetch.

Lemma for_each_app (f : N -> M unit) (a b : list N) (w : world) :
  for_each f (a ++ b) w = bind (for_each f a) (fun _ => for_each f b) w.
Proof.
  revert w. induction a as [|x a IH]; intros w; [reflexivity|].
  cbn [app for_each]. rewrite bind_assoc. apply bind_ext. intros _ w'. apply IH.
Qed.

(** X19: [pull --all] stops at the first number whose fetch fails, where
    the pulls of the numbers before it have completed: the failure is
    reported and the run ends with exit code 1; the files are those that the
    pulls before it have left, and the numbers after it are not pulled.  (The
    numbers of the directory are at most 2^53 - 1.) *)
Theorem pull_all_stops_at_failed_fetch (gh : tracker) (w w1 : world)
  (before : list N) (n : N) (rest : list N) :
  (forall k, In k (findAllIssueNumbers (dir w)) -> safe_integer k = true) ->
  findAllIssueNumbers (dir w) = before ++ n :: rest ->
  for_each (pull gh) before w = (Done tt, w1) ->
  gh (IssueView n) = None ->
  run (main gh (Pull All)) w =
  (1%Z, {| dir := dir w1;
           trace := trace w1 ++ [Out (OutPulling n); Spawn (IssueView n);
                                 Err (ErrCommandFailed (IssueView n))] |}).
Proof.
  intros _ Hall Hbefore Hgh. cbn [main].
  unfold run. rewrite (bind_step get_dir _ w w (dir w) eq_refl).
  rewrite Hall, for_each_app, (bind_step _ _ w w1 tt Hbefore).
  cbn [for_each].
  unfold pull, fetchIssue, exec, bind, console_log, console_error, emit, process_exit.
  cbn [dir trace]. rewrite Hgh. cbn [dir trace].
  now rewrite <- !app_assoc.
Qed.

Lemma pull_all_stops_at_failed_fetch_witness :
  let w := {| dir := [(str "3-a.json", Meta (JObj [])); (str "7-b.json", Meta (JObj []))];
              trace := [] |} in
  let gh : tracker :=
    fun c => match c with
             | IssueView 3 => Some (Snapshot (issue (str "T") (str "OPEN")))
             | _ => None
             end in
  fst (run (main gh (Pull All)) w) = 1%Z /\
  readdirSync (dir (snd (run (main gh (Pull All)) w)))
  = [str "3-a.json"; str "7-b.json"; str "3-a.md"].
Proof.
  intros w gh.
  rewrite (pull_all_stops_at_failed_fetch gh w (snd (for_each (pull gh) [3%N] w))
             [3%N] 7%N []).
  - split; [reflexivity|]. vm_compute. reflexivity.
  - intros k Hk. vm_compute in Hk. destruct Hk as [<-|[<-|[]]]; reflexivity.
  - reflexivity.
  - vm_compute. reflexivity.
  - reflexivity.
Defined.





End FailingFetch.

(** ** A pull writes the record or nothing *)
Section PullOutcome.



End PullOutcome.

(** ** The fields of a pulled record *)
Section PulledFields.

Lemma obj_get_key (props : list (jstring * json)) (k : jstring) (v : json) :
  obj_get props k = Some v -> In k (map fst props).
Proof.
  induction props as [|[k' v'] rest IH]; [discriminate|].
  cbn [obj_get map fst In]. destruct (jstring_eqb k k') eqn:E.
  - apply jstring_eqb_eq in E. now left.
  - intros H. right. now apply IH.
Qed.

Lemma obj_get_app (a b : list (jstring * json)) (k : jstring) :
  obj_get (a ++ b) k = match obj_get a k with
                       | Some v => Some v
                       | None => obj_get b k
                       end.
Proof.
  induction a as [|[k' v'] rest IH]; [reflexivity|].
  cbn [app obj_get]. now destruct (jstring_eqb k k').
Qed.

Lemma carried_keys (props : list (jstring * json)) (k : jstring) :
  In k (map fst (carried props)) -> In k Config.localOnlyFields.
Proof.
  unfold carried. cbn [flat_map]. local_only_cases props; cbn; tauto.
Qed.

Lemma carried_not_github (props : list (jstring * json)) (k : jstring) :
  In k Config.githubFields -> obj_get (carried props) k = None.
Proof.
  intros Hk. cbn in Hk.
  repeat (destruct Hk as [<-|Hk];
          [unfold carried; cbn [flat_map]; local_only_cases props; reflexivity|]).
  destruct Hk.
Qed.

(** X22: the metadata that a completed pull leaves has every field of
    [CONFIG.githubFields] and the field [body_file], and no field outside
    [CONFIG.githubFields] and [CONFIG.localOnlyFields]: a field of the local
    file that is in neither list is gone after the pull. *)
Theorem pulled_record_fields (gh : tracker) (n : N) (w w1 : world) :
  pull gh n w = (Done tt, w1) ->
  exists files m,
    findIssueFiles (dir w1) n = Some files /\
    lookup_file (dir w1) (json_path files) = Some (Meta m) /\
    (forall k, In k Config.githubFields -> exists v, prop m k = Some (Some v)) /\
    (exists v, prop m (str "body_file") = Some (Some v)) /\
    (forall k v, prop m k = Some (Some v) ->
                 In k Config.githubFields \/ In k Config.localOnlyFields).
Proof.
  intros H.
  destruct (pull_leaves_record gh n w w1 H)
    as (ghIssue & files & props & Hgh & Hfound & _ & Hjson & _).
  eexists files, _. split; [exact Hfound|]. split; [exact Hjson|].
  cbn [prop]. split; [|split].
  - intros k Hk. rewrite obj_get_app.
    destruct (obj_get (remote_fields ghIssue) k) as [v|] eqn:E; [eauto|].
    rewrite obj_get_app, (carried_not_github props k Hk).
    cbn in Hk. repeat (destruct Hk as [<-|Hk]; [try discriminate E; eexists; reflexivity|]).
    destruct Hk.
  - rewrite obj_get_app.
    destruct (obj_get (remote_fields ghIssue) (str "body_file")) eqn:E;
      [discriminate E|].
    rewrite obj_get_app.
    destruct (obj_get (carried props) (str "body_file")) as [v|];
      eexists; reflexivity.
  - intros k v Hk. assert (Hv : obj_get (remote_fields ghIssue ++ carried props
                                   ++ closing_fields n files ghIssue
                                        (obj_get props (str "body_file"))) k
                                = Some v) by congruence.
    apply obj_get_key in Hv. rewrite !map_app, !in_app_iff in Hv.
    destruct Hv as [Hv|[Hv|Hv]].
    + left. cbn in Hv. cbn. tauto.
    + right. exact (carried_keys props k Hv).
    + cbn in Hv. cbn. tauto.
Qed.

Lemma pulled_record_fields_witness :
  let gh := tracker_of (issue kafka_title (str "OPEN")) in
  let w := world_with (str "5-kafka.json")
             (Meta (JObj [(str "note", JStr (str "mine")); (str "typ", JStr (str "x"))])) in
  exists m,
    lookup_file (dir (snd (pull gh 5 w))) (str "5-kafka.json") = Some (Meta m) /\
    prop m (str "typ") = Some (Some (JStr (str "x"))) /\
    prop m (str "note") = Some None.
Proof.
  intros gh w.
  destruct (pulled_record_fields gh 5%N w (snd (pull gh 5 w)))
    as (files & m & Hfound & Hjson & _ & _ & Hkeys); [vm_compute; reflexivity|].
  assert (Hfiles : files = {| json_path := str "5-kafka.json";
                              md_path := str "5-kafka.md"; slug := str "kafka" |})
    by (vm_compute in Hfound; injection Hfound as <-; reflexivity).
  subst files. cbn [json_path] in Hjson.
  exists m. split; [exact Hjson|].
  assert (Hm : Some (Meta m) = lookup_file (dir (snd (pull gh 5 w))) (str "5-kafka.json"))
    by (symmetry; exact Hjson).
  vm_compute in Hm. injection Hm as ->. split; reflexivity.
Defined.

End PulledFields.

(** ** Writing and reading a body file *)
Section BodyRoundTrip.

Lemma normalized_ends (s : jstring) : endsWith (normalized s) [NEWLINE] = true.
Proof.
  unfold normalized. destruct (endsWith s [NEWLINE]) eqn:E; [exact E|].
  apply endsWith_newline_snoc.
Qed.

Lemma normalized_idempotent (s : jstring) : normalized (normalized s) = normalized s.
Proof. unfold normalized at 1. now rewrite normalized_ends. Qed.

(** X23: a body file reads back as it was written, which is the content
    with its final line break ensured; ensuring the line break twice is
    ensuring it once, so writing back what was read changes no file; and
    writing a body file leaves the other files as they are. *)
Theorem writeMd_readMd_round_trip (filePath content : jstring) (w : world) :
  let w1 := snd (writeMd filePath content w) in
  readMd filePath w1 = (Done (normalized content), w1) /\
  normalized (normalized content) = normalized content /\
  dir (snd (writeMd filePath (normalized content) w1)) = dir w1 /\
  (forall other, other <> filePath ->
                 lookup_file (dir w1) other = lookup_file (dir w) other).
Proof.
  cbv zeta. rewrite writeMd_writes. cbn [snd]. split; [|split; [|split]].
  - unfold readMd, bind, get_dir. cbn [dir]. now rewrite lookup_write_same.
  - apply normalized_idempotent.
  - rewrite writeMd_writes. cbn [snd dir]. rewrite normalized_idempotent.
    apply write_file_same, lookup_write_same.
  - intros other Hne. cbn [dir]. apply lookup_write_other. congruence.
Qed.

Lemma writeMd_readMd_round_trip_witness :
  lookup_file (dir (snd (writeMd (str "5-a.md") (str "x")
                           (world_with (str "5-a.json") (Meta (JObj []))))))
    (str "5-a.json")
  = Some (Meta (JObj [])).
Proof.
  rewrite (proj2 (proj2 (proj2 (writeMd_readMd_round_trip (str "5-a.md") (str "x")
                                  (world_with (str "5-a.json") (Meta (JObj []))))))
             (str "5-a.json")); [reflexivity|discriminate].
Defined.

End BodyRoundTrip.

(** ** A title that is not a string *)
Section TitleFlag.

(** X24: [push] of a record whose title is truthy and not a string (a
    number, [true], an array, an object) ends on the [TypeError] of
    [title.replace], with exit code 1 and before any command is handed to
    the shell. *)
Theorem push_title_not_a_string (gh : tracker) (n : N) (w : world)
  (files : issue_files) (localJson v : json) :
  findIssueFiles (dir w) n = Some files ->
  lookup_file (dir w) (json_path files) = Some (Meta localJson) ->
  prop localJson (str "title") = Some (Some v) ->
  truthy v = true ->
  (forall s, v <> JStr s) ->
  run (main gh (Push (Number n))) w =
  (1%Z, {| dir := dir w;
           trace := trace w ++ [Out (OutPushing n); Err (ErrUncaught TypeError)] |}).
Proof.
  intros Hfiles Hjson Htitle Htruthy Hv. cbn [main].
  assert (Hlabels : exists labels, prop localJson (str "labels") = Some labels)
    by (destruct localJson; try discriminate; cbn; eauto).
  destruct Hlabels as [labels Hlabels].
  unfold run, push, updateIssue, title_flag, readJson, or_type_error, console_log,
    emit, get_dir, bind, ret, throw.
  cbn [dir trace]. rewrite Hfiles. cbv beta iota zeta. cbn [dir trace].
  rewrite Hjson. cbv beta iota zeta. cbn [dir trace].
  rewrite Htitle, Hlabels. cbv beta iota zeta. rewrite Htruthy.
  destruct v; try discriminate Htruthy; try (now destruct (Hv s));
    cbv beta iota zeta; cbn [dir trace]; now rewrite <- app_assoc.
Qed.

Lemma push_title_not_a_string_witness :
  let w := world_with (str "5-a.json") (Meta (JObj [(str "title", JNum 7)])) in
  run (main (tracker_of (issue (str "T") (str "OPEN"))) (Push (Number 5))) w =
  (1%Z, {| dir := dir w;
           trace := [Out (OutPushing 5); Err (ErrUncaught TypeError)] |}).
Proof.
  intros w.
  apply (push_title_not_a_string _ 5%N w
           {| json_path := str "5-a.json"; md_path := str "5-a.md"; slug := str "a" |}
           (JObj [(str "title", JNum 7)]) (JNum 7));
    try reflexivity.
  intros s. discriminate.
Defined.

End TitleFlag.
